(** * Coin Collector: authoritative server and interpolating client

    A shallow embedding of the game server ([server.js], in its two revisions)
    and of the browser client ([public/client.js]).

    Conventions.
    - A JavaScript number is an exact rational ([Q]); every number the server
      computes for a player is an integer multiple of [5] inside the map, and
      the client only adds, multiplies and divides.  Results are compared
      with [==] where arithmetic is involved.
    - [Math.sqrt (s) < r] is written [s < r * r]; lemma [sqrt_test] shows
      that the two tests agree over the reals.
    - [PLAYERS] is a JavaScript object iterated with [for ... in]: its keys are
      uuid strings, so the iteration order is the insertion order, which
      decides who reaches a coin first.  It is therefore an association list
      in insertion order, not an unordered map.
    - [Date.now ()], [Math.random ()] and [uuidv4 ()] are inputs: the clock
      value comes with the timer event, the other two are read from an
      environment indexed by the number of calls made so far. *)

From Stdlib Require Import ZArith QArith Qminmax Qreals Reals.
From Stdlib Require Import List Sorted String Bool Lia Lra Lqa.
Import ListNotations.

Local Open Scope string_scope.
Local Open Scope Q_scope.

(** ** JSON values: what [JSON.parse] returns and [JSON.stringify] consumes *)

#[local] Unset Elimination Schemes.
Inductive JSON : Type :=
| JNull
| JBool (b : bool)
| JNum (n : Q)
| JStr (s : string)
| JArr (items : list JSON)
| JObj (members : list (string * JSON)).
#[local] Set Elimination Schemes.

(** Association lists keyed by strings, in insertion order. *)
Module Dict.
Section Ops.
Context {A : Type}.

Fixpoint get (k : string) (d : list (string * A)) : option A :=
  match d with
  | [] => None
  | (k', v) :: d' => if String.eqb k k' then Some v else get k d'
  end.

(** [d[k] = v]: an existing key keeps its place, a new key goes last. *)
Fixpoint set (k : string) (v : A) (d : list (string * A)) : list (string * A) :=
  match d with
  | [] => [(k, v)]
  | (k', v') :: d' =>
      if String.eqb k k' then (k', v) :: d' else (k', v') :: set k v d'
  end.

(** [delete d[k]] *)
Fixpoint remove (k : string) (d : list (string * A)) : list (string * A) :=
  match d with
  | [] => []
  | (k', v') :: d' =>
      if String.eqb k k' then remove k d' else (k', v') :: remove k d'
  end.

Definition keys (d : list (string * A)) : list string := map fst d.
Definition values (d : list (string * A)) : list A := map snd d.
End Ops.
End Dict.

(** The three ways a property read [data.k] on a parsed message can end:
    [null.k] throws a TypeError, a primitive or an array has no such
    property, an object has it or not. *)
Definition prop (data : JSON) (k : string) : option (option JSON) :=
  match data with
  | JNull => None
  | JObj members => Some (Dict.get k members)
  | _ => Some None
  end.

(** [v === s] for a string literal [s]. *)
Definition is_string (v : option JSON) (s : string) : bool :=
  match v with
  | Some (JStr s') => String.eqb s' s
  | _ => false
  end.

(** [lits.includes (v)] for an array of string literals. *)
Definition includes (lits : list string) (v : option JSON) : bool :=
  existsb (is_string v) lits.

(** ** Configuration (shared by both revisions of the server) *)

Definition TICK_RATE : Q := 20.
Definition TICK_DT : Q := 1000 / TICK_RATE.
Definition LATENCY_MS : Q := 200.
Definition MAP_SIZE_width : Q := 800.
Definition MAP_SIZE_height : Q := 600.
Definition PLAYER_SIZE : Q := 20.
Definition COIN_SIZE : Q := 10.
Definition MOVEMENT_SPEED : Q := 5.

Definition Math_max (a b : Q) : Q := Qmax a b.
Definition Math_min (a b : Q) : Q := Qmin a b.

(** [a < b] on numbers, as a boolean. *)
Definition ltb (a b : Q) : bool := negb (Qle_bool b a).

(** [Math.max (0, Math.min (hi, v))], the boundary check of both revisions. *)
Definition clamp (hi v : Q) : Q := Math_max 0 (Math_min hi v).

(** ** Coins *)

Module Coin.
Record t : Type := make { id : string; x : Q; y : Q }.
End Coin.

(** The environment: the successive results of [uuidv4 ()] and of
    [Math.random ()], and the text a template literal prints for a hue. *)
Record Env : Type := {
  uuidv4 : nat -> string;
  Math_random : nat -> Q;
  hsl : Q -> string
}.

(** How many times each source has been read. *)
Record Draws : Type := { uuid_calls : nat; random_calls : nat }.

(** The coin array together with the reads made so far. *)
Record Pool : Type := { COINS : list Coin.t; draws : Draws }.

Section Coins.
Variable env : Env.

(** [function spawnCoin ()]: one uuid, then the abscissa, then the
    ordinate; the new coin is pushed at the end of [COINS]. *)
Definition spawnCoin (pl : Pool) : Pool :=
  let u := uuid_calls (draws pl) in
  let r := random_calls (draws pl) in
  {| COINS := COINS pl ++
       [ Coin.make (uuidv4 env u)
           (Math_random env r * (MAP_SIZE_width - 20) + 10)
           (Math_random env (S r) * (MAP_SIZE_height - 20) + 10) ];
     draws := {| uuid_calls := S u; random_calls := S (S r) |} |}.

(** [for (let i = 0; i < 5; i++) spawnCoin ();] *)
Fixpoint spawn_times (n : nat) (pl : Pool) : Pool :=
  match n with
  | O => pl
  | S n' => spawn_times n' (spawnCoin pl)
  end.

Definition no_draws : Draws := {| uuid_calls := 0; random_calls := 0 |}.
Definition initial_pool : Pool :=
  spawn_times 5 {| COINS := []; draws := no_draws |}.
End Coins.

(** [COINS.splice (i, 1)] *)
Definition splice1 {A : Type} (i : nat) (l : list A) : list A :=
  firstn i l ++ skipn (S i) l.

(** ** The collision test *)

Module Geometry.
(** [dx * dx + dy * dy] for [dx = p.x - c.x], [dy = p.y - c.y]. *)
Definition dist2 (px py : Q) (c : Coin.t) : Q :=
  let dx := px - Coin.x c in
  let dy := py - Coin.y c in
  dx * dx + dy * dy.

Definition reach : Q := PLAYER_SIZE + COIN_SIZE.

(** [dist < PLAYER_SIZE + COIN_SIZE] with [dist = Math.sqrt (dist2)]. *)
Definition touches (px py : Q) (c : Coin.t) : bool :=
  ltb (dist2 px py c) (reach * reach).

(** The Euclidean distance itself, over the reals. *)
Definition dist (px py : Q) (c : Coin.t) : R := sqrt (Q2R (dist2 px py c)).
End Geometry.

(** ** What a socket delivers *)

(** A frame received on a socket, by what [JSON.parse] makes of it: a
    SyntaxError for text that is not JSON, the parsed value otherwise. *)
Inductive Message : Type :=
| Garbage (raw : string)
| Text (data : JSON).

Definition JSON_parse (message : Message) : option JSON :=
  match message with
  | Garbage _ => None
  | Text data => Some data
  end.

Definition ConnId : Type := nat.

Definition DIRECTIONS : list string := ["up"; "down"; "left"; "right"].

(** ** The current server: pressed-state movement *)

Module Pressed.
Record t : Type := make { up : bool; down : bool; left : bool; right : bool }.

(** [{ up: false, down: false, left: false, right: false }] *)
Definition none : t := make false false false false.

(** [pressed[key]] *)
Definition get (key : string) (pr : t) : option bool :=
  if String.eqb key "up" then Some (up pr)
  else if String.eqb key "down" then Some (down pr)
  else if String.eqb key "left" then Some (left pr)
  else if String.eqb key "right" then Some (right pr)
  else None.

(** [pressed[key] = v], for a key that passed the [includes] test. *)
Definition set (key : string) (v : bool) (pr : t) : t :=
  if String.eqb key "up" then make v (down pr) (left pr) (right pr)
  else if String.eqb key "down" then make (up pr) v (left pr) (right pr)
  else if String.eqb key "left" then make (up pr) (down pr) v (right pr)
  else if String.eqb key "right" then make (up pr) (down pr) (left pr) v
  else pr.
End Pressed.

Module Player.
Record t : Type := make {
  id : string;
  x : Q;
  y : Q;
  score : Z;
  color : string;
  pressed : Pressed.t
}.

Definition set_x (v : Q) (p : t) : t :=
  make (id p) v (y p) (score p) (color p) (pressed p).
Definition set_y (v : Q) (p : t) : t :=
  make (id p) (x p) v (score p) (color p) (pressed p).
Definition set_score (v : Z) (p : t) : t :=
  make (id p) (x p) (y p) v (color p) (pressed p).
Definition set_pressed (v : Pressed.t) (p : t) : t :=
  make (id p) (x p) (y p) (score p) (color p) v.
End Player.

(** What the collision loop needs of a player object; the two revisions of
    the server run the same loop on differently shaped players. *)
Class Body (P : Type) : Type := {
  body_x : P -> Q;
  body_y : P -> Q;
  score_incr : P -> P      (* [p.score += 1] *)
}.

#[export] Instance Player_Body : Body Player.t := {
  body_x := Player.x;
  body_y := Player.y;
  score_incr := fun p => Player.set_score (Player.score p + 1)%Z p
}.

Section Collisions.
Variable env : Env.
Context {P : Type} `{Body P}.

(** One pass of the body of
    [for (let i = COINS.length - 1; i >= 0; i--)] at index [i]. *)
Definition collide_at (i : nat) (p : P) (pl : Pool) : P * Pool :=
  match nth_error (COINS pl) i with
  | None => (p, pl)   (* no such pass: the array keeps its length, see
                         [collide_at_in_range] and [collect_length] *)
  | Some c =>
      if Geometry.touches (body_x p) (body_y p) c
      then (score_incr p,
            spawnCoin env {| COINS := splice1 i (COINS pl); draws := draws pl |})
      else (p, pl)
  end.

(** The passes for [i = n - 1] down to [0]. *)
Fixpoint collect (n : nat) (p : P) (pl : Pool) : P * Pool :=
  match n with
  | O => (p, pl)
  | S i => let '(p', pl') := collide_at i p pl in collect i p' pl'
  end.

(** The whole loop: [i] starts at [COINS.length - 1]. *)
Definition collisions (p : P) (pl : Pool) : P * Pool :=
  collect (List.length (COINS pl)) p pl.
End Collisions.

Module Server.

(** [PLAYERS], keyed by player id, in insertion order. *)
Definition Players : Type := list (string * Player.t).

(** The object stored by the ['connection'] handler. *)
Definition new_player (playerId color : string) : Player.t :=
  Player.make playerId (MAP_SIZE_width / 2) (MAP_SIZE_height / 2) 0%Z color
    Pressed.none.

(** The text of a property that passed the [includes] test. *)
Definition key_name (v : option JSON) : string :=
  match v with
  | Some (JStr s) => s
  | _ => ""
  end.

(** The backward-compatible branch: one step at once, then the clamp. *)
Definition single_shot (key : option JSON) (p : Player.t) : Player.t :=
  let p := if is_string key "up"
           then Player.set_y (Player.y p - MOVEMENT_SPEED) p else p in
  let p := if is_string key "down"
           then Player.set_y (Player.y p + MOVEMENT_SPEED) p else p in
  let p := if is_string key "left"
           then Player.set_x (Player.x p - MOVEMENT_SPEED) p else p in
  let p := if is_string key "right"
           then Player.set_x (Player.x p + MOVEMENT_SPEED) p else p in
  let p := Player.set_x (clamp MAP_SIZE_width (Player.x p)) p in
  Player.set_y (clamp MAP_SIZE_height (Player.y p)) p.

(** The body of the [try] block of the delayed ['message'] callback.
    [None] is an exception, which the [catch] clause logs. *)
Definition on_message (playerId : string) (message : Message)
    (PLAYERS : Players) : option Players :=
  match JSON_parse message with
  | None => None
  | Some data =>
      match prop data "type" with
      | None => None
      | Some type =>
          if is_string type "input" then
            match Dict.get playerId PLAYERS with
            | None => Some PLAYERS
            | Some p =>
                match prop data "key", prop data "action" with
                | Some key, Some action =>
                    if includes DIRECTIONS key &&
                       (is_string action "start" || is_string action "stop")
                    then
                      Some (Dict.set playerId
                              (Player.set_pressed
                                 (Pressed.set (key_name key)
                                    (is_string action "start")
                                    (Player.pressed p)) p)
                              PLAYERS)
                    else if includes DIRECTIONS key
                    then Some (Dict.set playerId (single_shot key p) PLAYERS)
                    else Some PLAYERS
                | _, _ => None
                end
            end
          else Some PLAYERS
      end
  end.

(** Step 1 of the game loop for one player: the pressed directions, then
    the boundary checks. *)
Definition move (p : Player.t) : Player.t :=
  let p := if Pressed.up (Player.pressed p)
           then Player.set_y (Player.y p - MOVEMENT_SPEED) p else p in
  let p := if Pressed.down (Player.pressed p)
           then Player.set_y (Player.y p + MOVEMENT_SPEED) p else p in
  let p := if Pressed.left (Player.pressed p)
           then Player.set_x (Player.x p - MOVEMENT_SPEED) p else p in
  let p := if Pressed.right (Player.pressed p)
           then Player.set_x (Player.x p + MOVEMENT_SPEED) p else p in
  let p := Player.set_x (clamp MAP_SIZE_width (Player.x p)) p in
  Player.set_y (clamp MAP_SIZE_height (Player.y p)) p.

(** Step 3: the object literal copied for each player. *)
Definition player_view (p : Player.t) : JSON :=
  JObj [ ("id", JStr (Player.id p));
         ("x", JNum (Player.x p));
         ("y", JNum (Player.y p));
         ("score", JNum (inject_Z (Player.score p)));
         ("color", JStr (Player.color p)) ].

(** [for (const id in PLAYERS) playersForSend[id] = { ... }]: every key of
    [PLAYERS] is visited once and gets its own fresh object. *)
Definition playersForSend (PLAYERS : Players) : list (string * JSON) :=
  map (fun kp => (fst kp, player_view (snd kp))) PLAYERS.

Definition coin_json (c : Coin.t) : JSON :=
  JObj [ ("id", JStr (Coin.id c));
         ("x", JNum (Coin.x c));
         ("y", JNum (Coin.y c)) ].

Definition gameState (PLAYERS : Players) (coins : list Coin.t) (now : Z)
    : JSON :=
  JObj [ ("players", JObj (playersForSend PLAYERS));
         ("coins", JArr (map coin_json coins));
         ("timestamp", JNum (inject_Z now)) ].

(** The value whose text is [stateString]. *)
Definition state_packet (state : JSON) : JSON :=
  JObj [ ("type", JStr "state"); ("state", state) ].

Definition init_packet (playerId : string) : JSON :=
  JObj [ ("type", JStr "init"); ("id", JStr playerId) ].

(** The three closures handed to [setTimeout (..., LATENCY_MS)]. *)
Inductive Callback : Type :=
| SendInit (ws : ConnId) (playerId : string)
| HandleMessage (playerId : string) (message : Message)
| Broadcast (stateString : JSON).

(** [ws.readyState], as the two guards of the server see it.  A socket
    handed to the ['connection'] handler is [OPEN]; it is [CLOSING] from the
    moment the closing handshake starts, or the connection is lost, until
    its ['close'] event is emitted, and [CLOSED] from then on. *)
Inductive ReadyState : Type := OPEN | CLOSING | CLOSED.

(** The server between two callbacks of the event loop. *)
Record State : Type := make {
  PLAYERS : Players;
  pool : Pool;
  clients : list (ConnId * string);  (* [wss.clients]: the sockets whose
                                        ['close'] event has not been
                                        emitted, each with the [playerId]
                                        its handlers captured *)
  closing : list ConnId;             (* the sockets that stopped being
                                        [OPEN] *)
  next_conn : ConnId;
  timers : list (nat * Callback);    (* armed timeouts, oldest first *)
  next_timer : nat
}.

(** What the event loop runs, and what happens to a socket without any
    handler of the server being called. *)
Inductive Event : Type :=
| Connection
| Incoming (ws : ConnId) (message : Message)
| Closed (ws : ConnId)      (* the ['close'] event of the socket *)
| Tick (now : Z)            (* the interval fires; [Date.now ()] is [now] *)
| Expire (timer : nat)      (* an armed timeout fires *)
| Closing (ws : ConnId).    (* the socket starts closing: [readyState]
                               leaves [OPEN], no listener runs *)

(** What a callback does to the outside. *)
Inductive Effect : Type :=
| Armed (timer : nat) (cb : Callback)
| Released (timer : nat) (cb : Callback)
| Sent (ws : ConnId) (packet : JSON)
| Logged.

Definition with_players (PLAYERS' : Players) (s : State) : State :=
  make PLAYERS' (pool s) (clients s) (closing s) (next_conn s) (timers s)
    (next_timer s).

(** [setTimeout (cb, LATENCY_MS)] *)
Definition setTimeout (cb : Callback) (s : State) : State * list Effect :=
  (make (PLAYERS s) (pool s) (clients s) (closing s) (next_conn s)
     (timers s ++ [(next_timer s, cb)]) (S (next_timer s)),
   [Armed (next_timer s) cb]).

Fixpoint lookup {A : Type} (n : nat) (l : list (nat * A)) : option A :=
  match l with
  | [] => None
  | (m, a) :: l' => if Nat.eqb n m then Some a else lookup n l'
  end.

Definition drop {A : Type} (n : nat) (l : list (nat * A)) : list (nat * A) :=
  filter (fun e => negb (Nat.eqb n (fst e))) l.

(** [ws.readyState] *)
Definition readyState (ws : ConnId) (s : State) : ReadyState :=
  match lookup ws (clients s) with
  | None => CLOSED
  | Some _ => if existsb (Nat.eqb ws) (closing s) then CLOSING else OPEN
  end.

(** [ws.readyState === WebSocket.OPEN] *)
Definition is_open (s : State) (ws : ConnId) : bool :=
  match readyState ws s with
  | OPEN => true
  | _ => false
  end.

Section Loop.
Variable env : Env.

(** Steps 1 and 2 of the game loop: [for (const id in PLAYERS)]. *)
Fixpoint each_player (ps : Players) (pl : Pool) : Players * Pool :=
  match ps with
  | [] => ([], pl)
  | (k, p) :: rest =>
      let '(p', pl') := collisions env (move p) pl in
      let '(rest', pl'') := each_player rest pl' in
      ((k, p') :: rest', pl'')
  end.

(** [wss.on ('connection', ...)] *)
Definition on_connection (s : State) : State * list Effect :=
  let d := draws (pool s) in
  let playerId := uuidv4 env (uuid_calls d) in
  let color := hsl env (Math_random env (random_calls d) * 360) in
  let ws := next_conn s in
  setTimeout (SendInit ws playerId)
    (make (Dict.set playerId (new_player playerId color) (PLAYERS s))
       {| COINS := COINS (pool s);
          draws := {| uuid_calls := S (uuid_calls d);
                      random_calls := S (random_calls d) |} |}
       (clients s ++ [(ws, playerId)]) (closing s) (S ws) (timers s)
       (next_timer s)).

(** [ws.on ('message', ...)]: nothing is looked at before the timeout. *)
Definition on_incoming (ws : ConnId) (message : Message) (s : State)
    : State * list Effect :=
  match lookup ws (clients s) with
  | Some playerId => setTimeout (HandleMessage playerId message) s
  | None => (s, [])
  end.

(** The ['close'] event: the socket leaves [wss.clients], then
    [ws.on ('close', ...)] runs. *)
Definition on_close (ws : ConnId) (s : State) : State * list Effect :=
  match lookup ws (clients s) with
  | Some playerId =>
      (make (Dict.remove playerId (PLAYERS s)) (pool s) (drop ws (clients s))
         (filter (fun w => negb (Nat.eqb ws w)) (closing s))
         (next_conn s) (timers s) (next_timer s), [])
  | None => (s, [])
  end.

(** The socket starts closing; the server has no listener for that. *)
Definition on_closing (ws : ConnId) (s : State) : State * list Effect :=
  match lookup ws (clients s) with
  | Some _ =>
      (make (PLAYERS s) (pool s) (clients s) (ws :: closing s)
         (next_conn s) (timers s) (next_timer s), [])
  | None => (s, [])
  end.

(** The [setInterval] callback. *)
Definition on_tick (now : Z) (s : State) : State * list Effect :=
  let '(ps, pl) := each_player (PLAYERS s) (pool s) in
  setTimeout (Broadcast (state_packet (gameState ps (COINS pl) now)))
    (make ps pl (clients s) (closing s) (next_conn s) (timers s)
       (next_timer s)).

(** The bodies of the three delayed closures. *)
Definition run_callback (cb : Callback) (s : State) : State * list Effect :=
  match cb with
  | SendInit ws playerId =>
      if is_open s ws
      then (s, [Sent ws (init_packet playerId)])
      else (s, [])
  | HandleMessage playerId message =>
      match on_message playerId message (PLAYERS s) with
      | Some ps => (with_players ps s, [])
      | None => (s, [Logged])
      end
  | Broadcast stateString =>
      (s, map (fun ws => Sent ws stateString)
            (filter (is_open s) (map fst (clients s))))
  end.

(** A timeout fires: its closure runs, whatever else is still armed. *)
Definition on_expire (timer : nat) (s : State) : State * list Effect :=
  match lookup timer (timers s) with
  | None => (s, [])
  | Some cb =>
      let '(s', out) :=
        run_callback cb
          (make (PLAYERS s) (pool s) (clients s) (closing s) (next_conn s)
             (drop timer (timers s)) (next_timer s)) in
      (s', Released timer cb :: out)
  end.

Definition step (s : State) (e : Event) : State * list Effect :=
  match e with
  | Connection => on_connection s
  | Incoming ws message => on_incoming ws message s
  | Closed ws => on_close ws s
  | Tick now => on_tick now s
  | Expire timer => on_expire timer s
  | Closing ws => on_closing ws s
  end.

Fixpoint run (s : State) (evs : list Event) : State * list Effect :=
  match evs with
  | [] => (s, [])
  | e :: evs' =>
      let '(s1, out1) := step s e in
      let '(s2, out2) := run s1 evs' in
      (s2, (out1 ++ out2)%list)
  end.

(** The server once the module has been loaded: five coins, nobody. *)
Definition start : State := make [] (initial_pool env) [] [] 0%nat [] 0%nat.
End Loop.

(** The timers released by a run, in the order their closures ran. *)
Fixpoint released (out : list Effect) : list nat :=
  match out with
  | [] => []
  | Released t _ :: out' => t :: released out'
  | _ :: out' => released out'
  end.

(** The timers armed by a run, in the order [setTimeout] was called. *)
Fixpoint armed (out : list Effect) : list nat :=
  match out with
  | [] => []
  | Armed t _ :: out' => t :: armed out'
  | _ :: out' => armed out'
  end.

(** [a] comes before [b] in [l] (at their first occurrences). *)
Fixpoint before (a b : nat) (l : list nat) : bool :=
  match l with
  | [] => false
  | c :: l' =>
      if Nat.eqb c a then existsb (Nat.eqb b) l'
      else if Nat.eqb c b then false
      else before a b l'
  end.

(** The timestamps of the snapshots handed to [setTimeout], in order. *)
Definition timestamp_of (packet : JSON) : option Q :=
  match prop packet "state" with
  | Some (Some state) =>
      match prop state "timestamp" with
      | Some (Some (JNum n)) => Some n
      | _ => None
      end
  | _ => None
  end.

Fixpoint snapshots (out : list Effect) : list JSON :=
  match out with
  | [] => []
  | Armed _ (Broadcast packet) :: out' => packet :: snapshots out'
  | _ :: out' => snapshots out'
  end.

(** The per-player objects of a [state] packet. *)
Definition views_of (packet : JSON) : list JSON :=
  match prop packet "state" with
  | Some (Some state) =>
      match prop state "players" with
      | Some (Some (JObj members)) => Dict.values members
      | _ => []
      end
  | _ => []
  end.

(** The property names of an object. *)
Definition fields (v : JSON) : list string :=
  match v with
  | JObj members => Dict.keys members
  | _ => []
  end.

End Server.

(** ** The earlier server: queued single-step inputs *)

Module Legacy.

Module Player.
Record t : Type := make {
  id : string;
  x : Q;
  y : Q;
  score : Z;
  color : string;
  inputs : list string       (* [inputs: []], the queue for inputs *)
}.

Definition set_x (v : Q) (p : t) : t :=
  make (id p) v (y p) (score p) (color p) (inputs p).
Definition set_y (v : Q) (p : t) : t :=
  make (id p) (x p) v (score p) (color p) (inputs p).
Definition set_score (v : Z) (p : t) : t :=
  make (id p) (x p) (y p) v (color p) (inputs p).
Definition set_inputs (v : list string) (p : t) : t :=
  make (id p) (x p) (y p) (score p) (color p) v.
End Player.

#[export] Instance Player_Body : Body Player.t := {
  body_x := Player.x;
  body_y := Player.y;
  score_incr := fun p => Player.set_score (Player.score p + 1)%Z p
}.

Definition Players : Type := list (string * Player.t).

Definition new_player (playerId color : string) : Player.t :=
  Player.make playerId (MAP_SIZE_width / 2) (MAP_SIZE_height / 2) 0%Z color [].

(** The body of the [try] block: a valid key is pushed on the queue. *)
Definition on_message (playerId : string) (message : Message)
    (PLAYERS : Players) : option Players :=
  match JSON_parse message with
  | None => None
  | Some data =>
      match prop data "type" with
      | None => None
      | Some type =>
          if is_string type "input" then
            match Dict.get playerId PLAYERS with
            | None => Some PLAYERS
            | Some p =>
                match prop data "key" with
                | Some key =>
                    if includes DIRECTIONS key
                    then Some (Dict.set playerId
                                 (Player.set_inputs
                                    (Player.inputs p ++ [Server.key_name key])
                                    p)
                                 PLAYERS)
                    else Some PLAYERS
                | None => None
                end
            end
          else Some PLAYERS
      end
  end.

(** One turn of [while (p.inputs.length > 0)], after the [shift]. *)
Definition apply_input (input : string) (p : Player.t) : Player.t :=
  let p := if String.eqb input "up"
           then Player.set_y (Player.y p - MOVEMENT_SPEED) p else p in
  let p := if String.eqb input "down"
           then Player.set_y (Player.y p + MOVEMENT_SPEED) p else p in
  let p := if String.eqb input "left"
           then Player.set_x (Player.x p - MOVEMENT_SPEED) p else p in
  let p := if String.eqb input "right"
           then Player.set_x (Player.x p + MOVEMENT_SPEED) p else p in
  let p := Player.set_x (clamp MAP_SIZE_width (Player.x p)) p in
  Player.set_y (clamp MAP_SIZE_height (Player.y p)) p.

(** The [while] loop, by recursion on the queue it empties. *)
Fixpoint drain (queue : list string) (p : Player.t) : Player.t :=
  match queue with
  | [] => Player.set_inputs [] p
  | input :: rest => drain rest (apply_input input (Player.set_inputs rest p))
  end.

Definition process_inputs (p : Player.t) : Player.t :=
  drain (Player.inputs p) p.

Section Loop.
Variable env : Env.

Fixpoint each_player (ps : Players) (pl : Pool) : Players * Pool :=
  match ps with
  | [] => ([], pl)
  | (k, p) :: rest =>
      let '(p', pl') := collisions env (process_inputs p) pl in
      let '(rest', pl'') := each_player rest pl' in
      ((k, p') :: rest', pl'')
  end.
End Loop.

(** [JSON.stringify] of a player object: every own property, in the order
    of the literal that created it. *)
Definition player_json (p : Player.t) : JSON :=
  JObj [ ("id", JStr (Player.id p));
         ("x", JNum (Player.x p));
         ("y", JNum (Player.y p));
         ("score", JNum (inject_Z (Player.score p)));
         ("color", JStr (Player.color p));
         ("inputs", JArr (map JStr (Player.inputs p))) ].

(** Step 3: [players: PLAYERS], the live objects themselves. *)
Definition gameState (PLAYERS : Players) (coins : list Coin.t) (now : Z)
    : JSON :=
  JObj [ ("players", JObj (map (fun kp => (fst kp, player_json (snd kp)))
                             PLAYERS));
         ("coins", JArr (map Server.coin_json coins));
         ("timestamp", JNum (inject_Z now)) ].

(** The packet one run of the interval callback hands to [setTimeout],
    with the players and the coins it leaves behind. *)
Definition tick (env : Env) (now : Z) (PLAYERS : Players) (pl : Pool)
    : Players * Pool * JSON :=
  let '(ps, pl') := each_player env PLAYERS pl in
  (ps, pl', Server.state_packet (gameState ps (COINS pl') now)).

(** The ['connection'] handler, as far as [PLAYERS] goes. *)
Definition connect (env : Env) (PLAYERS : Players) (pl : Pool)
    : Players * Pool :=
  let d := draws pl in
  let playerId := uuidv4 env (uuid_calls d) in
  let color := hsl env (Math_random env (random_calls d) * 360) in
  (Dict.set playerId (new_player playerId color) PLAYERS,
   {| COINS := COINS pl;
      draws := {| uuid_calls := S (uuid_calls d);
                  random_calls := S (random_calls d) |} |}).

End Legacy.

(** ** The client: snapshot buffer, interpolation, rendering *)

Module Client.

Definition RENDER_DELAY : Q := 100.

(** A player object inside a received snapshot. *)
Module Remote.
Record t : Type := make {
  id : string; x : Q; y : Q; score : Z; color : string
}.
End Remote.

(** What [render] reads of a player it draws. *)
Module Sprite.
Record t : Type := make { x : Q; y : Q; color : string; score : Z }.
End Sprite.

(** [msg.state] of a [state] message. *)
Module Snapshot.
Record t : Type := make {
  players : list (string * Remote.t);
  coins : list Coin.t;
  timestamp : Q
}.
End Snapshot.

(** What [getCurrentState] returns, as far as [render] reads it. *)
Module Frame.
Record t : Type := make {
  players : list (string * Sprite.t);
  coins : list Coin.t
}.
End Frame.

(** A snapshot object used as it is: [render] reads the same four
    properties of its players. *)
Definition snap (p : Remote.t) : Sprite.t :=
  Sprite.make (Remote.x p) (Remote.y p) (Remote.color p) (Remote.score p).

Definition as_frame (s : Snapshot.t) : Frame.t :=
  Frame.make (map (fun kp => (fst kp, snap (snd kp))) (Snapshot.players s))
    (Snapshot.coins s).

(** The [for] loop over [stateBuffer]: [prev] follows the snapshots that
    are not later than [renderTimestamp], the first later one is [next]. *)
Fixpoint scan (renderTimestamp : Q) (buffer : list Snapshot.t)
    (prev : option Snapshot.t) : option Snapshot.t * option Snapshot.t :=
  match buffer with
  | [] => (prev, None)
  | s :: rest =>
      if Qle_bool (Snapshot.timestamp s) renderTimestamp
      then scan renderTimestamp rest (Some s)
      else (prev, Some s)
  end.

(** [t = timeSincePrev / timeBetweenFrames] *)
Definition factor (prev next : Snapshot.t) (renderTimestamp : Q) : Q :=
  let timeBetweenFrames := Snapshot.timestamp next - Snapshot.timestamp prev in
  let timeSincePrev := renderTimestamp - Snapshot.timestamp prev in
  timeSincePrev / timeBetweenFrames.

(** The object stored in [interpolatedPlayers[id]]. *)
Definition lerp (pPrev : option Remote.t) (pNext : Remote.t) (t : Q)
    : Sprite.t :=
  match pPrev with
  | Some pPrev =>
      Sprite.make
        (Remote.x pPrev + (Remote.x pNext - Remote.x pPrev) * t)
        (Remote.y pPrev + (Remote.y pNext - Remote.y pPrev) * t)
        (Remote.color pNext)
        (Remote.score pNext)
  | None => snap pNext
  end.

(** The interpolating half of [getCurrentState]:
    [for (const id in next.players)] visits every key of [next.players]
    once and stores one object under it. *)
Definition interpolate (prev next : Snapshot.t) (renderTimestamp : Q)
    : Frame.t :=
  let t := factor prev next renderTimestamp in
  let interpolatedPlayers :=
    map (fun kp =>
           (fst kp,
            lerp (Dict.get (fst kp) (Snapshot.players prev)) (snd kp) t))
      (Snapshot.players next) in
  Frame.make interpolatedPlayers (Snapshot.coins next).

(** [stateBuffer[stateBuffer.length - 1]] *)
Definition latest (stateBuffer : list Snapshot.t) : option Snapshot.t :=
  nth_error stateBuffer (List.length stateBuffer - 1).

(** [function getCurrentState ()], with [Date.now ()] equal to [now];
    [None] is [undefined]. *)
Definition getCurrentState (now : Q) (stateBuffer : list Snapshot.t)
    : option Frame.t :=
  let renderTimestamp := now - RENDER_DELAY in
  match scan renderTimestamp stateBuffer None with
  | (Some prev, Some next) => Some (interpolate prev next renderTimestamp)
  | _ => option_map as_frame (latest stateBuffer)
  end.

(** The calls made on the 2d context, and the request for the next frame.
    [arc] draws the full circle ([0] to [Math.PI * 2]); [fillText] prints
    ["Score: "] followed by the score. *)
Inductive Canvas : Type :=
| clearRect (x y w h : Q)
| fillStyle (style : string)
| beginPath
| arc (x y radius : Q)
| fill
| fillRect (x y w h : Q)
| font (f : string)
| fillText (score : Z) (x y : Q)
| strokeStyle (style : string)
| lineWidth (w : Q)
| strokeRect (x y w h : Q)
| requestAnimationFrame.

Definition draw_coin (c : Coin.t) : list Canvas :=
  [ beginPath; arc (Coin.x c) (Coin.y c) 10; fill ].

(** [id === myId]; [myId] is [null] until the [init] message. *)
Definition is_me (myId : option string) (id : string) : bool :=
  match myId with
  | Some me => String.eqb id me
  | None => false
  end.

Definition draw_player (myId : option string) (kp : string * Sprite.t)
    : list Canvas :=
  let p := snd kp in
  [ fillStyle (Sprite.color p);
    fillRect (Sprite.x p - 10) (Sprite.y p - 10) 20 20;
    fillStyle "white";
    font "12px Arial";
    fillText (Sprite.score p) (Sprite.x p - 10) (Sprite.y p - 15) ]
  ++ (if is_me myId (fst kp)
      then [ strokeStyle "white"; lineWidth 2;
             strokeRect (Sprite.x p - 10) (Sprite.y p - 10) 20 20 ]
      else []).

Definition draw (myId : option string) (f : Frame.t) : list Canvas :=
  (fillStyle "gold" :: flat_map draw_coin (Frame.coins f))
  ++ flat_map (draw_player myId) (Frame.players f).

(** [function render ()] on a canvas of the given size. *)
Definition render (width height : Q) (myId : option string) (now : Q)
    (stateBuffer : list Snapshot.t) : list Canvas :=
  clearRect 0 0 width height ::
  (if Nat.ltb 1 (List.length stateBuffer)
   then match getCurrentState now stateBuffer with
        | Some interpolatedState => draw myId interpolatedState
        | None => []
        end
   else [])
  ++ [ requestAnimationFrame ].

(** The calls of a frame that put something on the canvas. *)
Definition paints (c : Canvas) : bool :=
  match c with
  | arc _ _ _ | fill | fillRect _ _ _ _ | fillText _ _ _
  | strokeRect _ _ _ _ => true
  | _ => false
  end.

(** What the key handlers send:
    [JSON.stringify ({ type: 'input', key: cmd, action })]. *)
Definition input_message (cmd action : string) : JSON :=
  JObj [ ("type", JStr "input"); ("key", JStr cmd); ("action", JStr action) ].

(** [function mapKeyToCmd (key)]; [None] is [null]. *)
Definition mapKeyToCmd (key : string) : option string :=
  if String.eqb key "w" || String.eqb key "ArrowUp" then Some "up"
  else if String.eqb key "s" || String.eqb key "ArrowDown" then Some "down"
  else if String.eqb key "a" || String.eqb key "ArrowLeft" then Some "left"
  else if String.eqb key "d" || String.eqb key "ArrowRight" then Some "right"
  else None.

(** [socket.onmessage] for a [state] message: push, then drop the oldest
    beyond twenty. *)
Definition on_state (state : Snapshot.t) (stateBuffer : list Snapshot.t)
    : list Snapshot.t :=
  let pushed := (stateBuffer ++ [state])%list in
  if Nat.ltb 20 (List.length pushed) then tl pushed else pushed.

End Client.

From Stdlib Require Import Permutation.

(** ** The client: what the browser delivers to its handlers *)

Module Browser.

(** A frame from the server, once [JSON.parse] has read it; the client
    relies on the server for the shape of [init] and [state] messages. *)
Inductive ServerMessage : Type :=
| Init (id : string)
| State (state : Client.Snapshot.t)
| Unknown.

(** The three variables of the script: [myId], [stateBuffer], [keys]. *)
Record Page : Type := make {
  myId : option string;
  stateBuffer : list Client.Snapshot.t;
  keys : list (string * bool)
}.

(** The page when the script has run: [null], [[]], [{}]. *)
Definition loaded : Page := make None [] [].

(** [socket.onmessage] *)
Definition onmessage (msg : ServerMessage) (pg : Page) : Page :=
  match msg with
  | Init id => make (Some id) (stateBuffer pg) (keys pg)
  | State state =>
      make (myId pg) (Client.on_state state (stateBuffer pg)) (keys pg)
  | Unknown => pg
  end.

(** [keys[k]] read as a condition; a missing property is [undefined]. *)
Definition held (k : string) (pg : Page) : bool :=
  match Dict.get k (keys pg) with
  | Some b => b
  | None => false
  end.

(** [cmd && myId]: a command is a non-empty literal, [null] and the empty
    string are falsy. *)
Definition may_send (cmd : option string) (pg : Page) : option string :=
  match cmd, myId pg with
  | Some c, Some id => if String.eqb id "" then None else Some c
  | _, _ => None
  end.

(** The [keydown] listener; the list holds the arguments of
    [socket.send], before [JSON.stringify]. *)
Definition keydown (k : string) (pg : Page) : Page * list JSON :=
  if held k pg then (pg, [])
  else
    let pg' := make (myId pg) (stateBuffer pg) (Dict.set k true (keys pg)) in
    match may_send (Client.mapKeyToCmd k) pg' with
    | Some cmd => (pg', [Client.input_message cmd "start"])
    | None => (pg', [])
    end.

(** The [keyup] listener. *)
Definition keyup (k : string) (pg : Page) : Page * list JSON :=
  if negb (held k pg) then (pg, [])
  else
    let pg' := make (myId pg) (stateBuffer pg) (Dict.set k false (keys pg)) in
    match may_send (Client.mapKeyToCmd k) pg' with
    | Some cmd => (pg', [Client.input_message cmd "stop"])
    | None => (pg', [])
    end.

(** What the user and the socket do to the page. *)
Inductive Action : Type :=
| KeyDown (k : string)
| KeyUp (k : string)
| Receive (msg : ServerMessage).

Definition act (pg : Page) (a : Action) : Page * list JSON :=
  match a with
  | KeyDown k => keydown k pg
  | KeyUp k => keyup k pg
  | Receive msg => (onmessage msg pg, [])
  end.

Fixpoint play (pg : Page) (acts : list Action) : Page * list JSON :=
  match acts with
  | [] => (pg, [])
  | a :: acts' =>
      let '(pg1, out1) := act pg a in
      let '(pg2, out2) := play pg1 acts' in
      (pg2, (out1 ++ out2)%list)
  end.

End Browser.

(** ** Reading a [state] packet back *)

(** The [players] object of a packet, with its keys. *)
Definition players_of (packet : JSON) : list (string * JSON) :=
  match prop packet "state" with
  | Some (Some state) =>
      match prop state "players" with
      | Some (Some (JObj members)) => members
      | _ => []
      end
  | _ => []
  end.

(** * Vocabulary of the properties *)

(** A position inside [[0, MAP_SIZE.width] x [0, MAP_SIZE.height]]. *)
Definition on_map (x y : Q) : Prop :=
  (0 <= x /\ x <= MAP_SIZE_width) /\ (0 <= y /\ y <= MAP_SIZE_height).

Definition all_on_map (ps : Server.Players) : Prop :=
  Forall (fun kp => on_map (Player.x (snd kp)) (Player.y (snd kp))) ps.

(** Two player objects that differ at most by their score. *)
Definition same_but_score (p p' : Player.t) : Prop :=
  p' = Player.set_score (Player.score p') p.

(** What every event of the server keeps true. *)
Definition steady (s : Server.State) : Prop :=
  all_on_map (Server.PLAYERS s) /\
  List.length (COINS (Server.pool s)) = 5%nat.

(** [q] is [p] with [n] more points and nothing else changed. *)
Definition gains (n : Z) (p q : Player.t) : Prop :=
  Player.score q = (Player.score p + n)%Z /\
  Player.id q = Player.id p /\
  Player.x q = Player.x p /\ Player.y q = Player.y p /\
  Player.color q = Player.color p /\
  Player.pressed q = Player.pressed p.

(** The coin [spawnCoin] makes after [u] reads of [uuidv4] and [r] reads of
    [Math.random]: a new id, and a centre in [[10, 790] x [10, 590]]. *)
Definition fresh_coin (env : Env) (u r : nat) : Coin.t :=
  Coin.make (uuidv4 env u)
    (Math_random env r * 780 + 10)
    (Math_random env (S r) * 580 + 10).

(** [pl'] is [pl] with the coin at index [i] taken out, the coins after
    it moved down by one place, and one new coin at the end. *)
Definition replaced (env : Env) (i : nat) (pl pl' : Pool) : Prop :=
  COINS pl' =
    (firstn i (COINS pl) ++ skipn (S i) (COINS pl) ++
     [fresh_coin env (uuid_calls (draws pl)) (random_calls (draws pl))])%list /\
  List.length (COINS pl') = List.length (COINS pl) /\
  uuid_calls (draws pl') = S (uuid_calls (draws pl)) /\
  random_calls (draws pl') = S (S (random_calls (draws pl))).

(** No coin but the one at index [i] is within reach of the player. *)
Definition others_out_of_reach (p : Player.t) (coins : list Coin.t) (i : nat)
    : Prop :=
  forall j c', j <> i -> nth_error coins j = Some c' ->
    Geometry.touches (Player.x p) (Player.y p) c' = false.

(** ** The delay mechanism *)

Definition ids (ts : list (nat * Server.Callback)) : list nat := map fst ts.

(** Release order is submission order: of two released payloads, the one
    handed to [setTimeout] first is released first. *)
Definition in_submission_order (out : list Server.Effect) : Prop :=
  forall a b,
    Server.before a b (Server.armed out) = true ->
    In a (Server.released out) -> In b (Server.released out) ->
    Server.before a b (Server.released out) = true.

(** The timer that fires, if it is armed at all, is the oldest one armed. *)
Definition fires_oldest (s : Server.State) (e : Server.Event) : bool :=
  match e with
  | Server.Expire t =>
      match Server.lookup t (Server.timers s), Server.timers s with
      | Some _, (t0, _) :: _ => Nat.eqb t t0
      | _, _ => true
      end
  | _ => true
  end.

(** A run in which timers fire in the order they were armed. *)
Fixpoint fifo (env : Env) (s : Server.State) (evs : list Server.Event) : bool :=
  match evs with
  | [] => true
  | e :: evs' => fires_oldest s e && fifo env (fst (Server.step env s e)) evs'
  end.

(** Armed timers have distinct numbers, all already handed out. *)
Definition timers_ok (s : Server.State) : Prop :=
  NoDup (ids (Server.timers s)) /\
  Forall (fun t => (t < Server.next_timer s)%nat) (ids (Server.timers s)).

(** ** Snapshot timestamps *)

(** The successive values of [Date.now ()] read by the game loop. *)
Fixpoint clock (evs : list Server.Event) : list Z :=
  match evs with
  | [] => []
  | Server.Tick now :: evs' => now :: clock evs'
  | _ :: evs' => clock evs'
  end.

(** The timestamps of the snapshots a run produced, in tick order. *)
Definition stamps (out : list Server.Effect) : list Q :=
  flat_map (fun packet => match Server.timestamp_of packet with
                          | Some n => [n]
                          | None => []
                          end)
    (Server.snapshots out).

(** Each later one is strictly greater than each earlier one. *)
Definition strictly_increasing (l : list Q) : Prop := StronglySorted Qlt l.

(** ** Inbound messages *)

(** [data.key] and [data.action] of a frame, when it parses. *)
Definition key_of (message : Message) : option JSON :=
  match JSON_parse message with
  | Some data => match prop data "key" with Some v => v | None => None end
  | None => None
  end.

Definition action_of (message : Message) : option JSON :=
  match JSON_parse message with
  | Some data => match prop data "action" with Some v => v | None => None end
  | None => None
  end.

Definition type_of (message : Message) : option JSON :=
  match JSON_parse message with
  | Some data => match prop data "type" with Some v => v | None => None end
  | None => None
  end.

Definition malformed (message : Message) : Prop := JSON_parse message = None.

Definition bad_key (message : Message) : Prop :=
  includes DIRECTIONS (key_of message) = false.

Definition bad_action (message : Message) : Prop :=
  is_string (action_of message) "start" || is_string (action_of message) "stop"
  = false.

(** The delayed handler of the message leaves the server as it was. *)
Definition dropped (playerId : string) (message : Message) (s : Server.State)
    : Prop :=
  fst (Server.run_callback (Server.HandleMessage playerId message) s) = s.

(** The step a direction stands for: five units along one axis, the
    ordinate growing downwards. *)
Definition step_of (key : string) : Q * Q :=
  if String.eqb key "up" then (0, - (5))
  else if String.eqb key "down" then (0, 5)
  else if String.eqb key "left" then (- (5), 0)
  else if String.eqb key "right" then (5, 0)
  else (0, 0).

(** [p'] is [p] moved by the step of [key] and brought back into
    [[0, 800] x [0, 600]]; nothing else of it differs. *)
Definition one_step (key : string) (p p' : Player.t) : Prop :=
  Player.x p' == Qmax 0 (Qmin 800 (Player.x p + fst (step_of key))) /\
  Player.y p' == Qmax 0 (Qmin 600 (Player.y p + snd (step_of key))) /\
  Player.pressed p' = Player.pressed p /\
  Player.score p' = Player.score p /\
  Player.id p' = Player.id p /\
  Player.color p' = Player.color p.

(** The server [s'] differs from [s] by the player stored under
    [playerId] at most. *)
Definition same_but_player (playerId : string) (s s' : Server.State) : Prop :=
  Dict.keys (Server.PLAYERS s') = Dict.keys (Server.PLAYERS s) /\
  (forall k, k <> playerId ->
     Dict.get k (Server.PLAYERS s') = Dict.get k (Server.PLAYERS s)) /\
  Server.pool s' = Server.pool s /\
  Server.clients s' = Server.clients s /\
  Server.closing s' = Server.closing s /\
  Server.timers s' = Server.timers s.

(** The delayed handler of the message makes the sender's player take one
    step of five units in the direction of the key, at once, clamped to the
    map, and changes nothing else: not the player's pressed-state or
    score, no other player, no coin, no socket, no timer. *)
Definition stepped_once (playerId : string) (message : Message)
    (s : Server.State) : Prop :=
  exists p key p',
    Dict.get playerId (Server.PLAYERS s) = Some p /\
    key_of message = Some (JStr key) /\ In key DIRECTIONS /\
    let s' :=
      fst (Server.run_callback (Server.HandleMessage playerId message) s) in
    Dict.get playerId (Server.PLAYERS s') = Some p' /\
    one_step key p p' /\
    same_but_player playerId s s'.

(** An [input] frame with a valid key, from a player still in [PLAYERS]. *)
Definition addressed (playerId : string) (message : Message)
    (s : Server.State) : bool :=
  is_string (type_of message) "input" &&
  includes DIRECTIONS (key_of message) &&
  match Dict.get playerId (Server.PLAYERS s) with
  | Some _ => true
  | None => false
  end.

(** A [start] and then a [stop] for one direction, nothing in between,
    leave the pressed-state of the player as it was. *)
Definition pair_is_noop (playerId d : string) (ps : Server.Players) : Prop :=
  forall ps1 ps2,
    Server.on_message playerId (Text (Client.input_message d "start")) ps
      = Some ps1 ->
    Server.on_message playerId (Text (Client.input_message d "stop")) ps1
      = Some ps2 ->
    option_map Player.pressed (Dict.get playerId ps2) =
    option_map Player.pressed (Dict.get playerId ps).

(** ** Snapshots on the wire and on the client *)

Definition VIEW_FIELDS : list string := ["id"; "x"; "y"; "score"; "color"].

(** Every per-player object of the packet has exactly the five fields. *)
Definition sanitized (packet : JSON) : Prop :=
  Forall (fun view => Server.fields view = VIEW_FIELDS)
    (Server.views_of packet).

(** The packets a run wrote to sockets, in order. *)
Fixpoint sent (out : list Server.Effect) : list JSON :=
  match out with
  | [] => []
  | Server.Sent _ packet :: out' => packet :: sent out'
  | _ :: out' => sent out'
  end.

(** No [state] packet waiting in a timer carries more than the five
    fields. *)
Definition timers_sanitized (s : Server.State) : Prop :=
  Forall (fun e => match snd e with
                   | Server.Broadcast packet => sanitized packet
                   | _ => True
                   end)
    (Server.timers s).

(** [(x, y)] is the point of the segment from [a] to [b] at parameter [t]. *)
Definition on_segment (t : Q) (a b : Client.Remote.t) (x y : Q) : Prop :=
  x == (1 - t) * Client.Remote.x a + t * Client.Remote.x b /\
  y == (1 - t) * Client.Remote.y a + t * Client.Remote.y b.

(** ** Sample data *)

Module Sample.
(** An environment: ids ["a"], ["b"], ...; random numbers [1/3], [1/4],
    ..., which put the first coins away from the centre of the map. *)
Definition env : Env := {|
  uuidv4 := fun n => String (Ascii.ascii_of_nat (97 + n)) EmptyString;
  Math_random := fun n => 1 # Pos.of_nat (n + 3);
  hsl := fun _ => "hsl(180, 70%, 50%)"
|}.

Definition input (key action : string) : Message :=
  Text (Client.input_message key action).

(** A single-shot input of the earlier protocol: no [action]. *)
Definition keystroke (key : string) : Message :=
  Text (JObj [ ("type", JStr "input"); ("key", JStr key) ]).

(** A player in the middle of the map. *)
Definition player : Player.t := Server.new_player "p" "red".

Definition coin_at (x y : Q) : Coin.t := Coin.make "c" x y.

Definition pool_of (coins : list Coin.t) : Pool :=
  {| COINS := coins; draws := no_draws |}.

(** The server with one client connected; its player is ["f"]. *)
Definition lobby : Server.State :=
  fst (Server.run env (Server.start env) [Server.Connection]).

(** Three coins on the row of the player: 29 and 31 to its right, and
    one far away. *)
Definition near : Coin.t := coin_at 429 300.
Definition far : Coin.t := coin_at 431 300.
Definition remote : Coin.t := coin_at 100 100.

(** Two snapshots fifty milliseconds apart: the player moves from
    [(100, 300)] to [(110, 300)] and a coin is on the map. *)
Definition earlier : Client.Snapshot.t :=
  Client.Snapshot.make
    [("p", Client.Remote.make "p" 100 300 0 "red")]
    [coin_at 50 60] 1000.

Definition later : Client.Snapshot.t :=
  Client.Snapshot.make
    [("p", Client.Remote.make "p" 110 300 0 "red")]
    [coin_at 50 60] 1050.

(** The same server once the client's [start] for [up] has been handled
    (say for the [w] key): the player holds [up]. *)
Definition held : Server.State :=
  fst (Server.run env (Server.start env)
         [ Server.Connection;
           Server.Incoming 0%nat (input "up" "start");
           Server.Expire 1 ]).

(** Scenario A: the client holds [up] and the loop ticks once. *)
Definition one_tick_up : list Server.Event :=
  [ Server.Connection;
    Server.Incoming 0%nat (input "up" "start");
    Server.Expire 1;
    Server.Tick 1000 ].

(** One client presses and releases [up]; the second timer armed for it
    fires before the first. *)
Definition jittered : list Server.Event :=
  [ Server.Connection;
    Server.Incoming 0%nat (input "up" "start");
    Server.Incoming 0%nat (input "up" "stop");
    Server.Expire 2; Server.Expire 1 ].

(** Two ticks within one millisecond of the wall clock. *)
Definition stalled_clock : list Server.Event :=
  [ Server.Connection; Server.Tick 1000; Server.Tick 1000 ].

(** Two ticks fifty milliseconds apart. *)
Definition steady_clock : list Server.Event :=
  [ Server.Connection; Server.Tick 1000; Server.Tick 1050 ].

(** The same messages and a tick, every timer firing in its turn. *)
Definition in_turn : list Server.Event :=
  [ Server.Connection;
    Server.Incoming 0%nat (input "up" "start");
    Server.Expire 0;
    Server.Incoming 0%nat (input "up" "stop");
    Server.Tick 1000;
    Server.Expire 1; Server.Expire 2; Server.Expire 3 ].
End Sample.

(** * Vocabulary of further properties *)

(** The coins within reach of a position, and the others, in array order. *)
Definition within_reach (px py : Q) (coins : list Coin.t) : list Coin.t :=
  filter (Geometry.touches px py) coins.

Definition out_of_reach (px py : Q) (coins : list Coin.t) : list Coin.t :=
  filter (fun c => negb (Geometry.touches px py c)) coins.

(** The coins that [k] calls of [spawnCoin] make, one after the other,
    after [u] reads of [uuidv4] and [r] reads of [Math.random]. *)
Definition fresh_coins (env : Env) (u r k : nat) : list Coin.t :=
  map (fun j => fresh_coin env (u + j) (r + 2 * j)) (seq 0 k).

(** The random source only returns numbers of [[0, 1)]. *)
Definition fair (env : Env) : Prop :=
  forall n, 0 <= Math_random env n /\ Math_random env n < 1.

(** A coin at least its radius away from every wall. *)
Definition in_margin (c : Coin.t) : Prop :=
  (10 <= Coin.x c /\ Coin.x c < MAP_SIZE_width - 10) /\
  (10 <= Coin.y c /\ Coin.y c < MAP_SIZE_height - 10).

(** The step a held key stands for. *)
Definition pace (held : bool) : Q := if held then MOVEMENT_SPEED else 0.

(** At least one step away from the walls on an axis of length [hi]. *)
Definition inside (hi v : Q) : Prop :=
  MOVEMENT_SPEED <= v /\ v <= hi - MOVEMENT_SPEED.

(** A player stored under its own id, with a score that is not negative. *)
Definition entry_ok (kp : string * Player.t) : Prop :=
  Player.id (snd kp) = fst kp /\ (0 <= Player.score (snd kp))%Z.

(** Who is in the world: every player is a well-formed entry and belongs
    to a socket of [wss.clients]; sockets have distinct numbers, all handed
    out. *)
Definition world_ok (s : Server.State) : Prop :=
  Forall entry_ok (Server.PLAYERS s) /\
  (forall k, In k (Dict.keys (Server.PLAYERS s)) ->
             In k (map snd (Server.clients s))) /\
  NoDup (map fst (Server.clients s)) /\
  Forall (fun ws => (ws < Server.next_conn s)%nat)
    (map fst (Server.clients s)).

(** The sockets a broadcast writes to: those of [wss.clients] that are
    [OPEN], in the order of the set. *)
Definition open_sockets (s : Server.State) : list ConnId :=
  filter (fun ws => match Server.readyState ws s with
                    | Server.OPEN => true
                    | _ => false
                    end)
    (map fst (Server.clients s)).

(** No snapshot of the run shows a player under the id [k]. *)
Definition absent_from_snapshots (k : string) (out : list Server.Effect)
    : Prop :=
  Forall (fun packet => Dict.get k (players_of packet) = None)
    (Server.snapshots out).

(** ** The earlier server *)

Definition legacy_on_map (ps : Legacy.Players) : Prop :=
  Forall (fun kp => on_map (Legacy.Player.x (snd kp))
                      (Legacy.Player.y (snd kp))) ps.

Definition queues_empty (ps : Legacy.Players) : Prop :=
  Forall (fun kp => Legacy.Player.inputs (snd kp) = []) ps.

(** The steps of a queue, one after the other. *)
Definition legacy_steps (queue : list string) (p : Legacy.Player.t)
    : Legacy.Player.t :=
  fold_left (fun q input => Legacy.apply_input input q) queue p.

(** Where a queue of inputs takes a point: each input, in the order of
    the queue, is one step of five units followed by the boundary check. *)
Definition walk (queue : list string) (xy : Q * Q) : Q * Q :=
  fold_left
    (fun xy input =>
       (Qmax 0 (Qmin 800 (fst xy + fst (step_of input))),
        Qmax 0 (Qmin 600 (snd xy + snd (step_of input)))))
    queue xy.

(** ** The client *)

(** The snapshots a page received, in the order of arrival. *)
Fixpoint received (acts : list Browser.Action) : list Client.Snapshot.t :=
  match acts with
  | [] => []
  | Browser.Receive (Browser.State state) :: acts' => state :: received acts'
  | _ :: acts' => received acts'
  end.

(** The last [n] elements of a list. *)
Definition newest {A : Type} (n : nat) (l : list A) : list A :=
  skipn (List.length l - n) l.

(** Not later, and later, than the render time. *)
Definition old (target : Q) (s : Client.Snapshot.t) : Prop :=
  Client.Snapshot.timestamp s <= target.

Definition fresh (target : Q) (s : Client.Snapshot.t) : Prop :=
  target < Client.Snapshot.timestamp s.

(** Snapshots in the order of their timestamps. *)
Definition by_timestamp (buffer : list Client.Snapshot.t) : Prop :=
  StronglySorted
    (fun a b => Client.Snapshot.timestamp a <= Client.Snapshot.timestamp b)
    buffer.

(** A frame the page may send: an intent for one of the four directions. *)
Definition is_intent (m : JSON) (cmd action : string) : Prop :=
  m = Client.input_message cmd action /\ In cmd DIRECTIONS /\
  (action = "start" \/ action = "stop").

(** The page has not been told its id. *)
Fixpoint no_init (acts : list Browser.Action) : bool :=
  match acts with
  | [] => true
  | Browser.Receive (Browser.Init _) :: _ => false
  | _ :: acts' => no_init acts'
  end.

Definition is_arc (c : Client.Canvas) : bool :=
  match c with Client.arc _ _ _ => true | _ => false end.

Definition is_fillRect (c : Client.Canvas) : bool :=
  match c with Client.fillRect _ _ _ _ => true | _ => false end.

Definition is_strokeRect (c : Client.Canvas) : bool :=
  match c with Client.strokeRect _ _ _ _ => true | _ => false end.

Module Sample2.
(** An environment whose random numbers are all [1/2]. *)
Definition even_env : Env := {|
  uuidv4 := fun n => String (Ascii.ascii_of_nat (97 + n)) EmptyString;
  Math_random := fun _ => 1 # 2;
  hsl := fun _ => "hsl(180, 70%, 50%)"
|}.

(** A player in the middle of the map running up and to the left, and
    a server whose only player it is. *)
Definition runner : Player.t :=
  Player.make "f" 400 300 0 "red" (Pressed.make true false true false).

Definition running : Server.State :=
  Server.with_players [("f", runner)] Sample.lobby.

(** The client of [Sample.held] leaves; two ticks and its pending timers
    follow. *)
Definition after_leaving : list Server.Event :=
  [ Server.Tick 1000; Server.Expire 0; Server.Tick 1050; Server.Expire 2 ].

(** Two clients connect; the socket of the first starts closing. *)
Definition half_closed : list Server.Event :=
  [ Server.Connection; Server.Connection; Server.Closing 0%nat ].

(** After a tick of [Sample.held]: a second client connects, the loop
    ticks again and the player moves on, and the first socket starts
    closing. *)
Definition meanwhile : list Server.Event :=
  [ Server.Connection; Server.Tick 1050; Server.Closing 0%nat ].

(** A player of the earlier server, in the middle of the map, with four
    inputs waiting. *)
Definition hasty : Legacy.Player.t :=
  Legacy.Player.set_inputs ["up"; "up"; "up"; "left"]
    (Legacy.new_player "p" "red").

(** A player of the earlier server with three [up] inputs waiting. *)
Definition climber : Legacy.Player.t :=
  Legacy.Player.set_inputs ["up"; "up"; "up"] (Legacy.new_player "p" "red").

(** A page that received its id, the two sample snapshots, and a third
    one fifty milliseconds later. *)
Definition latest_one : Client.Snapshot.t :=
  Client.Snapshot.make
    [("p", Client.Remote.make "p" 120 300 1 "red");
     ("q", Client.Remote.make "q" 400 300 0 "blue")]
    [Sample.coin_at 70 80] 1100.

Definition three : list Client.Snapshot.t :=
  [Sample.earlier; Sample.later; latest_one].

(** A page that knows its id and holds no key. *)
Definition ready : Browser.Page := Browser.make (Some "f") [] [].
End Sample2.

(** * Properties *)

(** ** Numbers *)

Lemma ltb_lt (a b : Q) : ltb a b = true <-> a < b.
Proof.
  unfold ltb. rewrite negb_true_iff.
  destruct (Qle_bool b a) eqn:E.
  - apply Qle_bool_iff in E. split; [discriminate | intro H].
    exfalso. apply (Qlt_not_le _ _ H E).
  - split; [intros _ | reflexivity].
    apply Qnot_le_lt. intro H. apply Qle_bool_iff in H. congruence.
Qed.

Lemma ltb_ge (a b : Q) : ltb a b = false <-> b <= a.
Proof.
  unfold ltb. rewrite negb_false_iff. apply Qle_bool_iff.
Qed.

Lemma clamp_bounds (hi v : Q) : 0 <= hi -> 0 <= clamp hi v /\ clamp hi v <= hi.
Proof.
  intro Hhi. unfold clamp, Math_max, Math_min. split.
  - apply Q.le_max_l.
  - apply Q.max_lub; [exact Hhi | apply Q.le_min_l].
Qed.

Lemma clamp_inside (hi v : Q) : 0 <= v -> v <= hi -> clamp hi v == v.
Proof.
  intros H0 H1. unfold clamp, Math_max, Math_min.
  rewrite (Q.min_r hi v H1). apply Q.max_r. exact H0.
Qed.

Lemma clamp_on_map (x y : Q) :
  on_map (clamp MAP_SIZE_width x) (clamp MAP_SIZE_height y).
Proof.
  split; apply clamp_bounds; discriminate.
Qed.

(** ** Association lists *)

Section DictFacts.
Context {A : Type}.
Implicit Types (d : list (string * A)) (k : string).

Lemma Forall_set (Q : string * A -> Prop) k (v : A) d :
  (forall k', Q (k', v)) -> Forall Q d -> Forall Q (Dict.set k v d).
Proof.
  intros Hv. induction 1 as [|[k' v'] d' Hx Hd IH]; cbn [Dict.set].
  - constructor; [apply Hv | constructor].
  - destruct (String.eqb k k'); constructor; auto.
Qed.

Lemma Forall_remove (Q : string * A -> Prop) k d :
  Forall Q d -> Forall Q (Dict.remove k d).
Proof.
  induction 1 as [|[k' v'] d' Hx Hd IH]; cbn [Dict.remove].
  - constructor.
  - destruct (String.eqb k k'); [exact IH | constructor; auto].
Qed.

Lemma get_In k d (v : A) : Dict.get k d = Some v -> In (k, v) d.
Proof.
  induction d as [|[k' v'] d' IH]; cbn [Dict.get]; [discriminate|].
  destruct (String.eqb k k') eqn:E.
  - apply String.eqb_eq in E. intros [= ->]. left. congruence.
  - intro H. right. exact (IH H).
Qed.

(** Writing back what is already there changes nothing. *)
Lemma set_same k d (v : A) : Dict.get k d = Some v -> Dict.set k v d = d.
Proof.
  induction d as [|[k' v'] d' IH]; cbn [Dict.get Dict.set]; [discriminate|].
  destruct (String.eqb k k') eqn:E.
  - intros [= ->]. reflexivity.
  - intro H. now rewrite (IH H).
Qed.

Lemma get_set_same k d (v : A) : Dict.get k (Dict.set k v d) = Some v.
Proof.
  induction d as [|[k' v'] d' IH]; cbn [Dict.get Dict.set].
  - now rewrite String.eqb_refl.
  - destruct (String.eqb k k') eqn:E; cbn [Dict.get]; rewrite E; auto.
Qed.

Lemma set_set k d (v w : A) : Dict.set k w (Dict.set k v d) = Dict.set k w d.
Proof.
  induction d as [|[k' v'] d' IH]; cbn [Dict.set].
  - now rewrite String.eqb_refl.
  - destruct (String.eqb k k') eqn:E; cbn [Dict.set]; rewrite E;
      [reflexivity | now rewrite IH].
Qed.
End DictFacts.

(** ** The coin array keeps its length *)

Lemma splice1_length {A : Type} (i : nat) (l : list A) :
  (i < List.length l)%nat -> List.length (splice1 i l) = (List.length l - 1)%nat.
Proof.
  intro Hi. unfold splice1.
  rewrite length_app, length_firstn, length_skipn. lia.
Qed.

(** Below the removed index the array is what it was, also after a push. *)
Lemma splice1_below {A : Type} (i j : nat) (l tail : list A) :
  (j < i)%nat -> (i < List.length l)%nat ->
  nth_error (splice1 i l ++ tail) j = nth_error l j.
Proof.
  intros Hj Hi. unfold splice1.
  rewrite <- app_assoc, nth_error_app1 by (rewrite length_firstn; lia).
  rewrite nth_error_firstn.
  destruct (Nat.ltb_spec j i); [reflexivity | lia].
Qed.

Section PoolFacts.
Variable env : Env.

Lemma spawnCoin_length (pl : Pool) :
  List.length (COINS (spawnCoin env pl)) = S (List.length (COINS pl)).
Proof.
  unfold spawnCoin; cbn [COINS]. rewrite length_app; cbn [List.length]. lia.
Qed.

Lemma initial_pool_length : List.length (COINS (initial_pool env)) = 5%nat.
Proof. reflexivity. Qed.

Context {P : Type} `{Body P}.

(** Every pass of the loop reads an index that exists. *)
Lemma collide_at_in_range (i : nat) (p : P) (pl : Pool) :
  (i < List.length (COINS pl))%nat ->
  exists c, nth_error (COINS pl) i = Some c /\
    collide_at env i p pl =
      if Geometry.touches (body_x p) (body_y p) c
      then (score_incr p,
            spawnCoin env {| COINS := splice1 i (COINS pl); draws := draws pl |})
      else (p, pl).
Proof.
  intro Hi. destruct (nth_error (COINS pl) i) as [c|] eqn:E.
  - exists c. split; [reflexivity|]. unfold collide_at. now rewrite E.
  - apply nth_error_None in E. lia.
Qed.

Lemma collide_at_length (i : nat) (p : P) (pl : Pool) :
  List.length (COINS (snd (collide_at env i p pl))) = List.length (COINS pl).
Proof.
  unfold collide_at. destruct (nth_error (COINS pl) i) as [c|] eqn:E;
    [|reflexivity].
  destruct (Geometry.touches _ _ c); [|reflexivity].
  cbn [snd]. rewrite spawnCoin_length; cbn [COINS].
  assert (i < List.length (COINS pl))%nat
    by (apply nth_error_Some; congruence).
  rewrite splice1_length; lia.
Qed.

Lemma collect_length (n : nat) (p : P) (pl : Pool) :
  List.length (COINS (snd (collect env n p pl))) = List.length (COINS pl).
Proof.
  revert p pl. induction n as [|i IH]; intros p pl; cbn [collect].
  - reflexivity.
  - pose proof (collide_at_length i p pl) as Hl.
    destruct (collide_at env i p pl) as [p' pl']. cbn [snd] in Hl.
    now rewrite IH.
Qed.

Lemma collisions_length (p : P) (pl : Pool) :
  List.length (COINS (snd (collisions env p pl))) = List.length (COINS pl).
Proof. apply collect_length. Qed.
End PoolFacts.

(** The loop changes nothing of a player but the score, which never drops. *)
Lemma collect_same_but_score (env : Env) (n : nat) (p : Player.t) (pl : Pool) :
  same_but_score p (fst (collect env n p pl)) /\
  (Player.score p <= Player.score (fst (collect env n p pl)))%Z.
Proof.
  revert p pl. induction n as [|i IH]; intros p pl; cbn [collect].
  - cbn [fst]. split; [destruct p; reflexivity | lia].
  - unfold collide_at.
    destruct (nth_error (COINS pl) i) as [c|]; [|apply IH].
    destruct (Geometry.touches _ _ c); [|apply IH].
    match goal with |- context [collect env i ?q ?l] =>
      destruct (IH q l) as [Hs Hle]; set (r := collect env i q l) in * end.
    cbn [score_incr Player_Body] in *.
    split.
    + unfold same_but_score in *. rewrite Hs at 1. destruct p; reflexivity.
    + cbn [Player.score Player.set_score] in Hle. lia.
Qed.

Lemma collisions_position (env : Env) (p : Player.t) (pl : Pool) :
  Player.x (fst (collisions env p pl)) = Player.x p /\
  Player.y (fst (collisions env p pl)) = Player.y p.
Proof.
  destruct (collect_same_but_score env (List.length (COINS pl)) p pl) as [Hs _].
  unfold collisions. unfold same_but_score in Hs. rewrite Hs.
  destruct p; split; reflexivity.
Qed.

(** ** The server keeps every player on the map and five coins in play *)

Lemma move_on_map (p : Player.t) :
  on_map (Player.x (Server.move p)) (Player.y (Server.move p)).
Proof.
  unfold Server.move. cbn [Player.x Player.y Player.set_x Player.set_y].
  apply clamp_on_map.
Qed.

Lemma single_shot_on_map (key : option JSON) (p : Player.t) :
  on_map (Player.x (Server.single_shot key p))
         (Player.y (Server.single_shot key p)).
Proof.
  unfold Server.single_shot. cbn [Player.x Player.y Player.set_x Player.set_y].
  apply clamp_on_map.
Qed.

Lemma new_player_on_map (playerId color : string) :
  on_map (Player.x (Server.new_player playerId color))
         (Player.y (Server.new_player playerId color)).
Proof.
  unfold on_map, Server.new_player, MAP_SIZE_width, MAP_SIZE_height.
  cbn [Player.x Player.y]. repeat split; discriminate.
Qed.

Section ServerInvariants.
Variable env : Env.

(** The game loop leaves every player on the map, wherever it was. *)
Lemma each_player_on_map (ps : Server.Players) (pl : Pool) :
  all_on_map (fst (Server.each_player env ps pl)).
Proof.
  revert pl. induction ps as [|[k p] rest IH]; intro pl;
    cbn [Server.each_player].
  - constructor.
  - pose proof (collisions_position env (Server.move p) pl) as [Hx Hy].
    destruct (collisions env (Server.move p) pl) as [p' pl'].
    specialize (IH pl').
    destruct (Server.each_player env rest pl') as [rest' pl''].
    cbn [fst] in *. constructor; [|exact IH].
    cbn [snd]. rewrite Hx, Hy. apply move_on_map.
Qed.

Lemma each_player_length (ps : Server.Players) (pl : Pool) :
  List.length (COINS (snd (Server.each_player env ps pl))) =
  List.length (COINS pl).
Proof.
  revert pl. induction ps as [|[k p] rest IH]; intro pl;
    cbn [Server.each_player].
  - reflexivity.
  - pose proof (collisions_length env (Server.move p) pl) as Hl.
    destruct (collisions env (Server.move p) pl) as [p' pl'].
    specialize (IH pl').
    destruct (Server.each_player env rest pl') as [rest' pl''].
    cbn [snd] in *. congruence.
Qed.

Lemma on_message_on_map (playerId : string) (message : Message)
    (ps ps' : Server.Players) :
  Server.on_message playerId message ps = Some ps' ->
  all_on_map ps -> all_on_map ps'.
Proof.
  unfold Server.on_message. intros Hm Hps.
  destruct (JSON_parse message) as [data|]; [|discriminate].
  destruct (prop data "type") as [type|]; [|discriminate].
  destruct (is_string type "input"); [|congruence].
  destruct (Dict.get playerId ps) as [p|] eqn:Hp; [|congruence].
  destruct (prop data "key") as [key|]; [|discriminate].
  destruct (prop data "action") as [action|]; [|discriminate].
  apply get_In in Hp.
  assert (Hin : on_map (Player.x p) (Player.y p)).
  { unfold all_on_map in Hps. rewrite Forall_forall in Hps.
    exact (Hps _ Hp). }
  destruct (includes DIRECTIONS key &&
            (is_string action "start" || is_string action "stop")).
  - injection Hm as Hm; subst ps'. apply Forall_set; [|exact Hps].
    intro k0. exact Hin.
  - destruct (includes DIRECTIONS key); [|congruence].
    injection Hm as Hm; subst ps'. apply Forall_set; [|exact Hps].
    intro k0. apply single_shot_on_map.
Qed.

Lemma run_callback_steady (cb : Server.Callback) (s : Server.State) :
  steady s -> steady (fst (Server.run_callback cb s)).
Proof.
  intros [Hm Hc]. destruct cb as [ws pid | pid message | packet];
    cbn [Server.run_callback].
  - destruct (Server.is_open s ws); split; assumption.
  - destruct (Server.on_message pid message (Server.PLAYERS s)) as [ps|] eqn:E.
    + split; [|exact Hc]. exact (on_message_on_map _ _ _ _ E Hm).
    + split; assumption.
  - split; assumption.
Qed.

Lemma step_steady (s : Server.State) (e : Server.Event) :
  steady s -> steady (fst (Server.step env s e)).
Proof.
  intros [Hm Hc]. destruct e as [| ws message | ws | now | timer | ws];
    cbn [Server.step].
  - (* Connection *)
    split; [|exact Hc]. cbn. apply Forall_set; [|exact Hm].
    intro k0. apply new_player_on_map.
  - (* Incoming *)
    unfold Server.on_incoming.
    destruct (Server.lookup ws (Server.clients s)); split; assumption.
  - (* Closed *)
    unfold Server.on_close.
    destruct (Server.lookup ws (Server.clients s)); cbn;
      split; try assumption.
    now apply Forall_remove.
  - (* Tick *)
    unfold Server.on_tick.
    pose proof (each_player_on_map (Server.PLAYERS s) (Server.pool s)) as H1.
    pose proof (each_player_length (Server.PLAYERS s) (Server.pool s)) as H2.
    destruct (Server.each_player env (Server.PLAYERS s) (Server.pool s))
      as [ps pl]. unfold steady, Server.setTimeout.
    cbn [fst snd Server.PLAYERS Server.pool] in *.
    split; [exact H1 | now rewrite H2].
  - (* Expire *)
    unfold Server.on_expire.
    destruct (Server.lookup timer (Server.timers s)) as [cb|];
      [|split; assumption].
    match goal with |- context [Server.run_callback cb ?s1] =>
      pose proof (run_callback_steady cb s1 (conj Hm Hc)) as Hr;
      destruct (Server.run_callback cb s1) as [s' out] end.
    exact Hr.
  - (* Closing *)
    unfold Server.on_closing.
    destruct (Server.lookup ws (Server.clients s)); split; assumption.
Qed.

Lemma run_steady (evs : list Server.Event) (s : Server.State) :
  steady s -> steady (fst (Server.run env s evs)).
Proof.
  revert s. induction evs as [|e evs IH]; intros s Hs; cbn [Server.run].
  - exact Hs.
  - pose proof (step_steady s e Hs) as H1.
    destruct (Server.step env s e) as [s1 out1].
    specialize (IH s1 H1).
    destruct (Server.run env s1 evs) as [s2 out2]. exact IH.
Qed.

Lemma start_steady : steady (Server.start env).
Proof. split; [constructor | reflexivity]. Qed.
End ServerInvariants.

(** Scenario A: from [(400, 300)], one tick with [up] held leads to
    [(400, 295)]. *)
Lemma one_tick_up_moves_five :
  map (fun kp => (Qred (Player.x (snd kp)), Qred (Player.y (snd kp))))
    (Server.PLAYERS
       (fst (Server.run Sample.env (Server.start Sample.env)
               Sample.one_tick_up)))
  = [(400, 295)].
Proof. reflexivity. Qed.

(** C2. Whatever the clients send and whenever the timers fire, every player
    of the server is inside [[0, 800] x [0, 600]]: in every state the
    server reaches, so in particular after every tick; and the tick alone
    puts every player there, from any state whatever. *)
Theorem players_stay_on_map (env : Env) (evs : list Server.Event) :
  all_on_map (Server.PLAYERS (fst (Server.run env (Server.start env) evs))) /\
  forall (s : Server.State) (now : Z),
    all_on_map (Server.PLAYERS (fst (Server.on_tick env now s))).
Proof.
  split.
  - apply (run_steady env evs), start_steady.
  - intros s now. unfold Server.on_tick.
    pose proof (each_player_on_map env (Server.PLAYERS s) (Server.pool s)) as H.
    destruct (Server.each_player env (Server.PLAYERS s) (Server.pool s))
      as [ps pl]. exact H.
Qed.

(** C3. In every state the server reaches there are exactly five coins:
    the collision loop pushes one coin for each coin it splices out. *)
Theorem coin_count_constant (env : Env) (evs : list Server.Event) :
  List.length
    (COINS (Server.pool (fst (Server.run env (Server.start env) evs)))) = 5%nat
  /\
  forall (p : Player.t) (pl : Pool),
    List.length (COINS (snd (collisions env p pl))) = List.length (COINS pl).
Proof.
  split.
  - apply (run_steady env evs), start_steady.
  - intros p pl. apply collisions_length.
Qed.

(** ** The collision test, over the reals *)

Lemma dist2_nonneg (px py : Q) (c : Coin.t) : 0 <= Geometry.dist2 px py c.
Proof.
  unfold Geometry.dist2.
  set (dx := px - Coin.x c). set (dy := py - Coin.y c).
  assert (0 <= dx * dx) by nra. assert (0 <= dy * dy) by nra. lra.
Qed.

Lemma reach_30 : Q2R Geometry.reach = 30%R.
Proof.
  unfold Geometry.reach, PLAYER_SIZE, COIN_SIZE.
  rewrite Q2R_plus. unfold Q2R; cbn. Lra.lra.
Qed.

(** The test of the source, [Math.sqrt (dx * dx + dy * dy) < 30], and the
    test on squares are the same test. *)
Lemma sqrt_test (px py : Q) (c : Coin.t) :
  Geometry.touches px py c = true <->
  (Geometry.dist px py c < Q2R (PLAYER_SIZE + COIN_SIZE))%R.
Proof.
  fold Geometry.reach. unfold Geometry.touches, Geometry.dist.
  rewrite ltb_lt.
  assert (H0 : (0 <= Q2R (Geometry.dist2 px py c))%R).
  { rewrite <- RMicromega.Q2R_0. apply Qle_Rle, dist2_nonneg. }
  assert (Hr : (0 <= Q2R Geometry.reach)%R) by (rewrite reach_30; Lra.lra).
  rewrite <- (sqrt_square (Q2R Geometry.reach)) by exact Hr.
  rewrite <- Q2R_mult.
  assert (H1 : (0 <= Q2R (Geometry.reach * Geometry.reach))%R).
  { rewrite Q2R_mult. apply Rmult_le_pos; exact Hr. }
  split; intro H.
  - apply sqrt_lt_1; [exact H0 | exact H1 | now apply Qlt_Rlt].
  - apply Rlt_Qlt. now apply sqrt_lt_0.
Qed.

Lemma touches_within (px py : Q) (c : Coin.t) (d : R) :
  Geometry.dist px py c = d -> (d < 30)%R -> Geometry.touches px py c = true.
Proof.
  intros Hd Hlt. apply sqrt_test. fold Geometry.reach.
  rewrite reach_30, Hd. exact Hlt.
Qed.

Lemma touches_beyond (px py : Q) (c : Coin.t) (d : R) :
  Geometry.dist px py c = d -> (30 <= d)%R -> Geometry.touches px py c = false.
Proof.
  intros Hd Hge. destruct (Geometry.touches px py c) eqn:E; [|reflexivity].
  apply sqrt_test in E. fold Geometry.reach in E.
  rewrite reach_30, Hd in E. Lra.lra.
Qed.

(** ** One player against the coins *)

Section OnePlayer.
Variable env : Env.

Lemma collide_at_hit (i : nat) (p : Player.t) (pl : Pool) (c : Coin.t) :
  nth_error (COINS pl) i = Some c ->
  Geometry.touches (Player.x p) (Player.y p) c = true ->
  collide_at env i p pl =
    (Player.set_score (Player.score p + 1)%Z p,
     spawnCoin env {| COINS := splice1 i (COINS pl); draws := draws pl |}).
Proof.
  intros Hc Ht. unfold collide_at. rewrite Hc.
  cbn [body_x body_y Player_Body]. now rewrite Ht.
Qed.

Lemma collide_at_miss (i : nat) (p : Player.t) (pl : Pool) (c : Coin.t) :
  nth_error (COINS pl) i = Some c ->
  Geometry.touches (Player.x p) (Player.y p) c = false ->
  collide_at env i p pl = (p, pl).
Proof.
  intros Hc Ht. unfold collide_at. rewrite Hc.
  cbn [body_x body_y Player_Body]. now rewrite Ht.
Qed.

(** Passes over coins that are all out of reach do nothing. *)
Lemma collect_none (n : nat) (p : Player.t) (pl : Pool) :
  (forall j c', (j < n)%nat -> nth_error (COINS pl) j = Some c' ->
     Geometry.touches (Player.x p) (Player.y p) c' = false) ->
  collect env n p pl = (p, pl).
Proof.
  induction n as [|i IH]; intro Hfar; cbn [collect]; [reflexivity|].
  destruct (nth_error (COINS pl) i) as [c'|] eqn:E.
  - rewrite (collide_at_miss i p pl c' E) by (apply (Hfar i); [lia | exact E]).
    apply IH. intros j c'' Hj. apply Hfar. lia.
  - unfold collide_at. rewrite E. apply IH.
    intros j c'' Hj. apply Hfar. lia.
Qed.

(** Passes that meet one coin within reach, at index [i]. *)
Lemma collect_one (n i : nat) (p : Player.t) (pl : Pool) (c : Coin.t) :
  (i < n)%nat ->
  nth_error (COINS pl) i = Some c ->
  Geometry.touches (Player.x p) (Player.y p) c = true ->
  others_out_of_reach p (COINS pl) i ->
  collect env n p pl =
    (Player.set_score (Player.score p + 1)%Z p,
     spawnCoin env {| COINS := splice1 i (COINS pl); draws := draws pl |}).
Proof.
  intros Hi Hc Ht Hfar.
  assert (Hlen : (i < List.length (COINS pl))%nat)
    by (apply nth_error_Some; congruence).
  induction n as [|m IH]; [lia|]. cbn [collect].
  destruct (Nat.eq_dec m i) as [->|Hm].
  - rewrite (collide_at_hit i p pl c Hc Ht).
    apply collect_none. intros j c' Hj.
    unfold spawnCoin; cbn [COINS draws].
    rewrite (splice1_below i j) by assumption.
    cbn [Player.x Player.y Player.set_score].
    apply Hfar. lia.
  - destruct (nth_error (COINS pl) m) as [c'|] eqn:E.
    + rewrite (collide_at_miss m p pl c' E) by (apply (Hfar m); assumption).
      apply IH. lia.
    + unfold collide_at. rewrite E. apply IH. lia.
Qed.
End OnePlayer.

(** What a pass that collects the coin at index [i] leaves. *)
Lemma collected_spec (env : Env) (i : nat) (p : Player.t) (pl : Pool) :
  (i < List.length (COINS pl))%nat ->
  gains 1 p (Player.set_score (Player.score p + 1)%Z p) /\
  replaced env i pl
    (spawnCoin env {| COINS := splice1 i (COINS pl); draws := draws pl |}).
Proof.
  intro Hlen. split; [repeat split|].
  unfold replaced, spawnCoin, splice1, fresh_coin, MAP_SIZE_width,
    MAP_SIZE_height.
  cbn [COINS draws uuid_calls random_calls].
  split; [|split; [|split; reflexivity]].
  - rewrite <- app_assoc. repeat f_equal.
  - rewrite !length_app, length_firstn, length_skipn. cbn [List.length]. lia.
Qed.


(** ** The collision scenario on sample data *)

Lemma dist_exact (px py : Q) (c : Coin.t) (d : Z) :
  (0 <= d)%Z ->
  Geometry.dist2 px py c == inject_Z d * inject_Z d ->
  Geometry.dist px py c = IZR d.
Proof.
  intros Hd Hq. unfold Geometry.dist.
  rewrite (Qeq_eqR _ _ Hq), Q2R_mult.
  assert (Hz : Q2R (inject_Z d) = IZR d).
  { unfold Q2R, inject_Z. cbn [Qnum Qden]. now rewrite Rinv_1, Rmult_1_r. }
  rewrite Hz. apply sqrt_square. now apply IZR_le.
Qed.


(** On that sample the score goes from [0] to [1], and the two coins left
    are the far one and a new one. *)
Lemma collision_on_sample :
  let r := collisions Sample.env Sample.player
             (Sample.pool_of [Sample.remote; Sample.near]) in
  Player.score (fst r) = 1%Z /\
  map Coin.id (COINS (snd r)) = ["c"; "a"].
Proof. split; reflexivity. Qed.

(** ** The delay mechanism: one independent timer for each payload *)

Lemma released_app (o1 o2 : list Server.Effect) :
  Server.released (o1 ++ o2) = (Server.released o1 ++ Server.released o2)%list.
Proof.
  induction o1 as [|[] o1 IH]; cbn [Server.released app]; try exact IH.
  - reflexivity.
  - now rewrite IH.
Qed.

Lemma armed_app (o1 o2 : list Server.Effect) :
  Server.armed (o1 ++ o2) = (Server.armed o1 ++ Server.armed o2)%list.
Proof.
  induction o1 as [|[] o1 IH]; cbn [Server.armed app]; try exact IH.
  - reflexivity.
  - now rewrite IH.
Qed.

Lemma firing_or_not (e : Server.Event) :
  (exists t, e = Server.Expire t) \/ (forall t, e <> Server.Expire t).
Proof.
  destruct e; try (right; discriminate). left. eauto.
Qed.

(** A delayed closure arms no timer and releases none. *)
Lemma run_callback_quiet (cb : Server.Callback) (s : Server.State) :
  let r := Server.run_callback cb s in
  Server.timers (fst r) = Server.timers s /\
  Server.next_timer (fst r) = Server.next_timer s /\
  Server.armed (snd r) = [] /\ Server.released (snd r) = [].
Proof.
  destruct cb as [ws pid | pid message | packet]; cbn.
  - destruct (Server.is_open s ws); repeat split.
  - destruct (Server.on_message pid message (Server.PLAYERS s));
      repeat split.
  - repeat split;
      induction (filter (Server.is_open s) (map fst (Server.clients s)));
      auto.
Qed.

(** The firing of an armed timer releases its payload then and there. *)
Lemma on_expire_armed (t : nat) (cb : Server.Callback) (s : Server.State) :
  Server.lookup t (Server.timers s) = Some cb ->
  let r := Server.on_expire t s in
  Server.released (snd r) = [t] /\ Server.armed (snd r) = [] /\
  Server.timers (fst r) = Server.drop t (Server.timers s) /\
  Server.next_timer (fst r) = Server.next_timer s.
Proof.
  intro Hl. unfold Server.on_expire. rewrite Hl.
  match goal with |- context [Server.run_callback cb ?s1] =>
    pose proof (run_callback_quiet cb s1) as Hq;
    destruct (Server.run_callback cb s1) as [s' out] end.
  cbn in Hq. destruct Hq as (H1 & H2 & H3 & H4). cbn.
  rewrite H1, H2, H3, H4. repeat split.
Qed.

Lemma on_expire_unarmed (t : nat) (s : Server.State) :
  Server.lookup t (Server.timers s) = None -> Server.on_expire t s = (s, []).
Proof. intro Hl. unfold Server.on_expire. now rewrite Hl. Qed.

(** What an event other than a firing does to the timers: nothing, or one
    more at the end, numbered [next_timer]. *)
Lemma step_arms (env : Env) (s : Server.State) (e : Server.Event) :
  (forall t, e <> Server.Expire t) ->
  let r := Server.step env s e in
  Server.released (snd r) = [] /\
  ((Server.armed (snd r) = [] /\
    Server.timers (fst r) = Server.timers s /\
    Server.next_timer (fst r) = Server.next_timer s) \/
   (exists cb,
      Server.armed (snd r) = [Server.next_timer s] /\
      Server.timers (fst r) =
        (Server.timers s ++ [(Server.next_timer s, cb)])%list /\
      Server.next_timer (fst r) = S (Server.next_timer s))).
Proof.
  intro He. destruct e as [| ws message | ws | now | timer | ws];
    cbn [Server.step].
  - cbn. split; [reflexivity|]. right. eexists. repeat split.
  - unfold Server.on_incoming.
    destruct (Server.lookup ws (Server.clients s)); cbn;
      (split; [reflexivity|]).
    + right. eexists. repeat split.
    + left. repeat split.
  - unfold Server.on_close.
    destruct (Server.lookup ws (Server.clients s)); cbn;
      (split; [reflexivity|]); left; repeat split.
  - unfold Server.on_tick.
    destruct (Server.each_player env (Server.PLAYERS s) (Server.pool s))
      as [ps pl]. cbn. split; [reflexivity|]. right. eexists. repeat split.
  - exfalso. exact (He timer eq_refl).
  - unfold Server.on_closing.
    destruct (Server.lookup ws (Server.clients s)); cbn;
      (split; [reflexivity|]); left; repeat split.
Qed.

Lemma ids_drop_subset (t u : nat) (ts : list (nat * Server.Callback)) :
  In u (ids (Server.drop t ts)) -> In u (ids ts).
Proof.
  unfold ids, Server.drop. rewrite !in_map_iff.
  intros [e [He Hin]]. apply filter_In in Hin. exists e. tauto.
Qed.

Lemma drop_NoDup (t : nat) (ts : list (nat * Server.Callback)) :
  NoDup (ids ts) -> NoDup (ids (Server.drop t ts)).
Proof.
  induction ts as [|[u cb] ts IH]; cbn; intro Hn; [constructor|].
  inversion Hn as [|? ? Hnot Hrest]; subst.
  destruct (Nat.eqb t u); cbn; [now apply IH|].
  constructor; [|now apply IH].
  intro Hin. apply Hnot. exact (ids_drop_subset t u ts Hin).
Qed.

Lemma drop_absent (t : nat) (ts : list (nat * Server.Callback)) :
  ~ In t (ids ts) -> Server.drop t ts = ts.
Proof.
  induction ts as [|[u cb] ts IH]; cbn; intro Hn; [reflexivity|].
  destruct (Nat.eqb_spec t u) as [->|Hne]; cbn.
  - exfalso. apply Hn. now left.
  - f_equal. apply IH. intro Hin. apply Hn. now right.
Qed.

(** With distinct numbers, dropping the oldest timer leaves the others. *)
Lemma drop_oldest (t : nat) (cb : Server.Callback)
    (rest : list (nat * Server.Callback)) :
  NoDup (ids ((t, cb) :: rest)) -> Server.drop t ((t, cb) :: rest) = rest.
Proof.
  intro Hn. inversion Hn as [|? ? Hnot _]; subst.
  unfold Server.drop. cbn [filter fst]. rewrite Nat.eqb_refl. cbn [negb].
  now apply drop_absent.
Qed.

Lemma step_timers_ok (env : Env) (s : Server.State) (e : Server.Event) :
  timers_ok s -> timers_ok (fst (Server.step env s e)).
Proof.
  intros [Hn Hlt].
  destruct (firing_or_not e) as [[t ->]|Hne].
  - cbn [Server.step].
    destruct (Server.lookup t (Server.timers s)) as [cb|] eqn:Hl.
    + destruct (on_expire_armed t cb s Hl) as (_ & _ & Ht & Hnext).
      unfold timers_ok. rewrite Ht, Hnext. split.
      * now apply drop_NoDup.
      * rewrite Forall_forall in *. intros u Hu.
        apply Hlt. exact (ids_drop_subset t u _ Hu).
    + rewrite (on_expire_unarmed t s Hl). split; assumption.
  - destruct (step_arms env s e Hne) as [_ [(_ & Ht & Hnext)|[cb (_ & Ht & Hnext)]]];
      unfold timers_ok; rewrite Ht, Hnext.
    + split; assumption.
    + unfold ids in *. rewrite map_app. cbn [map fst]. split.
      * apply NoDup_app; [exact Hn | repeat constructor; intros [] |].
        intros u Hu [<-|[]]. rewrite Forall_forall in Hlt.
        specialize (Hlt _ Hu). lia.
      * apply Forall_app. split.
        -- eapply Forall_impl; [|exact Hlt]. cbn. intros; lia.
        -- repeat constructor.
Qed.

(** The queue law of a run whose timers fire oldest first: what was
    released, followed by what is still armed, is what was armed before
    followed by what the run armed, in that order. *)
Lemma fifo_law (env : Env) (evs : list Server.Event) (s : Server.State) :
  timers_ok s -> fifo env s evs = true ->
  let r := Server.run env s evs in
  (Server.released (snd r) ++ ids (Server.timers (fst r)))%list =
  (ids (Server.timers s) ++ Server.armed (snd r))%list.
Proof.
  revert s. induction evs as [|e evs IH]; intros s Hok Hf;
    cbn [Server.run fifo] in *.
  - cbn. now rewrite app_nil_r.
  - apply andb_prop in Hf as [Hhead Hf].
    pose proof (step_timers_ok env s e Hok) as Hok1.
    destruct (firing_or_not e) as [[t ->]|Hne].
    + cbn [Server.step] in *.
      destruct (Server.lookup t (Server.timers s)) as [cb|] eqn:Hl.
      * destruct (on_expire_armed t cb s Hl) as (Hr & Ha & Ht & _).
        cbn [fires_oldest] in Hhead. rewrite Hl in Hhead.
        destruct (Server.timers s) as [|[t0 cb0] rest] eqn:Hts;
          [discriminate Hl|].
        apply Nat.eqb_eq in Hhead. subst t0.
        rewrite (drop_oldest t cb0 rest) in Ht by (rewrite <- Hts; apply Hok).
        destruct (Server.on_expire t s) as [s1 o1]. cbn [fst snd] in *.
        specialize (IH s1 Hok1 Hf).
        destruct (Server.run env s1 evs) as [s2 o2]. cbn [fst snd] in *.
        rewrite released_app, armed_app, Hr, Ha, <- app_assoc, IH, Ht.
        reflexivity.
      * rewrite (on_expire_unarmed t s Hl) in *. cbn [fst snd] in *.
        specialize (IH s Hok Hf).
        destruct (Server.run env s evs) as [s2 o2]. exact IH.
    + destruct (step_arms env s e Hne)
        as [Hr [(Ha & Ht & _)|[cb (Ha & Ht & _)]]];
        destruct (Server.step env s e) as [s1 o1]; cbn [fst snd] in *;
        specialize (IH s1 Hok1 Hf);
        destruct (Server.run env s1 evs) as [s2 o2]; cbn [fst snd] in *;
        rewrite released_app, armed_app, Hr, Ha; cbn [app];
        rewrite IH, Ht.
      * reflexivity.
      * unfold ids. rewrite map_app, <- app_assoc. reflexivity.
Qed.

(** The timers a run arms are numbered consecutively. *)
Lemma run_armed_seq (env : Env) (evs : list Server.Event) (s : Server.State) :
  let r := Server.run env s evs in
  exists k, Server.armed (snd r) = seq (Server.next_timer s) k /\
            Server.next_timer (fst r) = (Server.next_timer s + k)%nat.
Proof.
  revert s. induction evs as [|e evs IH]; intro s; cbn [Server.run].
  - exists 0%nat. cbn. split; [reflexivity | lia].
  - assert (Hstep : exists k,
              Server.armed (snd (Server.step env s e)) =
                seq (Server.next_timer s) k /\
              Server.next_timer (fst (Server.step env s e)) =
                (Server.next_timer s + k)%nat).
    { destruct (firing_or_not e) as [[t ->]|Hne].
      - cbn [Server.step].
        destruct (Server.lookup t (Server.timers s)) as [cb|] eqn:Hl.
        + destruct (on_expire_armed t cb s Hl) as (_ & Ha & _ & Hn).
          exists 0%nat. rewrite Ha, Hn. split; [reflexivity | lia].
        + rewrite (on_expire_unarmed t s Hl). exists 0%nat.
          split; [reflexivity | cbn; lia].
      - destruct (step_arms env s e Hne)
          as [_ [(Ha & _ & Hn)|[cb (Ha & _ & Hn)]]].
        + exists 0%nat. rewrite Ha, Hn. split; [reflexivity | lia].
        + exists 1%nat. rewrite Ha, Hn. split; [reflexivity | lia]. }
    destruct Hstep as [k1 [Ha1 Hn1]].
    destruct (Server.step env s e) as [s1 o1]. cbn [fst snd] in *.
    destruct (IH s1) as [k2 [Ha2 Hn2]].
    destruct (Server.run env s1 evs) as [s2 o2]. cbn [fst snd] in *.
    exists (k1 + k2)%nat. rewrite armed_app, Ha1, Ha2, Hn1, Hn2, seq_app.
    split; [reflexivity | lia].
Qed.

Lemma existsb_eqb_In (b : nat) (l : list nat) :
  existsb (Nat.eqb b) l = true <-> In b l.
Proof.
  rewrite existsb_exists. split.
  - intros [x [Hx Hb]]. apply Nat.eqb_eq in Hb. now subst.
  - intro H. exists b. split; [exact H | apply Nat.eqb_refl].
Qed.

(** In a list without repetition, the order of two elements of a prefix is
    their order in the whole list. *)
Lemma before_prefix (a b : nat) (l1 l2 : list nat) :
  NoDup (l1 ++ l2) -> Server.before a b (l1 ++ l2) = true ->
  In a l1 -> In b l1 -> Server.before a b l1 = true.
Proof.
  induction l1 as [|c l1 IH]; cbn [app Server.before]; intros Hn Hb Ha Hinb.
  - destruct Ha.
  - inversion Hn as [|? ? Hnot Hrest]; subst.
    destruct (Nat.eqb_spec c a) as [->|Hca].
    + apply existsb_eqb_In. destruct Hinb as [<-|Hinb]; [|exact Hinb].
      exfalso. apply Hnot. now apply existsb_eqb_In.
    + destruct (Nat.eqb_spec c b) as [->|Hcb]; [discriminate|].
      apply IH; try assumption.
      * destruct Ha; [contradiction | assumption].
      * destruct Hinb; [contradiction | assumption].
Qed.

(** C1, as the server has it.  Each payload gets a timer of its own, and
    the firing of an armed timer releases its payload at once, whatever is
    still armed before it.  In a run whose timers fire oldest first, the
    payloads released followed by those still waiting are the payloads
    submitted, in submission order; so of two released payloads the one
    submitted first was released first. *)
Theorem release_order_is_firing_order (env : Env) (evs : list Server.Event) :
  (forall (s : Server.State) (t : nat) (cb : Server.Callback),
     Server.lookup t (Server.timers s) = Some cb ->
     Server.released (snd (Server.on_expire t s)) = [t] /\
     Server.timers (fst (Server.on_expire t s)) =
       Server.drop t (Server.timers s)) /\
  (fifo env (Server.start env) evs = true ->
   let r := Server.run env (Server.start env) evs in
   (Server.released (snd r) ++ ids (Server.timers (fst r)))%list =
     Server.armed (snd r) /\
   in_submission_order (snd r)).
Proof.
  split.
  - intros s t cb Hl. destruct (on_expire_armed t cb s Hl) as (H1 & _ & H2 & _).
    split; assumption.
  - intro Hf. cbv zeta.
    assert (Hok : timers_ok (Server.start env))
      by (split; constructor).
    pose proof (fifo_law env evs (Server.start env) Hok Hf) as Hlaw.
    cbv zeta in Hlaw. cbn [Server.start Server.timers ids map app] in Hlaw.
    fold (Server.start env) in Hlaw.
    split; [exact Hlaw|].
    destruct (run_armed_seq env evs (Server.start env)) as [k [Hseq _]].
    intros a b Hab Ha Hb.
    apply (before_prefix a b _ (ids (Server.timers
             (fst (Server.run env (Server.start env) evs))))); try assumption.
    + rewrite Hlaw, Hseq. apply seq_NoDup.
    + now rewrite Hlaw.
Qed.

Lemma release_order_is_firing_order_witness :
  Server.released (snd (Server.on_expire 0 Sample.lobby)) = [0%nat] /\
  in_submission_order
    (snd (Server.run Sample.env (Server.start Sample.env) Sample.in_turn)).
Proof.
  destruct (release_order_is_firing_order Sample.env Sample.in_turn)
    as [Hfire Hfifo].
  split.
  - exact (proj1 (Hfire Sample.lobby 0%nat _ eq_refl)).
  - exact (proj2 (Hfifo eq_refl)).
Defined.

(** C1, as stated, fails: the client presses and then releases [up]; the
    timer of the release fires first, and the release is handled before
    the press. *)
Lemma release_order_broken_by_jitter :
  ~ in_submission_order
      (snd (Server.run Sample.env (Server.start Sample.env) Sample.jittered)).
Proof.
  intro H. specialize (H 1%nat 2%nat eq_refl).
  assert (Hr : Server.released
                 (snd (Server.run Sample.env (Server.start Sample.env)
                         Sample.jittered)) = [2; 1]%nat) by reflexivity.
  rewrite Hr in H. cbn in H.
  specialize (H (or_intror (or_introl eq_refl)) (or_introl eq_refl)).
  discriminate H.
Qed.

(** What the reordering costs: the key was released last, and stays
    pressed on the server. *)
Lemma jitter_leaves_key_pressed :
  map (fun kp => Pressed.up (Player.pressed (snd kp)))
    (Server.PLAYERS
       (fst (Server.run Sample.env (Server.start Sample.env) Sample.jittered)))
  = [true].
Proof. reflexivity. Qed.

(** ** Snapshot timestamps are the clock readings *)

Lemma snapshots_app (o1 o2 : list Server.Effect) :
  Server.snapshots (o1 ++ o2) =
  (Server.snapshots o1 ++ Server.snapshots o2)%list.
Proof.
  induction o1 as [|[t [] | | |] o1 IH]; cbn [Server.snapshots app];
    try exact IH.
  - reflexivity.
  - now rewrite IH.
Qed.

Lemma stamps_app (o1 o2 : list Server.Effect) :
  stamps (o1 ++ o2) = (stamps o1 ++ stamps o2)%list.
Proof. unfold stamps. now rewrite snapshots_app, flat_map_app. Qed.

Lemma run_callback_no_snapshot (cb : Server.Callback) (s : Server.State) :
  Server.snapshots (snd (Server.run_callback cb s)) = [].
Proof.
  destruct cb as [ws pid | pid message | packet]; cbn.
  - now destruct (Server.is_open s ws).
  - now destruct (Server.on_message pid message (Server.PLAYERS s)).
  - now induction (filter (Server.is_open s) (map fst (Server.clients s))).
Qed.

Lemma step_stamps (env : Env) (s : Server.State) (e : Server.Event) :
  stamps (snd (Server.step env s e)) = map inject_Z (clock [e]).
Proof.
  destruct e as [| ws message | ws | now | timer | ws]; cbn [Server.step clock map].
  - reflexivity.
  - unfold Server.on_incoming.
    now destruct (Server.lookup ws (Server.clients s)).
  - unfold Server.on_close.
    now destruct (Server.lookup ws (Server.clients s)).
  - unfold Server.on_tick.
    destruct (Server.each_player env (Server.PLAYERS s) (Server.pool s))
      as [ps pl]. reflexivity.
  - unfold Server.on_expire.
    destruct (Server.lookup timer (Server.timers s)) as [cb|]; [|reflexivity].
    match goal with |- context [Server.run_callback cb ?s1] =>
      pose proof (run_callback_no_snapshot cb s1) as Hq;
      destruct (Server.run_callback cb s1) as [s' out] end.
    unfold stamps. cbn [snd Server.snapshots] in *. now rewrite Hq.
  - unfold Server.on_closing.
    now destruct (Server.lookup ws (Server.clients s)).
Qed.

Lemma clock_cons (e : Server.Event) (evs : list Server.Event) :
  clock (e :: evs) = (clock [e] ++ clock evs)%list.
Proof. destruct e; reflexivity. Qed.

Lemma run_stamps (env : Env) (evs : list Server.Event) (s : Server.State) :
  stamps (snd (Server.run env s evs)) = map inject_Z (clock evs).
Proof.
  revert s. induction evs as [|e evs IH]; intro s; cbn [Server.run].
  - reflexivity.
  - pose proof (step_stamps env s e) as H1.
    destruct (Server.step env s e) as [s1 o1].
    specialize (IH s1). destruct (Server.run env s1 evs) as [s2 o2].
    cbn [snd] in *. rewrite clock_cons, map_app, stamps_app, IH.
    now rewrite H1.
Qed.

Lemma increasing_inject_Z (l : list Z) :
  StronglySorted Z.lt l -> strictly_increasing (map inject_Z l).
Proof.
  unfold strictly_increasing.
  induction 1 as [|a l Hs IH Hall]; cbn [map]; constructor; [exact IH|].
  rewrite Forall_map. eapply Forall_impl; [|exact Hall].
  intros b Hab. cbn. now rewrite <- Zlt_Qlt.
Qed.

(** C9, as the server has it.  The timestamp of a snapshot is the value
    [Date.now ()] returned in its tick, nothing else; the timestamps are
    strictly increasing in tick order whenever those clock readings are. *)
Theorem timestamps_follow_the_clock (env : Env) (s : Server.State)
    (evs : list Server.Event) :
  stamps (snd (Server.run env s evs)) = map inject_Z (clock evs) /\
  (StronglySorted Z.lt (clock evs) ->
   strictly_increasing (stamps (snd (Server.run env s evs)))).
Proof.
  split; [apply run_stamps|].
  intro Hc. rewrite run_stamps. now apply increasing_inject_Z.
Qed.

Lemma timestamps_follow_the_clock_witness :
  strictly_increasing
    (stamps (snd (Server.run Sample.env (Server.start Sample.env)
                    Sample.steady_clock))).
Proof.
  apply (timestamps_follow_the_clock Sample.env (Server.start Sample.env)
           Sample.steady_clock).
  cbn. repeat constructor.
Defined.

(** C9, as stated, fails: two ticks that read the same millisecond give
    two snapshots with the same timestamp. *)
Lemma timestamps_repeat_when_clock_stalls :
  ~ strictly_increasing
      (stamps (snd (Server.run Sample.env (Server.start Sample.env)
                      Sample.stalled_clock))).
Proof.
  rewrite run_stamps. cbn. intro H.
  apply StronglySorted_inv in H as [_ H].
  apply Forall_inv in H. revert H. apply Qlt_irrefl.
Qed.

(** ** Inbound messages *)

Lemma single_shot_keeps (key : option JSON) (p : Player.t) :
  Player.pressed (Server.single_shot key p) = Player.pressed p /\
  Player.score (Server.single_shot key p) = Player.score p /\
  Player.id (Server.single_shot key p) = Player.id p /\
  Player.color (Server.single_shot key p) = Player.color p.
Proof.
  unfold Server.single_shot.
  destruct (is_string key "up"), (is_string key "down"),
    (is_string key "left"), (is_string key "right"); repeat split.
Qed.

(** What the [try] block does, by the kind of frame. *)
Lemma on_message_cases (playerId : string) (message : Message)
    (ps : Server.Players) :
  match Server.on_message playerId message ps with
  | None => True
  | Some ps' =>
      (ps' = ps /\
       (is_string (type_of message) "input" &&
        includes DIRECTIONS (key_of message) = false \/
        Dict.get playerId ps = None)) \/
      exists p, Dict.get playerId ps = Some p /\
        is_string (type_of message) "input" = true /\
        includes DIRECTIONS (key_of message) = true /\
        ((bad_action message /\
          ps' = Dict.set playerId
                  (Server.single_shot (key_of message) p) ps) \/
         (~ bad_action message /\
          ps' = Dict.set playerId
                  (Player.set_pressed
                     (Pressed.set (Server.key_name (key_of message))
                        (is_string (action_of message) "start")
                        (Player.pressed p)) p) ps))
  end.
Proof.
  unfold Server.on_message, bad_action, key_of, action_of, type_of.
  destruct (JSON_parse message) as [data|]; [|exact I].
  destruct (prop data "type") as [type|]; [|exact I].
  destruct (is_string type "input") eqn:Ht; [|left; split; auto].
  destruct (Dict.get playerId ps) as [p|] eqn:Hp; [|left; split; auto].
  destruct (prop data "key") as [key|]; [|exact I].
  destruct (prop data "action") as [action|]; [|exact I].
  destruct (includes DIRECTIONS key) eqn:Hk; cbn [andb].
  - destruct (is_string action "start" || is_string action "stop") eqn:Ha.
    + right. exists p. repeat split. right. split;
        [intro; discriminate | reflexivity].
    + right. exists p. repeat split. left. split; reflexivity.
  - left. split; auto.
Qed.

(** A property that passes the [includes] test is one of the four
    direction names. *)
Lemma includes_directions (v : option JSON) :
  includes DIRECTIONS v = true ->
  exists key, v = Some (JStr key) /\ In key DIRECTIONS.
Proof.
  intro Hk. destruct v as [[| | |key| |]|]; try discriminate Hk.
  exists key. split; [reflexivity|].
  unfold includes, DIRECTIONS in Hk. cbn [existsb is_string] in Hk.
  repeat (apply orb_prop in Hk as [Hk|Hk];
          [apply String.eqb_eq in Hk; subst; cbn; tauto|]).
  discriminate Hk.
Qed.

(** The backward-compatible branch, coordinate by coordinate. *)
Lemma single_shot_one_step (key : string) (p : Player.t) :
  In key DIRECTIONS ->
  one_step key p (Server.single_shot (Some (JStr key)) p).
Proof.
  intro Hk. unfold one_step.
  destruct (single_shot_keeps (Some (JStr key)) p) as (Hpr & Hsc & Hid & Hco).
  repeat split; try assumption;
    destruct Hk as [<-|[<-|[<-|[<-|[]]]]];
    unfold Server.single_shot, clamp, Math_max, Math_min, MOVEMENT_SPEED,
      MAP_SIZE_width, MAP_SIZE_height;
    cbn [is_string String.eqb Ascii.eqb Bool.eqb step_of fst snd
         Player.x Player.y Player.set_x Player.set_y];
    match goal with
    | |- Qmax 0 (Qmin ?hi ?a) == Qmax 0 (Qmin ?hi ?b) =>
        apply Q.max_compat; [reflexivity|];
        apply Q.min_compat; [reflexivity | ring]
    end.
Qed.

(** C6, as the server has it.  The delayed handler never touches a socket
    and sends nothing; a frame that is not JSON, or whose key is not one of
    the four directions, leaves the server exactly as it was.  A frame
    whose action is neither [start] nor [stop] is dropped in the same way
    unless it is an [input] frame with a valid key from a player still in
    [PLAYERS]: that one is a single-shot input, which moves the player by
    five units in the direction of the key, at once, clamped to the map,
    and leaves everything else as it was: pressed-state, score, the other
    players, the coins, the sockets and the timers. *)
Theorem rejected_messages (playerId : string) (message : Message)
    (s : Server.State) :
  let r := Server.run_callback (Server.HandleMessage playerId message) s in
  (Server.clients (fst r) = Server.clients s /\
   (forall ws, Server.readyState ws (fst r) = Server.readyState ws s) /\
   Forall (fun e => e = Server.Logged) (snd r)) /\
  (malformed message \/ bad_key message -> dropped playerId message s) /\
  (bad_action message ->
   if addressed playerId message s
   then stepped_once playerId message s
   else dropped playerId message s).
Proof.
  assert (Hsame : Server.with_players (Server.PLAYERS s) s = s)
    by (destruct s; reflexivity).
  pose proof (on_message_cases playerId message (Server.PLAYERS s)) as Hc.
  unfold dropped, stepped_once, addressed. cbn [Server.run_callback].
  destruct (Server.on_message playerId message (Server.PLAYERS s))
    as [ps'|] eqn:E; cbn [fst snd].
  - split; [split; [|split]; [destruct s; reflexivity | reflexivity
                              | constructor]|].
    destruct Hc as [[-> Hwhy]|[p (Hp & Ht & Hk & Hc)]].
    + rewrite Hsame. split; [reflexivity|]. intros _.
      destruct Hwhy as [-> | ->]; [reflexivity|].
      now rewrite andb_false_r.
    + split.
      * intros [Hm|Hb].
        -- unfold malformed in Hm. unfold Server.on_message in E.
           rewrite Hm in E. discriminate.
        -- unfold bad_key in Hb. congruence.
      * intro Hba. destruct Hc as [[_ ->]|[Hna _]]; [|contradiction].
        rewrite Ht, Hk, Hp. cbn [andb].
        destruct (includes_directions _ Hk) as [key [Hkey Hin]].
        exists p, key, (Server.single_shot (key_of message) p).
        split; [reflexivity|]. split; [exact Hkey|]. split; [exact Hin|].
        cbv zeta. unfold Server.with_players. cbn [Server.PLAYERS].
        split; [apply get_set_same|].
        split; [rewrite Hkey; now apply single_shot_one_step|].
        unfold same_but_player.
        cbn [Server.PLAYERS Server.pool Server.clients Server.closing
             Server.timers].
        split; [|split; [|repeat split]].
        -- clear - Hp. induction (Server.PLAYERS s) as [|[k0 v0] d IH];
             cbn [Dict.get Dict.set Dict.keys map fst] in *;
             [discriminate|].
           destruct (String.eqb playerId k0); [reflexivity|].
           cbn [map fst]. f_equal. now apply IH.
        -- intros k Hne. clear - Hne.
           induction (Server.PLAYERS s) as [|[k0 v0] d IH];
             cbn [Dict.get Dict.set].
           ++ destruct (String.eqb_spec k playerId); [contradiction|].
              reflexivity.
           ++ destruct (String.eqb_spec playerId k0) as [->|Hk0];
                cbn [Dict.get].
              ** destruct (String.eqb_spec k k0); [contradiction|].
                 reflexivity.
              ** destruct (String.eqb k k0); [reflexivity | exact IH].
  - split; [split; [|split]; [reflexivity | reflexivity
                              | repeat constructor]|].
    split; [reflexivity|]. intros _.
    assert (Hno : is_string (type_of message) "input" &&
                  includes DIRECTIONS (key_of message) = false).
    { unfold Server.on_message in E. unfold type_of, key_of.
      destruct (JSON_parse message) as [data|]; [|reflexivity].
      destruct data as [| | | | |members];
        cbn [prop] in E |- *; try reflexivity; try discriminate E.
      destruct (is_string (Dict.get "type" members) "input");
        [|reflexivity].
      destruct (Dict.get playerId (Server.PLAYERS s)); [|discriminate E].
      destruct (includes DIRECTIONS (Dict.get "key" members));
        [|reflexivity].
      destruct (is_string (Dict.get "action" members) "start" ||
                is_string (Dict.get "action" members) "stop");
        discriminate E. }
    now rewrite Hno.
Qed.

Lemma rejected_messages_witness :
  dropped "f" (Garbage "{type:") Sample.lobby /\
  dropped "f" (Sample.input "jump" "start") Sample.lobby /\
  stepped_once "f" (Sample.keystroke "up") Sample.lobby.
Proof.
  split; [|split].
  - exact (proj1 (proj2 (rejected_messages "f" (Garbage "{type:")
                           Sample.lobby)) (or_introl eq_refl)).
  - exact (proj1 (proj2 (rejected_messages "f" (Sample.input "jump" "start")
                           Sample.lobby)) (or_intror eq_refl)).
  - exact (proj2 (proj2 (rejected_messages "f" (Sample.keystroke "up")
                           Sample.lobby)) eq_refl).
Defined.

(** C6, as stated, fails: [{ type: 'input', key: 'up' }] has no [start] or
    [stop] action, and moves the player from [y = 300] to [y = 295]. *)
Lemma keystroke_without_action_moves_player :
  bad_action (Sample.keystroke "up") /\
  ~ dropped "f" (Sample.keystroke "up") Sample.lobby.
Proof.
  split; [reflexivity|].
  unfold dropped. intro H.
  apply (f_equal (fun s => map (fun kp => Qred (Player.y (snd kp)))
                             (Server.PLAYERS s))) in H.
  vm_compute in H. discriminate H.
Qed.

Lemma keystroke_moves_up_one_step :
  map (fun kp => Qred (Player.y (snd kp)))
    (Server.PLAYERS
       (fst (Server.run_callback
               (Server.HandleMessage "f" (Sample.keystroke "up"))
               Sample.lobby)))
  = [295].
Proof. reflexivity. Qed.

(** ** Pressed-state *)

Lemma on_message_intent (playerId d a : string) (ps : Server.Players)
    (p : Player.t) :
  In d DIRECTIONS -> a = "start" \/ a = "stop" ->
  Dict.get playerId ps = Some p ->
  Server.on_message playerId (Text (Client.input_message d a)) ps =
  Some (Dict.set playerId
          (Player.set_pressed
             (Pressed.set d (String.eqb a "start") (Player.pressed p)) p)
          ps).
Proof.
  intros Hd Ha Hp. unfold Server.on_message, Client.input_message.
  cbn [JSON_parse prop Dict.get String.eqb Ascii.eqb Bool.eqb is_string].
  rewrite Hp.
  destruct Hd as [<-|[<-|[<-|[<-|[]]]]]; destruct Ha as [-> | ->];
    reflexivity.
Qed.

Lemma set_false_same (d : string) (pr : Pressed.t) :
  In d DIRECTIONS ->
  (Pressed.set d false pr = pr <-> Pressed.get d pr = Some false).
Proof.
  intros [<-|[<-|[<-|[<-|[]]]]]; destruct pr as [[] [] [] []];
    cbn; split; congruence.
Qed.

Lemma set_set_pressed (d : string) (v w : bool) (pr : Pressed.t) :
  Pressed.set d w (Pressed.set d v pr) = Pressed.set d w pr.
Proof.
  unfold Pressed.set.
  destruct (String.eqb d "up"); [reflexivity|].
  destruct (String.eqb d "down"); [reflexivity|].
  destruct (String.eqb d "left"); [reflexivity|].
  destruct (String.eqb d "right"); reflexivity.
Qed.

(** C8, as the server has it.  A [start] and then a [stop] for one
    direction, with nothing in between, leave that direction released and
    everything else of the player as it was; the pressed-state is the one
    before the pair exactly when the direction was not pressed before. *)
Theorem start_then_stop (playerId d : string) (ps : Server.Players)
    (p : Player.t) :
  In d DIRECTIONS -> Dict.get playerId ps = Some p ->
  exists ps1 ps2,
    Server.on_message playerId (Text (Client.input_message d "start")) ps
      = Some ps1 /\
    Server.on_message playerId (Text (Client.input_message d "stop")) ps1
      = Some ps2 /\
    ps2 = Dict.set playerId
            (Player.set_pressed (Pressed.set d false (Player.pressed p)) p)
            ps /\
    (Pressed.get d (Player.pressed p) = Some false <-> ps2 = ps) /\
    (Pressed.get d (Player.pressed p) = Some false <-> pair_is_noop playerId d ps).
Proof.
  intros Hd Hp.
  pose proof (on_message_intent playerId d "start" ps p Hd
                (or_introl eq_refl) Hp) as H1.
  set (p1 := Player.set_pressed
               (Pressed.set d ("start" =? "start")%string (Player.pressed p))
               p) in H1.
  pose proof (on_message_intent playerId d "stop" (Dict.set playerId p1 ps) p1
                Hd (or_intror eq_refl) (get_set_same _ _ _)) as H2.
  rewrite set_set in H2.
  assert (Hp2 : Player.set_pressed
                  (Pressed.set d ("stop" =? "start")%string (Player.pressed p1))
                  p1
                = Player.set_pressed
                    (Pressed.set d false (Player.pressed p)) p).
  { subst p1. cbn [Player.pressed Player.set_pressed].
    change ("stop" =? "start")%string with false.
    rewrite set_set_pressed. destruct p; reflexivity. }
  rewrite Hp2 in H2. clear Hp2.
  set (p2 := Player.set_pressed (Pressed.set d false (Player.pressed p)) p)
    in *.
  assert (Hget : Dict.get playerId (Dict.set playerId p2 ps) = Some p2)
    by apply get_set_same.
  assert (Hpr : Player.pressed p2 = Pressed.set d false (Player.pressed p))
    by reflexivity.
  assert (Hiff : Pressed.get d (Player.pressed p) = Some false <->
                 Dict.set playerId p2 ps = ps).
  { split; intro H.
    - apply set_same. rewrite Hp. f_equal. subst p2.
      apply (set_false_same d _ Hd) in H. rewrite H.
      destruct p; reflexivity.
    - apply (set_false_same d _ Hd). rewrite <- Hpr.
      rewrite H in Hget. congruence. }
  exists (Dict.set playerId p1 ps), (Dict.set playerId p2 ps).
  repeat split; try assumption; try apply Hiff.
  - intros H ps1 ps2 E1 E2. rewrite H1 in E1. injection E1 as <-.
    rewrite H2 in E2. injection E2 as <-.
    apply Hiff in H. now rewrite H.
  - intro H. specialize (H _ _ H1 H2). rewrite Hget, Hp in H.
    cbn [option_map] in H. apply (set_false_same d _ Hd).
    rewrite <- Hpr. congruence.
Qed.

Lemma start_then_stop_witness :
  pair_is_noop "f" "left" (Server.PLAYERS Sample.held).
Proof.
  destruct (start_then_stop "f" "left" (Server.PLAYERS Sample.held) _
              (or_intror (or_intror (or_introl eq_refl))) eq_refl)
    as (ps1 & ps2 & _ & _ & _ & _ & H).
  apply H. reflexivity.
Defined.

(** Two keys of the keyboard stand for each direction, so a direction can
    be pressed again while it is held. *)
Lemma two_keys_one_direction :
  Client.mapKeyToCmd "w" = Some "up" /\
  Client.mapKeyToCmd "ArrowUp" = Some "up".
Proof. split; reflexivity. Qed.

(** C8, as stated, fails: with [up] already held (the [w] key), a second
    press of [up] (the arrow key) and its release leave [up] released. *)
Lemma start_then_stop_releases_held_key :
  ~ pair_is_noop "f" "up" (Server.PLAYERS Sample.held).
Proof.
  intro H. specialize (H _ _ eq_refl eq_refl). discriminate H.
Qed.

(** ** The client: interpolation *)

(** The two snapshots the scan stops on bracket the render time. *)
Lemma scan_brackets (renderTimestamp : Q) (buffer : list Client.Snapshot.t)
    (prev0 : option Client.Snapshot.t) (prev next : Client.Snapshot.t) :
  (forall p, prev0 = Some p -> Client.Snapshot.timestamp p <= renderTimestamp) ->
  Client.scan renderTimestamp buffer prev0 = (Some prev, Some next) ->
  Client.Snapshot.timestamp prev <= renderTimestamp /\
  renderTimestamp < Client.Snapshot.timestamp next.
Proof.
  revert prev0. induction buffer as [|s rest IH]; intros prev0 H0;
    cbn [Client.scan].
  - discriminate.
  - destruct (Qle_bool (Client.Snapshot.timestamp s) renderTimestamp) eqn:E.
    + apply IH. intros p [= <-]. now apply Qle_bool_iff.
    + intros [= -> ->]. split; [now apply H0|].
      apply Qnot_le_lt. intro Hle. apply Qle_bool_iff in Hle. congruence.
Qed.

Lemma factor_range (prev next : Client.Snapshot.t) (renderTimestamp : Q) :
  Client.Snapshot.timestamp prev <= renderTimestamp ->
  renderTimestamp < Client.Snapshot.timestamp next ->
  0 <= Client.factor prev next renderTimestamp /\
  Client.factor prev next renderTimestamp < 1.
Proof.
  intros Hp Hn. unfold Client.factor.
  set (tp := Client.Snapshot.timestamp prev) in *.
  set (tn := Client.Snapshot.timestamp next) in *.
  assert (Hpos : 0 < tn - tp) by lra.
  split.
  - apply Qle_shift_div_l; [exact Hpos | lra].
  - apply Qlt_shift_div_r; [exact Hpos | lra].
Qed.

Lemma get_map_values {A B : Type} (f : string -> A -> B) (id : string)
    (d : list (string * A)) :
  Dict.get id (map (fun kp => (fst kp, f (fst kp) (snd kp))) d) =
  option_map (f id) (Dict.get id d).
Proof.
  induction d as [|[k v] d IH]; cbn [map Dict.get fst snd]; [reflexivity|].
  destruct (String.eqb_spec id k) as [->|Hne]; [reflexivity | exact IH].
Qed.

Lemma lerp_on_segment (pPrev pNext : Client.Remote.t) (t : Q) :
  let sp := Client.lerp (Some pPrev) pNext t in
  on_segment t pPrev pNext (Client.Sprite.x sp) (Client.Sprite.y sp).
Proof.
  cbn [Client.lerp Client.Sprite.x Client.Sprite.y]. split; ring.
Qed.



(** Scenario B: [x = 100] at [1000], [x = 110] at [1050], drawn at
    [x = 105] when the render time is [1025], that is at [now = 1125]. *)
Lemma halfway_between_snapshots :
  option_map (fun f => map (fun kp => Qred (Client.Sprite.x (snd kp)))
                         (Client.Frame.players f))
    (Client.getCurrentState 1125 [Sample.earlier; Sample.later])
  = Some [105].
Proof. reflexivity. Qed.

(** Whatever the buffer holds, the interpolating branch is only taken with
    a factor in [[0, 1)]. *)
Lemma getCurrentState_factor (now : Q) (stateBuffer : list Client.Snapshot.t)
    (prev next : Client.Snapshot.t) :
  Client.scan (now - Client.RENDER_DELAY) stateBuffer None
    = (Some prev, Some next) ->
  0 <= Client.factor prev next (now - Client.RENDER_DELAY) /\
  Client.factor prev next (now - Client.RENDER_DELAY) < 1.
Proof.
  intro Hscan. apply factor_range;
    apply (scan_brackets _ stateBuffer None prev next); try exact Hscan;
    discriminate.
Qed.

(** The buffer never holds more than twenty snapshots. *)
Lemma on_state_bounded (state : Client.Snapshot.t)
    (stateBuffer : list Client.Snapshot.t) :
  (List.length stateBuffer <= 20)%nat ->
  (List.length (Client.on_state state stateBuffer) <= 20)%nat.
Proof.
  intro Hlen. unfold Client.on_state.
  assert (Hp : List.length (stateBuffer ++ [state]) =
               S (List.length stateBuffer))
    by (rewrite length_app; cbn; lia).
  destruct (Nat.ltb_spec 20 (List.length (stateBuffer ++ [state]))).
  - destruct (stateBuffer ++ [state])%list; cbn in *; lia.
  - lia.
Qed.

(** ** The client: rendering *)

Lemma getCurrentState_single (now : Q) (s : Client.Snapshot.t) :
  Client.getCurrentState now [s] = Some (Client.as_frame s).
Proof.
  unfold Client.getCurrentState. cbn [Client.scan].
  destruct (Qle_bool (Client.Snapshot.timestamp s) (now - Client.RENDER_DELAY));
    reflexivity.
Qed.

(** C10. With fewer than two snapshots in the buffer, [render] clears the
    canvas, asks for the next frame and draws nothing; so a frame that
    paints anything had at least two snapshots to work from.  With one
    snapshot, [getCurrentState] would return that snapshot, but [render]
    does not call it. *)
Theorem render_needs_two_snapshots (width height : Q) (myId : option string)
    (now : Q) (stateBuffer : list Client.Snapshot.t) :
  ((List.length stateBuffer < 2)%nat ->
   Client.render width height myId now stateBuffer =
     [ Client.clearRect 0 0 width height; Client.requestAnimationFrame ]) /\
  (existsb Client.paints (Client.render width height myId now stateBuffer)
     = true -> (2 <= List.length stateBuffer)%nat) /\
  (forall s, stateBuffer = [s] ->
     Client.getCurrentState now stateBuffer = Some (Client.as_frame s) /\
     Client.render width height myId now stateBuffer =
       [ Client.clearRect 0 0 width height; Client.requestAnimationFrame ]).
Proof.
  assert (Hfew : (List.length stateBuffer < 2)%nat ->
     Client.render width height myId now stateBuffer =
       [ Client.clearRect 0 0 width height; Client.requestAnimationFrame ]).
  { intro Hlen. unfold Client.render.
    destruct (Nat.ltb_spec 1 (List.length stateBuffer)); [lia | reflexivity]. }
  split; [exact Hfew|]. split.
  - intro Hp. destruct (Nat.lt_ge_cases (List.length stateBuffer) 2)
      as [Hlt|Hge]; [|exact Hge].
    rewrite (Hfew Hlt) in Hp. discriminate Hp.
  - intros s ->. split; [apply getCurrentState_single|].
    apply Hfew. cbn. lia.
Qed.

Lemma render_needs_two_snapshots_witness :
  Client.render 800 600 (Some "p") 1125 [Sample.earlier] =
    [ Client.clearRect 0 0 800 600; Client.requestAnimationFrame ] /\
  Client.getCurrentState 1125 [Sample.earlier] =
    Some (Client.as_frame Sample.earlier) /\
  (2 <= List.length [Sample.earlier; Sample.later])%nat.
Proof.
  split; [|split].
  - apply (render_needs_two_snapshots 800 600 (Some "p") 1125
             [Sample.earlier]).
    cbn. lia.
  - apply (render_needs_two_snapshots 800 600 (Some "p") 1125
             [Sample.earlier]).
    reflexivity.
  - apply (render_needs_two_snapshots 800 600 (Some "p") 1125
             [Sample.earlier; Sample.later]).
    reflexivity.
Defined.

(** With a second snapshot, and both older than the render time, the
    fall-back draws the latest one as it is. *)
Lemma fallback_draws_latest :
  filter Client.paints
    (Client.render 800 600 None 2000 [Sample.earlier; Sample.later])
  = filter Client.paints (Client.draw None (Client.as_frame Sample.later)).
Proof. reflexivity. Qed.

(** ** What a snapshot carries *)

Lemma views_of_state_packet (ps : Server.Players) (coins : list Coin.t)
    (now : Z) :
  Server.views_of (Server.state_packet (Server.gameState ps coins now)) =
  map (fun kp => Server.player_view (snd kp)) ps.
Proof.
  unfold Server.views_of, Server.state_packet, Server.gameState,
    Server.playersForSend, Dict.values.
  cbn [prop Dict.get String.eqb Ascii.eqb Bool.eqb].
  now rewrite map_map.
Qed.

Lemma state_packet_sanitized (ps : Server.Players) (coins : list Coin.t)
    (now : Z) :
  sanitized (Server.state_packet (Server.gameState ps coins now)).
Proof.
  unfold sanitized. rewrite views_of_state_packet, Forall_map.
  apply Forall_forall. intros kp _. reflexivity.
Qed.

Lemma init_packet_sanitized (playerId : string) :
  sanitized (Server.init_packet playerId).
Proof. constructor. Qed.

Lemma sent_app (o1 o2 : list Server.Effect) :
  sent (o1 ++ o2) = (sent o1 ++ sent o2)%list.
Proof.
  induction o1 as [|[] o1 IH]; cbn [sent app]; try exact IH.
  - reflexivity.
  - now rewrite IH.
Qed.

Lemma lookup_In {A : Type} (n : nat) (l : list (nat * A)) (a : A) :
  Server.lookup n l = Some a -> In (n, a) l.
Proof.
  induction l as [|[m b] l IH]; cbn [Server.lookup]; [discriminate|].
  destruct (Nat.eqb_spec n m) as [->|Hne].
  - intros [= ->]. now left.
  - intro H. right. exact (IH H).
Qed.

Lemma run_callback_sent (cb : Server.Callback) (s : Server.State) :
  match cb with
  | Server.Broadcast packet => sanitized packet
  | _ => True
  end ->
  Forall sanitized (sent (snd (Server.run_callback cb s))).
Proof.
  destruct cb as [ws pid | pid message | packet]; cbn [Server.run_callback];
    intro Hcb.
  - destruct (Server.is_open s ws); cbn;
      repeat constructor.
  - destruct (Server.on_message pid message (Server.PLAYERS s)); cbn;
      constructor.
  - cbn [snd].
    induction (filter (Server.is_open s) (map fst (Server.clients s)));
      cbn; constructor; assumption.
Qed.

Section Sanitized.
Variable env : Env.

Lemma step_sanitized (s : Server.State) (e : Server.Event) :
  timers_sanitized s ->
  let r := Server.step env s e in
  timers_sanitized (fst r) /\
  Forall sanitized (Server.snapshots (snd r)) /\
  Forall sanitized (sent (snd r)).
Proof.
  intro Hs. destruct e as [| ws message | ws | now | timer | ws];
    cbn [Server.step].
  - cbn. repeat split; try constructor.
    apply Forall_app. split; [exact Hs | repeat constructor].
  - unfold Server.on_incoming.
    destruct (Server.lookup ws (Server.clients s)); cbn;
      repeat split; try constructor; try exact Hs.
    apply Forall_app. split; [exact Hs | repeat constructor].
  - unfold Server.on_close.
    destruct (Server.lookup ws (Server.clients s)); cbn;
      repeat split; try constructor; exact Hs.
  - unfold Server.on_tick.
    destruct (Server.each_player env (Server.PLAYERS s) (Server.pool s))
      as [ps pl].
    pose proof (state_packet_sanitized ps (COINS pl) now) as Hp.
    cbn. repeat split; try constructor; try exact Hp; try constructor.
    apply Forall_app. split; [exact Hs | repeat constructor; exact Hp].
  - unfold Server.on_expire.
    destruct (Server.lookup timer (Server.timers s)) as [cb|] eqn:Hl;
      [|cbn; repeat split; try constructor; exact Hs].
    assert (Hdrop : Forall (fun e => match snd e with
                                     | Server.Broadcast packet => sanitized packet
                                     | _ => True
                                     end)
                      (Server.drop timer (Server.timers s))).
    { unfold Server.drop. apply Forall_forall. intros x Hx.
      apply filter_In in Hx as [Hx _].
      unfold timers_sanitized in Hs. rewrite Forall_forall in Hs.
      exact (Hs x Hx). }
    apply lookup_In in Hl.
    unfold timers_sanitized in Hs. rewrite Forall_forall in Hs.
    specialize (Hs _ Hl). cbn [snd] in Hs.
    match goal with |- context [Server.run_callback cb ?s1] =>
      pose proof (run_callback_sent cb s1 Hs) as Hsent;
      pose proof (run_callback_no_snapshot cb s1) as Hsnap;
      pose proof (run_callback_quiet cb s1) as (Ht & _);
      destruct (Server.run_callback cb s1) as [s' out] end.
    cbn [fst snd Server.timers Server.snapshots sent] in *.
    unfold timers_sanitized. rewrite Ht, Hsnap.
    repeat split; try assumption. constructor.
  - unfold Server.on_closing.
    destruct (Server.lookup ws (Server.clients s)); cbn;
      repeat split; try constructor; exact Hs.
Qed.

Lemma run_sanitized (evs : list Server.Event) (s : Server.State) :
  timers_sanitized s ->
  let r := Server.run env s evs in
  timers_sanitized (fst r) /\
  Forall sanitized (Server.snapshots (snd r)) /\
  Forall sanitized (sent (snd r)).
Proof.
  revert s. induction evs as [|e evs IH]; intros s Hs; cbn [Server.run].
  - cbn. repeat split; try constructor. exact Hs.
  - destruct (step_sanitized s e Hs) as (H1 & H2 & H3).
    destruct (Server.step env s e) as [s1 o1]. cbn [fst snd] in *.
    destruct (IH s1 H1) as (H4 & H5 & H6).
    destruct (Server.run env s1 evs) as [s2 o2]. cbn [fst snd] in *.
    rewrite snapshots_app, sent_app.
    repeat split; try assumption; apply Forall_app; split; assumption.
Qed.
End Sanitized.

(** The current server: every snapshot it builds, and every packet it
    writes to a socket, shows of each player the five fields [id], [x],
    [y], [score] and [color], and nothing else. *)
Lemma current_snapshots_sanitized (env : Env) (evs : list Server.Event) :
  let out := snd (Server.run env (Server.start env) evs) in
  Forall sanitized (Server.snapshots out) /\ Forall sanitized (sent out).
Proof.
  apply (run_sanitized env evs (Server.start env)). constructor.
Qed.

(** The earlier server puts the live player objects in the packet, with
    their input queue. *)
Lemma legacy_views (env : Env) (now : Z) (ps : Legacy.Players) (pl : Pool) :
  let '(ps', _, packet) := Legacy.tick env now ps pl in
  Server.views_of packet = map (fun kp => Legacy.player_json (snd kp)) ps'.
Proof.
  unfold Legacy.tick.
  destruct (Legacy.each_player env ps pl) as [ps' pl'].
  unfold Server.views_of, Server.state_packet, Legacy.gameState, Dict.values.
  cbn [prop Dict.get String.eqb Ascii.eqb Bool.eqb].
  now rewrite map_map.
Qed.

Lemma drain_empties (queue : list string) (p : Legacy.Player.t) :
  Legacy.Player.inputs (Legacy.drain queue p) = [].
Proof.
  revert p. induction queue as [|input rest IH]; intro p; cbn [Legacy.drain].
  - reflexivity.
  - apply IH.
Qed.

(** Whoever is connected, the earlier server's packet is not limited to
    the five fields. *)
Lemma legacy_never_sanitized (env : Env) (now : Z) (ps : Legacy.Players)
    (pl : Pool) :
  ps <> [] ->
  let '(_, _, packet) := Legacy.tick env now ps pl in ~ sanitized packet.
Proof.
  intro Hne. pose proof (legacy_views env now ps pl) as Hv.
  unfold Legacy.tick in *.
  destruct ps as [|[k p] rest]; [contradiction|].
  cbn [Legacy.each_player] in *.
  destruct (collisions env (Legacy.process_inputs p) pl) as [p' pl'].
  destruct (Legacy.each_player env rest pl') as [rest' pl''].
  unfold sanitized. rewrite Hv. cbn [map]. intro H.
  apply Forall_inv in H. discriminate H.
Qed.

(** C5 on the earlier server: one client connects, the loop ticks once,
    and the snapshot shows the player with a sixth field, [inputs]. *)
Theorem legacy_snapshot_carries_input_queue :
  let '(ps, pl) :=
    Legacy.connect Sample.env [] (initial_pool Sample.env) in
  let '(_, _, packet) := Legacy.tick Sample.env 1000 ps pl in
  map Server.fields (Server.views_of packet)
    = [["id"; "x"; "y"; "score"; "color"; "inputs"]] /\
  ~ sanitized packet.
Proof.
  cbn. split; [reflexivity|].
  intro H. apply Forall_inv in H. discriminate H.
Qed.


(** * Further properties of the server *)

(** ** The collision loop as a whole *)

Lemma firstn_snoc {A : Type} (i : nat) (l : list A) (c : A) :
  nth_error l i = Some c -> firstn (S i) l = (firstn i l ++ [c])%list.
Proof.
  revert l. induction i as [|i IH]; intros [|a l]; cbn [nth_error];
    try discriminate.
  - now intros [= ->].
  - intro H. cbn [firstn app]. f_equal. now apply IH.
Qed.

Lemma skipn_cons {A : Type} (i : nat) (l : list A) (c : A) :
  nth_error l i = Some c -> skipn i l = c :: skipn (S i) l.
Proof.
  revert l. induction i as [|i IH]; intros [|a l]; cbn [nth_error];
    try discriminate.
  - now intros [= ->].
  - intro H. cbn [skipn]. now apply IH.
Qed.

Lemma firstn_app_exact {A : Type} (i : nat) (l tail : list A) :
  (i <= List.length l)%nat -> firstn i (l ++ tail) = firstn i l.
Proof.
  intro H. rewrite firstn_app.
  replace (i - List.length l)%nat with 0%nat by lia.
  cbn [firstn]. apply app_nil_r.
Qed.

Lemma pool_eta (pl : Pool) : {| COINS := COINS pl; draws := draws pl |} = pl.
Proof. now destruct pl. Qed.

Lemma set_score_same (p : Player.t) : Player.set_score (Player.score p) p = p.
Proof. now destruct p. Qed.

Lemma set_score_twice (v w : Z) (p : Player.t) :
  Player.set_score v (Player.set_score w p) = Player.set_score v p.
Proof. reflexivity. Qed.

Section WholeLoop.
Variable env : Env.

(** The passes [n - 1] down to [0], all at once: the coins within reach
    among the first [n] are gone and counted, the others stay in place, and
    the new coins follow at the end. *)
Lemma collect_spec (n : nat) (p : Player.t) (pl : Pool) :
  (n <= List.length (COINS pl))%nat ->
  let px := Player.x p in
  let py := Player.y p in
  let k := List.length (within_reach px py (firstn n (COINS pl))) in
  collect env n p pl =
    (Player.set_score (Player.score p + Z.of_nat k) p,
     spawn_times env k
       {| COINS := out_of_reach px py (firstn n (COINS pl))
                   ++ skipn n (COINS pl);
          draws := draws pl |}).
Proof.
  revert p pl. induction n as [|i IH]; intros p pl Hn; cbv zeta.
  - cbn [collect firstn skipn within_reach out_of_reach filter List.length
         spawn_times app Z.of_nat].
    now rewrite Z.add_0_r, set_score_same, pool_eta.
  - destruct (nth_error (COINS pl) i) as [c|] eqn:Hc;
      [|apply nth_error_None in Hc; lia].
    cbn [collect]. unfold within_reach, out_of_reach.
    rewrite (firstn_snoc i _ c Hc), !filter_app. cbn [filter].
    destruct (Geometry.touches (Player.x p) (Player.y p) c) eqn:Ht;
      cbn [negb].
    + rewrite (collide_at_hit env i p pl c Hc Ht).
      set (p' := Player.set_score (Player.score p + 1)%Z p).
      set (pl' := spawnCoin env
                    {| COINS := splice1 i (COINS pl); draws := draws pl |}).
      assert (Hlen : (i <= List.length (COINS pl'))%nat).
      { subst pl'. rewrite spawnCoin_length. cbn [COINS].
        rewrite splice1_length; lia. }
      rewrite (IH p' pl' Hlen). cbv zeta.
      assert (Hfirst : firstn i (COINS pl') = firstn i (COINS pl)).
      { subst pl'. unfold spawnCoin, splice1. cbn [COINS].
        rewrite <- app_assoc.
        rewrite firstn_app_exact by (rewrite length_firstn; lia).
        apply firstn_all2. rewrite length_firstn. lia. }
      rewrite Hfirst.
      change (Player.x p') with (Player.x p).
      change (Player.y p') with (Player.y p).
      unfold within_reach, out_of_reach.
      rewrite length_app. cbn [List.length].
      rewrite Nat.add_1_r. cbn [spawn_times].
      f_equal.
      * subst p'. rewrite set_score_twice. cbn [Player.score Player.set_score].
        rewrite Nat2Z.inj_succ. f_equal. lia.
      * f_equal. subst pl'. unfold spawnCoin, splice1. cbn [COINS draws].
        f_equal. rewrite app_nil_r.
        rewrite <- !app_assoc.
        rewrite skipn_app, length_firstn.
        replace (Nat.min i (List.length (COINS pl))) with i by lia.
        rewrite Nat.sub_diag. cbn [skipn].
        rewrite skipn_all2 by (rewrite length_firstn; lia).
        now rewrite ?app_nil_r, <- ?app_assoc.
    + rewrite (collide_at_miss env i p pl c Hc Ht).
      assert (Hlen : (i <= List.length (COINS pl))%nat) by lia.
      rewrite (IH p pl Hlen). cbv zeta.
      unfold within_reach, out_of_reach.
      rewrite app_nil_r, (skipn_cons i _ c Hc), <- app_assoc.
      reflexivity.
Qed.
End WholeLoop.

Lemma fresh_coins_succ (env : Env) (u r k : nat) :
  fresh_coins env u r (S k) =
  fresh_coin env u r :: fresh_coins env (S u) (S (S r)) k.
Proof.
  unfold fresh_coins. cbn [seq map]. rewrite !Nat.add_0_r. f_equal.
  rewrite <- seq_shift, map_map. apply map_ext. intro j.
  replace (u + S j)%nat with (S u + j)%nat by lia.
  replace (r + 2 * S j)%nat with (S (S r) + 2 * j)%nat by lia.
  reflexivity.
Qed.

(** [k] calls of [spawnCoin] in a row. *)
Lemma spawn_times_spec (env : Env) (k : nat) (pl : Pool) :
  spawn_times env k pl =
    {| COINS := COINS pl ++
                fresh_coins env (uuid_calls (draws pl))
                  (random_calls (draws pl)) k;
       draws := {| uuid_calls := uuid_calls (draws pl) + k;
                   random_calls := random_calls (draws pl) + 2 * k |} |}.
Proof.
  revert pl. induction k as [|k IH]; intro pl; cbn [spawn_times].
  - unfold fresh_coins. cbn [seq map]. rewrite app_nil_r, !Nat.add_0_r.
    now destruct pl as [coins [u r]].
  - rewrite IH, fresh_coins_succ. unfold spawnCoin, fresh_coin,
      MAP_SIZE_width, MAP_SIZE_height.
    cbn [COINS draws uuid_calls random_calls].
    rewrite <- app_assoc. cbn [app].
    replace (S (uuid_calls (draws pl)) + k)%nat
      with (uuid_calls (draws pl) + S k)%nat by lia.
    replace (S (S (random_calls (draws pl))) + 2 * k)%nat
      with (random_calls (draws pl) + 2 * S k)%nat by lia.
    reflexivity.
Qed.


(** Two of three coins within reach: the score goes from [0] to [2], the
    coin out of reach comes first, and two new coins follow. *)
Lemma two_coins_in_one_pass :
  let after := collisions Sample.env Sample.player
                 (Sample.pool_of
                    [Sample.near; Sample.remote; Sample.coin_at 400 310]) in
  Player.score (fst after) = 2%Z /\
  map Coin.id (COINS (snd after)) = ["c"; "a"; "b"] /\
  map (fun c => (Qred (Coin.x c), Qred (Coin.y c)))
    (firstn 1 (COINS (snd after))) = [(100, 100)].
Proof. vm_compute. repeat split. Qed.

(** ** What the handlers leave alone *)

Lemma run_callback_frame (cb : Server.Callback) (s : Server.State) :
  let s' := fst (Server.run_callback cb s) in
  Server.pool s' = Server.pool s /\
  Server.clients s' = Server.clients s /\
  Server.next_conn s' = Server.next_conn s.
Proof.
  destruct cb as [ws pid | pid message | packet]; cbn.
  - destruct (Server.is_open s ws); repeat split.
  - destruct (Server.on_message pid message (Server.PLAYERS s));
      repeat split.
  - repeat split.
Qed.

(** The firing of a timer changes at most [PLAYERS] and the timers. *)
Lemma on_expire_frame (timer : nat) (s : Server.State) :
  let s' := fst (Server.on_expire timer s) in
  Server.pool s' = Server.pool s /\
  Server.clients s' = Server.clients s /\
  Server.next_conn s' = Server.next_conn s.
Proof.
  unfold Server.on_expire.
  destruct (Server.lookup timer (Server.timers s)) as [cb|];
    [|repeat split].
  match goal with |- context [Server.run_callback cb ?s1] =>
    pose proof (run_callback_frame cb s1) as Hf;
    destruct (Server.run_callback cb s1) as [s' out] end.
  exact Hf.
Qed.

(** ** Where coins appear *)

Lemma Forall_splice1 {A : Type} (Q : A -> Prop) (i : nat) (l : list A) :
  Forall Q l -> Forall Q (splice1 i l).
Proof.
  intro H. unfold splice1.
  rewrite <- (firstn_skipn i l) in H. apply Forall_app in H as [H1 H2].
  apply Forall_app. split; [exact H1|].
  rewrite <- (firstn_skipn 1 (skipn i l)) in H2.
  apply Forall_app in H2 as [_ H2]. now rewrite skipn_skipn in H2.
Qed.

Section Margin.
Variable env : Env.
Hypothesis Hfair : fair env.

Lemma spawnCoin_in_margin (pl : Pool) :
  Forall in_margin (COINS pl) -> Forall in_margin (COINS (spawnCoin env pl)).
Proof.
  intro H. unfold spawnCoin. cbn [COINS]. apply Forall_app. split; [exact H|].
  constructor; [|constructor].
  destruct (Hfair (random_calls (draws pl))) as [Hx0 Hx1].
  destruct (Hfair (S (random_calls (draws pl)))) as [Hy0 Hy1].
  unfold in_margin, MAP_SIZE_width, MAP_SIZE_height. cbn [Coin.x Coin.y].
  repeat split; nra.
Qed.

Lemma spawn_times_in_margin (n : nat) (pl : Pool) :
  Forall in_margin (COINS pl) ->
  Forall in_margin (COINS (spawn_times env n pl)).
Proof.
  revert pl. induction n as [|n IH]; intros pl H; cbn [spawn_times].
  - exact H.
  - apply IH. now apply spawnCoin_in_margin.
Qed.

Lemma collect_in_margin {P : Type} `{Body P} (n : nat) (p : P) (pl : Pool) :
  Forall in_margin (COINS pl) ->
  Forall in_margin (COINS (snd (collect env n p pl))).
Proof.
  revert p pl. induction n as [|i IH]; intros p pl Hm; cbn [collect].
  - exact Hm.
  - unfold collide_at. destruct (nth_error (COINS pl) i) as [c|];
      [|now apply IH].
    destruct (Geometry.touches (body_x p) (body_y p) c); [|now apply IH].
    apply IH. apply spawnCoin_in_margin. cbn [COINS].
    now apply Forall_splice1.
Qed.

Lemma each_player_in_margin (ps : Server.Players) (pl : Pool) :
  Forall in_margin (COINS pl) ->
  Forall in_margin (COINS (snd (Server.each_player env ps pl))).
Proof.
  revert pl. induction ps as [|[k p] rest IH]; intros pl Hm;
    cbn [Server.each_player].
  - exact Hm.
  - pose proof (collect_in_margin (List.length (COINS pl)) (Server.move p)
                  pl Hm) as H1.
    fold (collisions env (Server.move p) pl) in H1.
    destruct (collisions env (Server.move p) pl) as [p' pl'].
    specialize (IH pl' H1).
    destruct (Server.each_player env rest pl') as [rest' pl'']. exact IH.
Qed.

Lemma step_in_margin (s : Server.State) (e : Server.Event) :
  Forall in_margin (COINS (Server.pool s)) ->
  Forall in_margin (COINS (Server.pool (fst (Server.step env s e)))).
Proof.
  intro Hm. destruct e as [| ws message | ws | now | timer | ws];
    cbn [Server.step].
  - exact Hm.
  - unfold Server.on_incoming.
    destruct (Server.lookup ws (Server.clients s)); exact Hm.
  - unfold Server.on_close.
    destruct (Server.lookup ws (Server.clients s)); exact Hm.
  - unfold Server.on_tick.
    pose proof (each_player_in_margin (Server.PLAYERS s) (Server.pool s) Hm)
      as H1.
    destruct (Server.each_player env (Server.PLAYERS s) (Server.pool s))
      as [ps pl]. exact H1.
  - destruct (on_expire_frame timer s) as [Hp _]. now rewrite Hp.
  - unfold Server.on_closing.
    destruct (Server.lookup ws (Server.clients s)); exact Hm.
Qed.

Lemma run_in_margin (evs : list Server.Event) (s : Server.State) :
  Forall in_margin (COINS (Server.pool s)) ->
  Forall in_margin (COINS (Server.pool (fst (Server.run env s evs)))).
Proof.
  revert s. induction evs as [|e evs IH]; intros s Hm; cbn [Server.run].
  - exact Hm.
  - pose proof (step_in_margin s e Hm) as H1.
    destruct (Server.step env s e) as [s1 o1].
    specialize (IH s1 H1). destruct (Server.run env s1 evs) as [s2 o2].
    exact IH.
Qed.
End Margin.

(** X2. When [Math.random ()] returns numbers of [[0, 1)], every coin of
    every state the server reaches lies in [[10, 790) x [10, 590)]: a coin
    never touches a wall. *)
Theorem coins_keep_their_margin (env : Env) (evs : list Server.Event) :
  fair env ->
  Forall in_margin
    (COINS (Server.pool (fst (Server.run env (Server.start env) evs)))).
Proof.
  intro Hfair. apply (run_in_margin env Hfair).
  apply (spawn_times_in_margin env Hfair 5). constructor.
Qed.

Lemma coins_keep_their_margin_witness :
  Forall in_margin
    (COINS (Server.pool
              (fst (Server.run Sample2.even_env
                      (Server.start Sample2.even_env) Sample.one_tick_up)))).
Proof.
  apply (coins_keep_their_margin Sample2.even_env Sample.one_tick_up).
  intro n. split; [discriminate | reflexivity].
Defined.

(** ** One tick of movement *)

Lemma clamp_spec (hi v : Q) :
  0 <= hi ->
  (v < 0 /\ clamp hi v == 0) \/
  ((0 <= v /\ v <= hi) /\ clamp hi v == v) \/
  (hi < v /\ clamp hi v == hi).
Proof.
  intro Hhi. unfold clamp, Math_max, Math_min.
  destruct (Qlt_le_dec v 0) as [Hneg|Hpos].
  - left. split; [exact Hneg|].
    rewrite (Q.min_r hi v) by lra. apply Q.max_l. lra.
  - destruct (Qlt_le_dec hi v) as [Hbig|Hsmall].
    + right. right. split; [exact Hbig|].
      rewrite (Q.min_l hi v) by lra. now apply Q.max_r.
    + right. left. split; [split; assumption|].
      rewrite (Q.min_r hi v) by exact Hsmall. now apply Q.max_r.
Qed.

(** Clamping a point that is one step from a point of the axis leaves it
    within one step of that point. *)
Lemma clamp_near (hi x v : Q) :
  0 <= x -> x <= hi ->
  x - MOVEMENT_SPEED <= v -> v <= x + MOVEMENT_SPEED ->
  x - MOVEMENT_SPEED <= clamp hi v /\ clamp hi v <= x + MOVEMENT_SPEED.
Proof.
  unfold MOVEMENT_SPEED. intros H0 H1 H2 H3.
  destruct (clamp_spec hi v) as [[Hv ->]|[[Hv ->]|[Hv ->]]]; lra.
Qed.

Ltac clamp_cases :=
  match goal with
  | |- context [clamp ?hi ?v] =>
      let Hv := fresh "Hv" in
      let Hc := fresh "Hc" in
      destruct (clamp_spec hi v ltac:(discriminate))
        as [[Hv Hc]|[[Hv Hc]|[Hv Hc]]];
      rewrite Hc
  end.

(** The movement step of the loop, for one player. *)
Lemma move_one_step (p : Player.t) :
  on_map (Player.x p) (Player.y p) ->
  let pr := Player.pressed p in
  let dx := pace (Pressed.right pr) - pace (Pressed.left pr) in
  let dy := pace (Pressed.down pr) - pace (Pressed.up pr) in
  let q := Server.move p in
  ((Player.x p - MOVEMENT_SPEED <= Player.x q /\
    Player.x q <= Player.x p + MOVEMENT_SPEED) /\
   (Player.y p - MOVEMENT_SPEED <= Player.y q /\
    Player.y q <= Player.y p + MOVEMENT_SPEED)) /\
  (inside MAP_SIZE_width (Player.x p) -> Player.x q == Player.x p + dx) /\
  (inside MAP_SIZE_height (Player.y p) -> Player.y q == Player.y p + dy) /\
  (Pressed.left pr = Pressed.right pr -> Player.x q == Player.x p) /\
  (Pressed.up pr = Pressed.down pr -> Player.y q == Player.y p).
Proof.
  destruct p as [id x y score color [up down left right]].
  cbn [Player.x Player.y Player.pressed]. intros [[Hx0 Hx1] [Hy0 Hy1]].
  cbv zeta. unfold inside, MAP_SIZE_width, MAP_SIZE_height in *.
  cbn [Pressed.up Pressed.down Pressed.left Pressed.right].
  destruct up, down, left, right;
    cbn [Server.move pace Player.x Player.y Player.set_x Player.set_y
         Player.pressed Player.score Player.id Player.color
         Pressed.up Pressed.down Pressed.left Pressed.right];
    unfold Server.move, MOVEMENT_SPEED, MAP_SIZE_width, MAP_SIZE_height;
    cbn [Player.x Player.y Player.set_x Player.set_y
         Player.pressed Player.score Player.id Player.color
         Pressed.up Pressed.down Pressed.left Pressed.right];
    repeat split; intros; try discriminate;
    repeat match goal with H : _ /\ _ |- _ => destruct H end;
    first [reflexivity | clamp_cases; lra].
Qed.

(** ** More on association lists and timers *)

Section DictMore.
Context {A : Type}.
Implicit Types (d : list (string * A)) (k : string).

Lemma get_set_other k k' d (v : A) :
  k <> k' -> Dict.get k (Dict.set k' v d) = Dict.get k d.
Proof.
  intro Hne. induction d as [|[k0 v0] d IH]; cbn [Dict.get Dict.set].
  - destruct (String.eqb_spec k k'); [contradiction | reflexivity].
  - destruct (String.eqb_spec k' k0) as [->|Hk0]; cbn [Dict.get].
    + destruct (String.eqb_spec k k0); [contradiction | reflexivity].
    + now rewrite IH.
Qed.

Lemma keys_set_present k d (v v0 : A) :
  Dict.get k d = Some v0 -> Dict.keys (Dict.set k v d) = Dict.keys d.
Proof.
  unfold Dict.keys.
  induction d as [|[k0 w] d IH]; cbn [Dict.get Dict.set map fst];
    [discriminate|].
  destruct (String.eqb k k0); cbn [map fst]; [reflexivity|].
  intro H. now rewrite IH.
Qed.

Lemma keys_set_absent k d (v : A) :
  Dict.get k d = None ->
  Dict.keys (Dict.set k v d) = (Dict.keys d ++ [k])%list.
Proof.
  unfold Dict.keys.
  induction d as [|[k0 w] d IH]; cbn [Dict.get Dict.set map fst app];
    [reflexivity|].
  destruct (String.eqb k k0); cbn [map fst]; [discriminate|].
  intro H. now rewrite IH.
Qed.

Lemma get_None_keys k d : Dict.get k d = None <-> ~ In k (Dict.keys d).
Proof.
  unfold Dict.keys.
  induction d as [|[k0 w] d IH]; cbn [Dict.get map fst In].
  - tauto.
  - destruct (String.eqb_spec k k0) as [->|Hne].
    + split; [discriminate | intro H; exfalso; apply H; now left].
    + rewrite IH. split; intro H; [intros [Heq|Hin] | ]; auto.
Qed.

Lemma get_remove_same k d : Dict.get k (Dict.remove k d) = None.
Proof.
  induction d as [|[k0 w] d IH]; cbn [Dict.remove Dict.get]; [reflexivity|].
  destruct (String.eqb k k0) eqn:E; [exact IH|].
  cbn [Dict.get]. now rewrite E.
Qed.

Lemma get_remove_other k k' d :
  k <> k' -> Dict.get k (Dict.remove k' d) = Dict.get k d.
Proof.
  intro Hne. induction d as [|[k0 w] d IH]; cbn [Dict.remove Dict.get];
    [reflexivity|].
  destruct (String.eqb_spec k' k0) as [->|Hk0]; cbn [Dict.get].
  - destruct (String.eqb_spec k k0); [contradiction | exact IH].
  - now rewrite IH.
Qed.

Lemma keys_remove_subset k x d :
  In x (Dict.keys (Dict.remove k d)) -> In x (Dict.keys d) /\ x <> k.
Proof.
  unfold Dict.keys.
  induction d as [|[k0 w] d IH]; cbn [Dict.remove map fst In]; [tauto|].
  destruct (String.eqb_spec k k0) as [->|Hne]; cbn [map fst In].
  - intro H. destruct (IH H). tauto.
  - intros [<-|H]; [split; [now left | congruence]|].
    destruct (IH H). tauto.
Qed.
End DictMore.

Lemma lookup_drop_same {A : Type} (n : nat) (l : list (nat * A)) :
  Server.lookup n (Server.drop n l) = None.
Proof.
  unfold Server.drop.
  induction l as [|[m a] l IH]; cbn [filter Server.lookup fst];
    [reflexivity|].
  destruct (Nat.eqb n m) eqn:E; cbn [negb]; [exact IH|].
  cbn [Server.lookup]. now rewrite E.
Qed.

Lemma lookup_drop_other {A : Type} (n n' : nat) (l : list (nat * A)) :
  n <> n' -> Server.lookup n (Server.drop n' l) = Server.lookup n l.
Proof.
  intro Hne. unfold Server.drop.
  induction l as [|[m a] l IH]; cbn [filter Server.lookup fst];
    [reflexivity|].
  destruct (Nat.eqb_spec n' m) as [->|Hm]; cbn [negb Server.lookup].
  - destruct (Nat.eqb_spec n m); [contradiction | exact IH].
  - now rewrite IH.
Qed.

Lemma lookup_app_Some {A : Type} (n : nat) (l tail : list (nat * A)) (a : A) :
  Server.lookup n l = Some a -> Server.lookup n (l ++ tail) = Some a.
Proof.
  induction l as [|[m b] l IH]; cbn [Server.lookup app]; [discriminate|].
  destruct (Nat.eqb n m); [trivial | exact IH].
Qed.

Lemma lookup_In_fst {A : Type} (n : nat) (l : list (nat * A)) :
  In n (map fst l) -> Server.lookup n l <> None.
Proof.
  induction l as [|[m b] l IH]; cbn [map fst In Server.lookup]; [tauto|].
  destruct (Nat.eqb_spec n m) as [->|Hne]; [discriminate|].
  intros [Heq|Hin]; [congruence | now apply IH].
Qed.

(** ** The game loop, player by player *)

Lemma move_keeps (p : Player.t) :
  Player.pressed (Server.move p) = Player.pressed p /\
  Player.score (Server.move p) = Player.score p /\
  Player.id (Server.move p) = Player.id p /\
  Player.color (Server.move p) = Player.color p.
Proof.
  destruct p as [id x y score color [[] [] [] []]]; repeat split.
Qed.

Section EachPlayer.
Variable env : Env.

Lemma each_player_keys (ps : Server.Players) (pl : Pool) :
  Dict.keys (fst (Server.each_player env ps pl)) = Dict.keys ps.
Proof.
  unfold Dict.keys. revert pl.
  induction ps as [|[k p] rest IH]; intro pl; cbn [Server.each_player].
  - reflexivity.
  - destruct (collisions env (Server.move p) pl) as [p' pl'].
    specialize (IH pl').
    destruct (Server.each_player env rest pl') as [rest' pl''].
    cbn [fst map] in *. now rewrite IH.
Qed.

(** Each player goes through [move] and the collision loop, once. *)
Lemma each_player_get (ps : Server.Players) (pl : Pool) (id : string)
    (p : Player.t) :
  Dict.get id ps = Some p ->
  exists p', Dict.get id (fst (Server.each_player env ps pl)) = Some p' /\
    same_but_score (Server.move p) p' /\
    (Player.score p <= Player.score p')%Z.
Proof.
  revert pl. induction ps as [|[k q] rest IH]; intro pl;
    cbn [Dict.get Server.each_player]; [discriminate|].
  pose proof (collect_same_but_score env (List.length (COINS pl))
                (Server.move q) pl) as [Hs Hle].
  fold (collisions env (Server.move q) pl) in Hs, Hle.
  destruct (collisions env (Server.move q) pl) as [q' pl'].
  specialize (IH pl').
  destruct (Server.each_player env rest pl') as [rest' pl''].
  cbn [fst Dict.get] in *.
  destruct (String.eqb id k); [|exact IH].
  intros [= ->]. exists q'. repeat split; try assumption.
  destruct (move_keeps p) as (_ & Hsc & _). now rewrite <- Hsc.
Qed.
End EachPlayer.

(** X3. One tick of the game loop moves a player that is on the map by
    at most one step of [5] on each axis; opposite keys cancel; away from
    the walls the move is exactly one step for each held key, so a diagonal
    covers [5] on both axes.  The tick changes nothing else of the player
    but its score, which can only grow (by the coins collected). *)
Theorem tick_moves_one_step (env : Env) (s : Server.State) (now : Z)
    (id : string) (p : Player.t) :
  Dict.get id (Server.PLAYERS s) = Some p ->
  on_map (Player.x p) (Player.y p) ->
  exists q,
    Dict.get id (Server.PLAYERS (fst (Server.step env s (Server.Tick now))))
      = Some q /\
    let pr := Player.pressed p in
    let dx := pace (Pressed.right pr) - pace (Pressed.left pr) in
    let dy := pace (Pressed.down pr) - pace (Pressed.up pr) in
    ((Player.x p - MOVEMENT_SPEED <= Player.x q /\
      Player.x q <= Player.x p + MOVEMENT_SPEED) /\
     (Player.y p - MOVEMENT_SPEED <= Player.y q /\
      Player.y q <= Player.y p + MOVEMENT_SPEED)) /\
    (inside MAP_SIZE_width (Player.x p) -> Player.x q == Player.x p + dx) /\
    (inside MAP_SIZE_height (Player.y p) -> Player.y q == Player.y p + dy) /\
    (Pressed.left pr = Pressed.right pr -> Player.x q == Player.x p) /\
    (Pressed.up pr = Pressed.down pr -> Player.y q == Player.y p) /\
    Player.pressed q = pr /\ (Player.score p <= Player.score q)%Z /\
    Player.id q = Player.id p /\ Player.color q = Player.color p.
Proof.
  intros Hp Hmap. cbn [Server.step]. unfold Server.on_tick.
  destruct (each_player_get env (Server.PLAYERS s) (Server.pool s) id p Hp)
    as (q & Hq & Hs & Hle).
  destruct (Server.each_player env (Server.PLAYERS s) (Server.pool s))
    as [ps pl]. cbn [fst Server.setTimeout Server.PLAYERS] in *.
  exists q. split; [exact Hq|]. cbv zeta.
  destruct (move_one_step p Hmap) as (Hb & Hx & Hy & Hcx & Hcy).
  destruct (move_keeps p) as (Hpr & _ & Hid & Hco).
  unfold same_but_score in Hs.
  assert (Ex : Player.x q = Player.x (Server.move p)) by now rewrite Hs.
  assert (Ey : Player.y q = Player.y (Server.move p)) by now rewrite Hs.
  assert (Epr : Player.pressed q = Player.pressed (Server.move p))
    by now rewrite Hs.
  assert (Eid : Player.id q = Player.id (Server.move p)) by now rewrite Hs.
  assert (Eco : Player.color q = Player.color (Server.move p))
    by now rewrite Hs.
  rewrite Ex, Ey, Epr, Eid, Eco.
  repeat split; try tauto; congruence.
Qed.

Lemma tick_moves_one_step_witness :
  exists q,
    Dict.get "f"
      (Server.PLAYERS
         (fst (Server.step Sample.env Sample2.running (Server.Tick 1000))))
      = Some q /\
    Player.x q == 395 /\ Player.y q == 295.
Proof.
  assert (Hm : on_map (Player.x Sample2.runner) (Player.y Sample2.runner))
    by (repeat split; discriminate).
  destruct (tick_moves_one_step Sample.env Sample2.running 1000 "f"
              Sample2.runner eq_refl Hm)
    as (q & Hq & _ & Hx & Hy & _).
  exists q. split; [exact Hq|].
  assert (Hix : inside MAP_SIZE_width (Player.x Sample2.runner))
    by (split; discriminate).
  assert (Hiy : inside MAP_SIZE_height (Player.y Sample2.runner))
    by (split; discriminate).
  split.
  - rewrite (Hx Hix). reflexivity.
  - rewrite (Hy Hiy). reflexivity.
Defined.

(** ** Leaving *)

Lemma on_message_keys (playerId : string) (message : Message)
    (ps ps' : Server.Players) :
  Server.on_message playerId message ps = Some ps' ->
  Dict.keys ps' = Dict.keys ps.
Proof.
  intro E. pose proof (on_message_cases playerId message ps) as Hc.
  rewrite E in Hc.
  destruct Hc as [[-> _]|[p (Hp & _ & _ & [[_ ->]|[_ ->]])]];
    [reflexivity | |]; exact (keys_set_present _ _ _ _ Hp).
Qed.

Lemma players_of_state_packet (ps : Server.Players) (coins : list Coin.t)
    (now : Z) :
  players_of (Server.state_packet (Server.gameState ps coins now)) =
  Server.playersForSend ps.
Proof. reflexivity. Qed.

Lemma keys_playersForSend (ps : Server.Players) :
  Dict.keys (Server.playersForSend ps) = Dict.keys ps.
Proof.
  unfold Dict.keys, Server.playersForSend. rewrite map_map.
  apply map_ext. reflexivity.
Qed.

Section Leaving.
Variable env : Env.

(** Only a connection adds an id to [PLAYERS], and a snapshot shows the
    ids of [PLAYERS]. *)
Lemma step_no_new_id (s : Server.State) (e : Server.Event) (k : string) :
  e <> Server.Connection ->
  ~ In k (Dict.keys (Server.PLAYERS s)) ->
  ~ In k (Dict.keys (Server.PLAYERS (fst (Server.step env s e)))) /\
  absent_from_snapshots k (snd (Server.step env s e)).
Proof.
  intros He Hk. unfold absent_from_snapshots.
  destruct e as [| ws message | ws | now | timer | ws];
    cbn [Server.step]; [contradiction | | | | |].
  - unfold Server.on_incoming.
    destruct (Server.lookup ws (Server.clients s)); cbn; split;
      try assumption; constructor.
  - unfold Server.on_close.
    destruct (Server.lookup ws (Server.clients s)) as [pid|]; cbn;
      (split; [|constructor]); [|assumption].
    intro H. apply keys_remove_subset in H. tauto.
  - unfold Server.on_tick.
    pose proof (each_player_keys env (Server.PLAYERS s) (Server.pool s)) as Hkeys.
    destruct (Server.each_player env (Server.PLAYERS s) (Server.pool s))
      as [ps pl]. cbn [fst] in Hkeys.
    unfold Server.setTimeout. cbn [fst snd Server.PLAYERS Server.snapshots].
    split; [now rewrite Hkeys|].
    constructor; [|constructor].
    rewrite players_of_state_packet. apply get_None_keys.
    now rewrite keys_playersForSend, Hkeys.
  - unfold Server.on_expire.
    destruct (Server.lookup timer (Server.timers s)) as [cb|];
      [|cbn; split; [assumption | constructor]].
    match goal with |- context [Server.run_callback cb ?s1] =>
      pose proof (run_callback_no_snapshot cb s1) as Hsnap;
      assert (Hkeys : Dict.keys (Server.PLAYERS
                                   (fst (Server.run_callback cb s1))) =
                      Dict.keys (Server.PLAYERS s));
      [|destruct (Server.run_callback cb s1) as [s' out]] end.
    { destruct cb as [w pid | pid message | packet]; cbn.
      - now destruct (Server.is_open _ w).
      - destruct (Server.on_message pid message (Server.PLAYERS s))
          as [ps'|] eqn:E; [|reflexivity].
        exact (on_message_keys _ _ _ _ E).
      - reflexivity. }
    cbn [fst snd Server.snapshots] in *. rewrite Hkeys, Hsnap.
    split; [assumption | constructor].
  - unfold Server.on_closing.
    destruct (Server.lookup ws (Server.clients s)); cbn; split;
      try assumption; constructor.
Qed.

Lemma run_no_new_id (evs : list Server.Event) (s : Server.State) (k : string) :
  ~ In Server.Connection evs ->
  ~ In k (Dict.keys (Server.PLAYERS s)) ->
  ~ In k (Dict.keys (Server.PLAYERS (fst (Server.run env s evs)))) /\
  absent_from_snapshots k (snd (Server.run env s evs)).
Proof.
  revert s. induction evs as [|e evs IH]; intros s Hno Hk; cbn [Server.run].
  - split; [exact Hk | constructor].
  - assert (He : e <> Server.Connection) by (intros ->; apply Hno; now left).
    destruct (step_no_new_id s e k He Hk) as [H1 H2].
    destruct (Server.step env s e) as [s1 o1]. cbn [fst snd] in *.
    destruct (IH s1 (fun H => Hno (or_intror H)) H1) as [H3 H4].
    destruct (Server.run env s1 evs) as [s2 o2]. cbn [fst snd] in *.
    split; [exact H3|]. unfold absent_from_snapshots in *.
    rewrite snapshots_app. apply Forall_app. split; assumption.
Qed.
End Leaving.

(** X4. When a socket closes, its player is deleted at once and the socket
    leaves the list of clients; every other player stays as it was, and the
    timers already armed are not touched.  From then on, as long as nobody
    connects, no snapshot the server builds shows that player. *)
Theorem closed_player_leaves_the_world (env : Env) (s : Server.State)
    (ws : ConnId) (playerId : string) (evs : list Server.Event) :
  Server.lookup ws (Server.clients s) = Some playerId ->
  let s1 := fst (Server.on_close ws s) in
  (Dict.get playerId (Server.PLAYERS s1) = None /\
   Server.lookup ws (Server.clients s1) = None) /\
  (forall k, k <> playerId ->
     Dict.get k (Server.PLAYERS s1) = Dict.get k (Server.PLAYERS s)) /\
  Server.timers s1 = Server.timers s /\
  (~ In Server.Connection evs ->
   absent_from_snapshots playerId (snd (Server.run env s1 evs))).
Proof.
  intro Hl. cbv zeta. unfold Server.on_close. rewrite Hl.
  cbn [fst Server.PLAYERS Server.clients Server.timers].
  split; [split; [apply get_remove_same | apply lookup_drop_same]|].
  split; [intros k Hk; now apply get_remove_other|].
  split; [reflexivity|].
  intro Hno. apply (run_no_new_id env evs _ playerId Hno).
  cbn [Server.PLAYERS]. apply get_None_keys, get_remove_same.
Qed.

Lemma closed_player_leaves_the_world_witness :
  absent_from_snapshots "f"
    (snd (Server.run Sample.env (fst (Server.on_close 0%nat Sample.held))
            Sample2.after_leaving)).
Proof.
  apply (closed_player_leaves_the_world Sample.env Sample.held 0%nat "f"
           Sample2.after_leaving eq_refl).
  cbn. intuition discriminate.
Defined.

(** X5. A message of a player that has left, whose timer fires after the
    player was deleted, changes nothing: whatever the frame holds, the
    server is left as it was, and the only thing that can happen is the
    log line of a frame that does not parse. *)
Theorem late_message_is_harmless (playerId : string) (message : Message)
    (s : Server.State) :
  Dict.get playerId (Server.PLAYERS s) = None ->
  dropped playerId message s /\
  Forall (fun e => e = Server.Logged)
    (snd (Server.run_callback (Server.HandleMessage playerId message) s)).
Proof.
  intro Hnone. unfold dropped. cbn [Server.run_callback].
  pose proof (on_message_cases playerId message (Server.PLAYERS s)) as Hc.
  destruct (Server.on_message playerId message (Server.PLAYERS s))
    as [ps'|]; cbn [fst snd].
  - split; [|constructor].
    destruct Hc as [[-> _]|[p (Hp & _)]]; [now destruct s | congruence].
  - split; [reflexivity | repeat constructor].
Qed.

Lemma late_message_is_harmless_witness :
  dropped "f" (Sample.input "up" "stop") (fst (Server.on_close 0%nat Sample.held)).
Proof.
  apply (late_message_is_harmless "f" (Sample.input "up" "stop")
           (fst (Server.on_close 0%nat Sample.held))).
  reflexivity.
Defined.

(** ** What a message can change *)

Lemma get_In_keys {A : Type} (k : string) (d : list (string * A)) (v : A) :
  Dict.get k d = Some v -> In k (Dict.keys d).
Proof.
  intro H. destruct (in_dec string_dec k (Dict.keys d)) as [Hin|Hout];
    [exact Hin|].
  apply get_None_keys in Hout. congruence.
Qed.

(** X6. The delayed handler of a message changes at most the player of
    its sender: the ids in [PLAYERS] and their order, every other player,
    the coins, the clients and the timers are what they were.  When the
    action is [start] or [stop], the sender's position and score are
    untouched as well: an intent never moves anybody by itself. *)
Theorem message_touches_only_its_sender (playerId : string)
    (message : Message) (s : Server.State) :
  let s' := fst (Server.run_callback
                   (Server.HandleMessage playerId message) s) in
  (Dict.keys (Server.PLAYERS s') = Dict.keys (Server.PLAYERS s) /\
   forall k, k <> playerId ->
     Dict.get k (Server.PLAYERS s') = Dict.get k (Server.PLAYERS s)) /\
  (Server.pool s' = Server.pool s /\ Server.clients s' = Server.clients s /\
   Server.timers s' = Server.timers s) /\
  (~ bad_action message ->
   forall p p',
     Dict.get playerId (Server.PLAYERS s) = Some p ->
     Dict.get playerId (Server.PLAYERS s') = Some p' ->
     Player.x p' = Player.x p /\ Player.y p' = Player.y p /\
     Player.score p' = Player.score p).
Proof.
  cbv zeta. cbn [Server.run_callback].
  pose proof (on_message_cases playerId message (Server.PLAYERS s)) as Hc.
  destruct (Server.on_message playerId message (Server.PLAYERS s))
    as [ps'|] eqn:E; cbn [fst];
    [|repeat split; intros; congruence].
  unfold Server.with_players.
  cbn [Server.PLAYERS Server.pool Server.clients Server.timers].
  split; [split|split].
  - exact (on_message_keys _ _ _ _ E).
  - intros k Hk.
    destruct Hc as [[-> _]|[p (Hp & _ & _ & [[_ ->]|[_ ->]])]];
      [reflexivity | |]; now apply get_set_other.
  - repeat split.
  - intros Hgood p p' Hp Hp'.
    destruct Hc as [[-> _]|[q (Hq & _ & _ & [[Hbad _]|[_ ->]])]].
    + rewrite Hp in Hp'. injection Hp' as <-. repeat split.
    + contradiction.
    + rewrite get_set_same in Hp'. injection Hp' as <-.
      rewrite Hp in Hq. injection Hq as <-. repeat split.
Qed.

Lemma message_touches_only_its_sender_witness :
  exists p p',
    Dict.get "f" (Server.PLAYERS Sample.lobby) = Some p /\
    Dict.get "f"
      (Server.PLAYERS
         (fst (Server.run_callback
                 (Server.HandleMessage "f" (Sample.input "up" "start"))
                 Sample.lobby))) = Some p' /\
    Player.x p' = Player.x p /\ Player.y p' = Player.y p /\
    Player.score p' = Player.score p.
Proof.
  assert (Hgood : ~ bad_action (Sample.input "up" "start"))
    by (intro H; discriminate H).
  eexists. eexists.
  split; [vm_compute; reflexivity|].
  split; [vm_compute; reflexivity|].
  apply (proj2 (proj2 (message_touches_only_its_sender "f"
                         (Sample.input "up" "start") Sample.lobby)) Hgood);
    vm_compute; reflexivity.
Defined.

(** ** Scores *)

(** X7. No message, tick, close or timer ever lowers the score of a
    player or changes its id or colour: as long as a player is in
    [PLAYERS], each event other than a new connection leaves its score at
    least what it was. *)
Theorem score_never_drops (env : Env) (s : Server.State) (e : Server.Event)
    (id : string) (p p' : Player.t) :
  e <> Server.Connection ->
  Dict.get id (Server.PLAYERS s) = Some p ->
  Dict.get id (Server.PLAYERS (fst (Server.step env s e))) = Some p' ->
  (Player.score p <= Player.score p')%Z /\
  Player.id p' = Player.id p /\ Player.color p' = Player.color p.
Proof.
  intros He Hp Hp'.
  assert (Hsame : forall q, Some q = Some p ->
            (Player.score p <= Player.score q)%Z /\
            Player.id q = Player.id p /\ Player.color q = Player.color p)
    by (intros q [= ->]; repeat split; lia).
  destruct e as [| ws message | ws | now | timer | ws];
    cbn [Server.step] in Hp'; [contradiction | | | | |].
  - unfold Server.on_incoming in Hp'.
    destruct (Server.lookup ws (Server.clients s)); cbn in Hp';
      apply Hsame; congruence.
  - unfold Server.on_close in Hp'.
    destruct (Server.lookup ws (Server.clients s)) as [pid|]; cbn in Hp';
      [|apply Hsame; congruence].
    destruct (string_dec id pid) as [->|Hne].
    + rewrite get_remove_same in Hp'. discriminate.
    + rewrite get_remove_other in Hp' by exact Hne. apply Hsame. congruence.
  - unfold Server.on_tick in Hp'.
    destruct (each_player_get env (Server.PLAYERS s) (Server.pool s) id p Hp)
      as (q & Hq & Hs & Hle).
    destruct (Server.each_player env (Server.PLAYERS s) (Server.pool s))
      as [ps pl]. cbn in Hp', Hq. rewrite Hq in Hp'. injection Hp' as <-.
    split; [exact Hle|]. unfold same_but_score in Hs. rewrite Hs.
    destruct (move_keeps p) as (_ & _ & Hid & Hcol).
    cbn [Player.id Player.color Player.set_score]. split; assumption.
  - unfold Server.on_expire in Hp'.
    destruct (Server.lookup timer (Server.timers s)) as [cb|];
      [|apply Hsame; cbn in Hp'; congruence].
    destruct cb as [w pid | pid message | packet];
      cbn [Server.run_callback] in Hp'.
    + destruct (Server.is_open _ w); cbn in Hp'; apply Hsame; congruence.
    + cbn [Server.PLAYERS] in Hp'.
      pose proof (on_message_cases pid message (Server.PLAYERS s)) as Hc.
      destruct (Server.on_message pid message (Server.PLAYERS s))
        as [ps'|]; cbn in Hp'; [|apply Hsame; congruence].
      destruct Hc as [[-> _]|[q (Hq & _ & _ & Hc)]];
        [apply Hsame; congruence|].
      destruct (string_dec id pid) as [->|Hne].
      * rewrite Hp in Hq. injection Hq as <-.
        destruct Hc as [[_ ->]|[_ ->]]; rewrite get_set_same in Hp';
          injection Hp' as <-.
        -- destruct (single_shot_keeps (key_of message) p)
             as (_ & Hsc & Hid & Hcol).
           rewrite Hsc. repeat split; try assumption. lia.
        -- repeat split. cbn. lia.
      * destruct Hc as [[_ ->]|[_ ->]];
          rewrite get_set_other in Hp' by exact Hne;
          apply Hsame; congruence.
    + cbn in Hp'. apply Hsame. congruence.
  - unfold Server.on_closing in Hp'.
    destruct (Server.lookup ws (Server.clients s)); cbn in Hp';
      apply Hsame; congruence.
Qed.

Lemma score_never_drops_witness :
  exists p p',
    Dict.get "f" (Server.PLAYERS Sample.held) = Some p /\
    Dict.get "f"
      (Server.PLAYERS
         (fst (Server.step Sample.env Sample.held (Server.Tick 1000))))
      = Some p' /\
    (Player.score p <= Player.score p')%Z /\
    Player.id p' = Player.id p /\ Player.color p' = Player.color p.
Proof.
  assert (Hev : Server.Tick 1000 <> Server.Connection) by discriminate.
  eexists. eexists.
  split; [vm_compute; reflexivity|].
  split; [vm_compute; reflexivity|].
  apply (score_never_drops Sample.env Sample.held (Server.Tick 1000) "f"
           _ _ Hev); vm_compute; reflexivity.
Defined.

(** ** Who is in the world *)

Lemma Forall_set_key {A : Type} (Q : string * A -> Prop) (k : string) (v : A)
    (d : list (string * A)) :
  Q (k, v) -> Forall Q d -> Forall Q (Dict.set k v d).
Proof.
  intros Hv. induction 1 as [|[k' v'] d' Hx Hd IH]; cbn [Dict.set].
  - constructor; [exact Hv | constructor].
  - destruct (String.eqb_spec k k') as [<-|Hne]; constructor; auto.
Qed.

Lemma keys_set_subset {A : Type} (k x : string) (v : A)
    (d : list (string * A)) :
  In x (Dict.keys (Dict.set k v d)) -> x = k \/ In x (Dict.keys d).
Proof.
  destruct (Dict.get k d) as [v0|] eqn:E.
  - rewrite (keys_set_present k d v v0 E). now right.
  - rewrite (keys_set_absent k d v E), in_app_iff.
    intros [H|[<-|[]]]; auto.
Qed.

Lemma NoDup_lookup {A : Type} (n : nat) (a : A) (l : list (nat * A)) :
  NoDup (map fst l) -> In (n, a) l -> Server.lookup n l = Some a.
Proof.
  induction l as [|[m b] l IH]; cbn [map fst In Server.lookup]; [tauto|].
  intros Hn [Heq|Hin].
  - injection Heq as -> ->. now rewrite Nat.eqb_refl.
  - inversion Hn as [|? ? Hnot Hrest]; subst.
    destruct (Nat.eqb_spec n m) as [->|Hne]; [|now apply IH].
    exfalso. apply Hnot. apply in_map_iff. now exists (m, a).
Qed.

Lemma drop_fst_NoDup {A : Type} (n : nat) (l : list (nat * A)) :
  NoDup (map fst l) -> NoDup (map fst (Server.drop n l)).
Proof.
  unfold Server.drop.
  induction l as [|[m b] l IH]; cbn [filter map fst]; intro Hn;
    [constructor|].
  inversion Hn as [|? ? Hnot Hrest]; subst.
  destruct (Nat.eqb n m); cbn [negb map fst]; [now apply IH|].
  constructor; [|now apply IH].
  intro Hin. apply Hnot. apply in_map_iff in Hin as [x [Hx Hin]].
  apply filter_In in Hin as [Hin _]. apply in_map_iff. now exists x.
Qed.

Lemma on_expire_players (timer : nat) (s : Server.State) :
  Server.PLAYERS (fst (Server.on_expire timer s)) = Server.PLAYERS s \/
  exists playerId message,
    Server.on_message playerId message (Server.PLAYERS s) =
      Some (Server.PLAYERS (fst (Server.on_expire timer s))).
Proof.
  unfold Server.on_expire.
  destruct (Server.lookup timer (Server.timers s)) as [cb|]; [|now left].
  destruct cb as [w pid | pid message | packet]; cbn [Server.run_callback].
  - left. now destruct (Server.is_open _ w).
  - cbn [Server.PLAYERS].
    destruct (Server.on_message pid message (Server.PLAYERS s)) as [ps'|]
      eqn:E; [|now left].
    right. exists pid, message. exact E.
  - now left.
Qed.

Lemma on_message_entries (playerId : string) (message : Message)
    (ps ps' : Server.Players) :
  Server.on_message playerId message ps = Some ps' ->
  Forall entry_ok ps -> Forall entry_ok ps'.
Proof.
  intros E Hok. pose proof (on_message_cases playerId message ps) as Hc.
  rewrite E in Hc.
  destruct Hc as [[-> _]|[p (Hp & _ & _ & Hc)]]; [exact Hok|].
  assert (Hin : entry_ok (playerId, p)).
  { rewrite Forall_forall in Hok. apply Hok. now apply get_In. }
  destruct Hin as [Hid Hsc]. cbn [fst snd] in *.
  destruct Hc as [[_ ->]|[_ ->]]; apply Forall_set_key; try exact Hok;
    split; cbn [fst snd].
  - now destruct (single_shot_keeps (key_of message) p) as (_ & _ & -> & _).
  - now destruct (single_shot_keeps (key_of message) p) as (_ & -> & _).
  - exact Hid.
  - exact Hsc.
Qed.

Section World.
Variable env : Env.

Lemma each_player_entries (ps : Server.Players) (pl : Pool) :
  Forall entry_ok ps ->
  Forall entry_ok (fst (Server.each_player env ps pl)).
Proof.
  revert pl. induction ps as [|[k p] rest IH]; intros pl Hok;
    cbn [Server.each_player].
  - constructor.
  - inversion Hok as [|? ? [Hid Hsc] Hrest]; subst. cbn [fst snd] in *.
    pose proof (collect_same_but_score env (List.length (COINS pl))
                  (Server.move p) pl) as [Hs Hle].
    fold (collisions env (Server.move p) pl) in Hs, Hle.
    destruct (collisions env (Server.move p) pl) as [p' pl'].
    specialize (IH pl' Hrest).
    destruct (Server.each_player env rest pl') as [rest' pl''].
    cbn [fst] in *. constructor; [|exact IH].
    destruct (move_keeps p) as (_ & Hmsc & Hmid & _).
    split; cbn [fst snd].
    + unfold same_but_score in Hs. rewrite Hs.
      cbn [Player.id Player.set_score]. congruence.
    + lia.
Qed.

Lemma step_world_ok (s : Server.State) (e : Server.Event) :
  world_ok s -> world_ok (fst (Server.step env s e)).
Proof.
  intros (Hent & Hsub & Hnd & Hlt).
  destruct e as [| ws message | ws | now | timer | ws]; cbn [Server.step].
  - (* a connection *)
    unfold Server.on_connection, Server.setTimeout, world_ok.
    cbn [fst Server.PLAYERS Server.clients Server.next_conn].
    rewrite !map_app. cbn [map fst snd].
    split; [|split; [|split]].
    + apply Forall_set_key; [|exact Hent]. split; cbn; [reflexivity | lia].
    + intros k Hk. apply in_app_iff.
      apply keys_set_subset in Hk as [->|Hk]; [right; now left|].
      left. now apply Hsub.
    + apply NoDup_app; [exact Hnd | repeat constructor; intros [] |].
      intros w Hw [<-|[]]. rewrite Forall_forall in Hlt.
      specialize (Hlt _ Hw). lia.
    + apply Forall_app. split.
      * eapply Forall_impl; [|exact Hlt]. cbn. intros; lia.
      * repeat constructor.
  - unfold Server.on_incoming.
    destruct (Server.lookup ws (Server.clients s)); repeat split; assumption.
  - (* a close *)
    unfold Server.on_close.
    destruct (Server.lookup ws (Server.clients s)) as [pid|] eqn:Hl;
      [|repeat split; assumption].
    unfold world_ok.
    cbn [fst Server.PLAYERS Server.clients Server.next_conn].
    split; [|split; [|split]].
    + now apply Forall_remove.
    + intros k Hk. apply keys_remove_subset in Hk as [Hk Hne].
      specialize (Hsub k Hk). apply in_map_iff in Hsub as [[w k'] [Heq Hin]].
      cbn [snd] in Heq. subst k'.
      apply in_map_iff. exists (w, k). split; [reflexivity|].
      unfold Server.drop. apply filter_In. split; [exact Hin|].
      cbn [fst]. destruct (Nat.eqb_spec ws w) as [->|Hw]; [|reflexivity].
      rewrite (NoDup_lookup w k _ Hnd Hin) in Hl. congruence.
    + now apply drop_fst_NoDup.
    + rewrite Forall_forall in *. intros w Hw. apply Hlt.
      apply in_map_iff in Hw as [x [Hx Hin]].
      apply filter_In in Hin as [Hin _]. apply in_map_iff. now exists x.
  - (* a tick *)
    unfold Server.on_tick.
    pose proof (each_player_entries (Server.PLAYERS s) (Server.pool s) Hent)
      as H1.
    pose proof (each_player_keys env (Server.PLAYERS s) (Server.pool s))
      as H2.
    destruct (Server.each_player env (Server.PLAYERS s) (Server.pool s))
      as [ps pl]. unfold world_ok, Server.setTimeout.
    cbn [fst Server.PLAYERS Server.clients Server.next_conn] in *.
    rewrite H2. repeat split; assumption.
  - (* a timer *)
    destruct (on_expire_frame timer s) as (_ & Hcl & Hnc).
    unfold world_ok. rewrite Hcl, Hnc.
    destruct (on_expire_players timer s) as [->|[pid [message E]]];
      [repeat split; assumption|].
    rewrite (on_message_keys _ _ _ _ E).
    repeat split; try assumption.
    exact (on_message_entries _ _ _ _ E Hent).
  - unfold Server.on_closing.
    destruct (Server.lookup ws (Server.clients s)); repeat split; assumption.
Qed.

Lemma run_world_ok (evs : list Server.Event) (s : Server.State) :
  world_ok s -> world_ok (fst (Server.run env s evs)).
Proof.
  revert s. induction evs as [|e evs IH]; intros s Hs; cbn [Server.run].
  - exact Hs.
  - pose proof (step_world_ok s e Hs) as H1.
    destruct (Server.step env s e) as [s1 o1].
    specialize (IH s1 H1). destruct (Server.run env s1 evs) as [s2 o2].
    exact IH.
Qed.
End World.

Lemma is_open_readyState (s : Server.State) (ws : ConnId) :
  Server.is_open s ws = true <-> Server.readyState ws s = Server.OPEN.
Proof.
  unfold Server.is_open. destruct (Server.readyState ws s);
    split; intro H; try reflexivity; discriminate H.
Qed.



(** The socket of that player is [CLOSING], and the player is in
    [PLAYERS]. *)
Lemma closing_socket_keeps_its_player :
  let s := fst (Server.run Sample.env (Server.start Sample.env)
                  Sample2.half_closed) in
  Server.readyState 0%nat s = Server.CLOSING /\
  Dict.keys (Server.PLAYERS s) = ["f"; "g"].
Proof. split; reflexivity. Qed.

(** ** What reaches the sockets *)

(** X9. The server only writes to sockets that are [OPEN]: whatever the
    event, each packet it sends goes to a socket whose [readyState] was
    [OPEN] when the event began; a socket that is [CLOSING] or [CLOSED]
    gets nothing, although a [CLOSING] one is still in [wss.clients]. *)
Theorem nothing_sent_to_closed_sockets (env : Env) (s : Server.State)
    (e : Server.Event) (ws : ConnId) (packet : JSON) :
  In (Server.Sent ws packet) (snd (Server.step env s e)) ->
  Server.readyState ws s = Server.OPEN.
Proof.
  destruct e as [| w message | w | now | timer | w]; cbn [Server.step].
  - cbn. intros [H|[]]. discriminate H.
  - unfold Server.on_incoming.
    destruct (Server.lookup w (Server.clients s)); cbn;
      [intros [H|[]]; discriminate H | intros []].
  - unfold Server.on_close.
    destruct (Server.lookup w (Server.clients s)); cbn; intros [].
  - unfold Server.on_tick.
    destruct (Server.each_player env (Server.PLAYERS s) (Server.pool s))
      as [ps pl]. cbn. intros [H|[]]. discriminate H.
  - unfold Server.on_expire.
    destruct (Server.lookup timer (Server.timers s)) as [cb|];
      [|intros []].
    set (s1 := Server.make _ _ _ _ _ _ _).
    assert (Hrs : forall w, Server.is_open s1 w = true ->
                            Server.readyState w s = Server.OPEN)
      by (intros w Hw; now apply is_open_readyState in Hw).
    destruct cb as [w pid | pid message | stateString];
      cbn [Server.run_callback].
    + destruct (Server.is_open s1 w) eqn:E; cbn [snd].
      * intros [H|[H|[]]]; [discriminate H|].
        injection H as <- _. now apply Hrs.
      * intros [H|[]]. discriminate H.
    + destruct (Server.on_message pid message _); cbn [snd].
      * intros [H|[]]. discriminate H.
      * intros [H|[H|[]]]; discriminate H.
    + cbn [snd]. intros [H|H]; [discriminate H|].
      apply in_map_iff in H as [w [Hw Hin]]. injection Hw as <- _.
      apply filter_In in Hin as [_ Hin]. now apply Hrs.
  - unfold Server.on_closing.
    destruct (Server.lookup w (Server.clients s)); cbn; intros [].
Qed.

Lemma nothing_sent_to_closed_sockets_witness :
  Server.readyState 1%nat
    (fst (Server.run Sample.env (Server.start Sample.env)
            (Sample2.half_closed ++ [Server.Tick 1000]))) = Server.OPEN.
Proof.
  apply (nothing_sent_to_closed_sockets Sample.env
           (fst (Server.run Sample.env (Server.start Sample.env)
                   (Sample2.half_closed ++ [Server.Tick 1000])))
           (Server.Expire 2) 1%nat
           (Server.state_packet
              (Server.gameState
                 (Server.PLAYERS
                    (fst (Server.run Sample.env (Server.start Sample.env)
                            Sample2.half_closed)))
                 (COINS (initial_pool Sample.env)) 1000))).
  vm_compute. right. left. reflexivity.
Defined.

(** The broadcast of that snapshot reaches the second socket only: the
    first one is [CLOSING]. *)
Lemma broadcast_skips_closing_socket :
  map (fun e => match e with Server.Sent ws _ => Some ws | _ => None end)
    (snd (Server.step Sample.env
            (fst (Server.run Sample.env (Server.start Sample.env)
                    (Sample2.half_closed ++ [Server.Tick 1000])))
            (Server.Expire 2)))
  = [None; Some 1%nat].
Proof. reflexivity. Qed.

(** ** The delay mechanism under any firing order *)

Lemma expire_permutation (t : nat) (cb : Server.Callback)
    (ts : list (nat * Server.Callback)) :
  NoDup (ids ts) -> Server.lookup t ts = Some cb ->
  Permutation (t :: ids (Server.drop t ts)) (ids ts).
Proof.
  induction ts as [|[m b] ts IH]; cbn [Server.lookup]; [discriminate|].
  intros Hn Hl. destruct (Nat.eqb_spec t m) as [->|Hne].
  - now rewrite (drop_oldest m b ts Hn).
  - inversion Hn as [|? ? Hnot Hrest]; subst.
    unfold Server.drop. cbn [filter fst].
    destruct (Nat.eqb_spec t m) as [Heq|_]; [contradiction|].
    cbn [negb ids map fst].
    etransitivity; [apply perm_swap|]. apply perm_skip. now apply IH.
Qed.

(** Whatever the order in which timers fire: what was released, with
    what is still armed, is what was armed before with what was armed
    since. *)
Lemma release_permutation (env : Env) (evs : list Server.Event)
    (s : Server.State) :
  timers_ok s ->
  let r := Server.run env s evs in
  Permutation (Server.released (snd r) ++ ids (Server.timers (fst r)))
              (ids (Server.timers s) ++ Server.armed (snd r)).
Proof.
  revert s. induction evs as [|e evs IH]; intros s Hok;
    cbn [Server.run] in *.
  - cbn. now rewrite app_nil_r.
  - pose proof (step_timers_ok env s e Hok) as Hok1.
    destruct (firing_or_not e) as [[t ->]|Hne].
    + cbn [Server.step] in *.
      destruct (Server.lookup t (Server.timers s)) as [cb|] eqn:Hl.
      * destruct (on_expire_armed t cb s Hl) as (Hr & Ha & Ht & _).
        destruct (Server.on_expire t s) as [s1 o1]. cbn [fst snd] in *.
        specialize (IH s1 Hok1).
        destruct (Server.run env s1 evs) as [s2 o2]. cbn [fst snd] in *.
        rewrite released_app, armed_app, Hr, Ha. cbn [app].
        rewrite IH, Ht.
        change (Permutation
                  ((t :: ids (Server.drop t (Server.timers s))) ++
                   Server.armed o2)
                  (ids (Server.timers s) ++ Server.armed o2)).
        apply Permutation_app_tail.
        apply (expire_permutation t cb); [apply Hok | exact Hl].
      * rewrite (on_expire_unarmed t s Hl) in *. cbn [fst snd] in *.
        specialize (IH s Hok).
        destruct (Server.run env s evs) as [s2 o2]. exact IH.
    + destruct (step_arms env s e Hne)
        as [Hr [(Ha & Ht & _)|[cb (Ha & Ht & _)]]];
        destruct (Server.step env s e) as [s1 o1]; cbn [fst snd] in *;
        specialize (IH s1 Hok1);
        destruct (Server.run env s1 evs) as [s2 o2]; cbn [fst snd] in *;
        rewrite released_app, armed_app, Hr, Ha; cbn [app];
        rewrite IH, Ht.
      * reflexivity.
      * unfold ids. now rewrite map_app, <- app_assoc.
Qed.

(** X10. Under any order of timer firings nothing is lost, repeated or
    made up: the payloads released by a run, together with those still
    waiting, are exactly the payloads submitted; so no payload is released
    twice and none is released that was not submitted. *)
Theorem delay_neither_loses_nor_repeats (env : Env) (evs : list Server.Event) :
  let r := Server.run env (Server.start env) evs in
  Permutation (Server.released (snd r) ++ ids (Server.timers (fst r)))
              (Server.armed (snd r)) /\
  NoDup (Server.released (snd r)) /\
  incl (Server.released (snd r)) (Server.armed (snd r)).
Proof.
  cbv zeta.
  assert (Hok : timers_ok (Server.start env)) by (split; constructor).
  pose proof (release_permutation env evs (Server.start env) Hok) as Hp.
  cbv zeta in Hp. cbn [Server.start Server.timers ids map app] in Hp.
  fold (Server.start env) in Hp.
  destruct (run_armed_seq env evs (Server.start env)) as [k [Hseq _]].
  split; [exact Hp|]. split.
  - apply (NoDup_app_remove_r _ (ids (Server.timers
              (fst (Server.run env (Server.start env) evs))))).
    apply (Permutation_NoDup (Permutation_sym Hp)).
    rewrite Hseq. apply seq_NoDup.
  - intros t Ht. apply (Permutation_in _ Hp), in_app_iff. now left.
Qed.

(** A timer that does not fire stays armed with the closure it got. *)
Lemma timer_waits (env : Env) (evs : list Server.Event) (s : Server.State)
    (t : nat) (cb : Server.Callback) :
  Server.lookup t (Server.timers s) = Some cb ->
  ~ In (Server.Expire t) evs ->
  Server.lookup t (Server.timers (fst (Server.run env s evs))) = Some cb.
Proof.
  revert s. induction evs as [|e evs IH]; intros s Hl Hno;
    cbn [Server.run]; [exact Hl|].
  assert (H1 : Server.lookup t (Server.timers (fst (Server.step env s e)))
               = Some cb).
  { destruct (firing_or_not e) as [[t' ->]|Hne].
    - cbn [Server.step].
      destruct (Server.lookup t' (Server.timers s)) as [cb'|] eqn:Hl'.
      + destruct (on_expire_armed t' cb' s Hl') as (_ & _ & Ht & _).
        rewrite Ht, lookup_drop_other; [exact Hl|].
        intros ->. apply Hno. now left.
      + now rewrite (on_expire_unarmed t' s Hl').
    - destruct (step_arms env s e Hne)
        as [_ [(_ & Ht & _)|[cb' (_ & Ht & _)]]]; rewrite Ht;
        [exact Hl | now apply lookup_app_Some]. }
  destruct (Server.step env s e) as [s1 o1]. cbn [fst] in H1.
  specialize (IH s1 H1 (fun H => Hno (or_intror H))).
  destruct (Server.run env s1 evs) as [s2 o2]. exact IH.
Qed.

Lemma lookup_app_new {A : Type} (t : nat) (a : A) (l : list (nat * A)) :
  Forall (fun i => (i < t)%nat) (map fst l) ->
  Server.lookup t (l ++ [(t, a)]) = Some a.
Proof.
  induction l as [|[m b] l IH]; cbn [map fst app Server.lookup]; intro H.
  - now rewrite Nat.eqb_refl.
  - inversion H as [|? ? Hm Hrest]; subst.
    destruct (Nat.eqb_spec t m) as [->|_]; [lia | now apply IH].
Qed.



(** In that run the snapshot shows the player at [y = 295], where the
    first tick left it, although the world has it at [y = 290] when the
    snapshot is written; and only the second socket gets it. *)
Lemma snapshot_is_the_tick_s_view :
  let s := fst (Server.step Sample.env Sample.held (Server.Tick 1000)) in
  let s' := fst (Server.run Sample.env s Sample2.meanwhile) in
  map (fun kp => Qred (Player.y (snd kp))) (Server.PLAYERS s) = [295] /\
  map (fun kp => Qred (Player.y (snd kp))) (Server.PLAYERS s') = [290; 300] /\
  open_sockets s' = [1%nat].
Proof. vm_compute. repeat split. Qed.

(** ** Intents for different keys *)

Lemma pressed_set_swap (d1 d2 : string) (v1 v2 : bool) (pr : Pressed.t) :
  In d1 DIRECTIONS -> In d2 DIRECTIONS -> d1 <> d2 ->
  Pressed.set d2 v2 (Pressed.set d1 v1 pr) =
  Pressed.set d1 v1 (Pressed.set d2 v2 pr).
Proof.
  intros [<-|[<-|[<-|[<-|[]]]]] [<-|[<-|[<-|[<-|[]]]]] Hne;
    try contradiction; reflexivity.
Qed.

(** X12. Two intents of one player for different directions can be
    handled in either order: the server ends in the same state.  Only the
    order of intents for the same direction matters. *)
Theorem intents_for_different_keys_commute (playerId d1 a1 d2 a2 : string)
    (ps : Server.Players) (p : Player.t) :
  In d1 DIRECTIONS -> In d2 DIRECTIONS -> d1 <> d2 ->
  a1 = "start" \/ a1 = "stop" -> a2 = "start" \/ a2 = "stop" ->
  Dict.get playerId ps = Some p ->
  let m1 := Text (Client.input_message d1 a1) in
  let m2 := Text (Client.input_message d2 a2) in
  exists ps1 ps2 final,
    Server.on_message playerId m1 ps = Some ps1 /\
    Server.on_message playerId m2 ps1 = Some final /\
    Server.on_message playerId m2 ps = Some ps2 /\
    Server.on_message playerId m1 ps2 = Some final.
Proof.
  intros Hd1 Hd2 Hne Ha1 Ha2 Hp. cbv zeta.
  pose proof (on_message_intent playerId d1 a1 ps p Hd1 Ha1 Hp) as H1.
  pose proof (on_message_intent playerId d2 a2 ps p Hd2 Ha2 Hp) as H2.
  set (b1 := (a1 =? "start")%string) in *.
  set (b2 := (a2 =? "start")%string) in *.
  set (p1 := Player.set_pressed (Pressed.set d1 b1 (Player.pressed p)) p) in *.
  set (p2 := Player.set_pressed (Pressed.set d2 b2 (Player.pressed p)) p) in *.
  pose proof (on_message_intent playerId d2 a2 (Dict.set playerId p1 ps) p1
                Hd2 Ha2 (get_set_same _ _ _)) as H12.
  pose proof (on_message_intent playerId d1 a1 (Dict.set playerId p2 ps) p2
                Hd1 Ha1 (get_set_same _ _ _)) as H21.
  rewrite set_set in H12, H21. fold b1 in H21. fold b2 in H12.
  assert (Heq : Player.set_pressed (Pressed.set d1 b1 (Player.pressed p2)) p2
                = Player.set_pressed
                    (Pressed.set d2 b2 (Player.pressed p1)) p1).
  { subst p1 p2. cbn [Player.pressed Player.set_pressed].
    rewrite (pressed_set_swap d1 d2 b1 b2 _ Hd1 Hd2 Hne). reflexivity. }
  rewrite Heq in H21.
  eexists _, _, _. repeat split; eassumption.
Qed.

Lemma intents_for_different_keys_commute_witness :
  exists ps1 ps2 final,
    Server.on_message "f" (Sample.input "up" "stop")
      (Server.PLAYERS Sample.held) = Some ps1 /\
    Server.on_message "f" (Sample.input "left" "start") ps1 = Some final /\
    Server.on_message "f" (Sample.input "left" "start")
      (Server.PLAYERS Sample.held) = Some ps2 /\
    Server.on_message "f" (Sample.input "up" "stop") ps2 = Some final.
Proof.
  apply (intents_for_different_keys_commute "f" "up" "stop" "left" "start"
           (Server.PLAYERS Sample.held) _
           (or_introl eq_refl)
           (or_intror (or_intror (or_introl eq_refl)))
           ltac:(discriminate) (or_intror eq_refl) (or_introl eq_refl)
           eq_refl).
Defined.

(** * Further properties of the earlier server *)

#[local] Existing Instance Legacy.Player_Body.

Lemma legacy_apply_input_commutes_inputs (input : string) (l : list string)
    (p : Legacy.Player.t) :
  Legacy.apply_input input (Legacy.Player.set_inputs l p) =
  Legacy.Player.set_inputs l (Legacy.apply_input input p).
Proof.
  unfold Legacy.apply_input.
  destruct (String.eqb input "up"), (String.eqb input "down"),
    (String.eqb input "left"), (String.eqb input "right"); reflexivity.
Qed.

Lemma legacy_drain_forgets_queue (queue l : list string)
    (p : Legacy.Player.t) :
  Legacy.drain queue (Legacy.Player.set_inputs l p) = Legacy.drain queue p.
Proof.
  destruct queue as [|input rest]; cbn [Legacy.drain]; reflexivity.
Qed.

(** The [while] loop is the left fold of the single steps. *)
Lemma legacy_drain_fold (queue : list string) (p : Legacy.Player.t) :
  Legacy.drain queue p =
  Legacy.Player.set_inputs [] (legacy_steps queue p).
Proof.
  unfold legacy_steps. revert p.
  induction queue as [|input rest IH]; intro p;
    cbn [Legacy.drain fold_left]; [reflexivity|].
  rewrite legacy_apply_input_commutes_inputs, legacy_drain_forgets_queue.
  apply IH.
Qed.

Lemma legacy_apply_input_on_map (input : string) (p : Legacy.Player.t) :
  on_map (Legacy.Player.x (Legacy.apply_input input p))
         (Legacy.Player.y (Legacy.apply_input input p)).
Proof.
  unfold Legacy.apply_input.
  cbn [Legacy.Player.x Legacy.Player.y Legacy.Player.set_x
       Legacy.Player.set_y].
  apply clamp_on_map.
Qed.

Lemma legacy_steps_on_map (queue : list string) (p : Legacy.Player.t) :
  on_map (Legacy.Player.x p) (Legacy.Player.y p) ->
  on_map (Legacy.Player.x (legacy_steps queue p))
         (Legacy.Player.y (legacy_steps queue p)).
Proof.
  unfold legacy_steps. revert p.
  induction queue as [|input rest IH]; intros p Hp; cbn [fold_left].
  - exact Hp.
  - apply IH, legacy_apply_input_on_map.
Qed.

Lemma legacy_steps_keep (queue : list string) (p : Legacy.Player.t) :
  Legacy.Player.score (legacy_steps queue p) = Legacy.Player.score p /\
  Legacy.Player.id (legacy_steps queue p) = Legacy.Player.id p.
Proof.
  unfold legacy_steps. revert p.
  induction queue as [|input rest IH]; intro p; cbn [fold_left].
  - split; reflexivity.
  - destruct (IH (Legacy.apply_input input p)) as [-> ->].
    unfold Legacy.apply_input.
    destruct (String.eqb input "up"), (String.eqb input "down"),
      (String.eqb input "left"), (String.eqb input "right");
      split; reflexivity.
Qed.

(** The loop changes nothing of a legacy player but the score. *)
Lemma legacy_collect_frame (env : Env) (n : nat) (p : Legacy.Player.t)
    (pl : Pool) :
  let q := fst (collect env n p pl) in
  Legacy.Player.x q = Legacy.Player.x p /\
  Legacy.Player.y q = Legacy.Player.y p /\
  Legacy.Player.inputs q = Legacy.Player.inputs p.
Proof.
  revert p pl. induction n as [|i IH]; intros p pl; cbn [collect].
  - repeat split.
  - unfold collide_at.
    destruct (nth_error (COINS pl) i) as [c|]; [|apply IH].
    destruct (Geometry.touches _ _ c); [|apply IH].
    match goal with |- context [collect env i ?q ?l] =>
      destruct (IH q l) as (Hx & Hy & Hi) end.
    cbv zeta. rewrite Hx, Hy, Hi. repeat split.
Qed.

(** The loop changes the score of a legacy player only upwards, and
    leaves its id and colour alone. *)
Lemma legacy_collect_keeps (env : Env) (n : nat) (p : Legacy.Player.t)
    (pl : Pool) :
  let q := fst (collect env n p pl) in
  (Legacy.Player.score p <= Legacy.Player.score q)%Z /\
  Legacy.Player.id q = Legacy.Player.id p /\
  Legacy.Player.color q = Legacy.Player.color p.
Proof.
  revert p pl. induction n as [|i IH]; intros p pl; cbn [collect].
  - cbn. repeat split. lia.
  - unfold collide_at.
    destruct (nth_error (COINS pl) i) as [c|]; [|apply IH].
    destruct (Geometry.touches _ _ c); [|apply IH].
    match goal with |- context [collect env i ?q ?l] =>
      destruct (IH q l) as (Hs & Hi & Hc) end.
    cbv zeta. rewrite Hi, Hc. cbn in *. repeat split. lia.
Qed.

(** One input, coordinate by coordinate. *)
Lemma legacy_apply_input_step (input : string) (p : Legacy.Player.t) :
  Legacy.Player.x (Legacy.apply_input input p) ==
    Qmax 0 (Qmin 800 (Legacy.Player.x p + fst (step_of input))) /\
  Legacy.Player.y (Legacy.apply_input input p) ==
    Qmax 0 (Qmin 600 (Legacy.Player.y p + snd (step_of input))).
Proof.
  unfold Legacy.apply_input, step_of, clamp, Math_max, Math_min,
    MOVEMENT_SPEED, MAP_SIZE_width, MAP_SIZE_height.
  destruct (String.eqb_spec input "up") as [->|_];
    [|destruct (String.eqb_spec input "down") as [->|_];
      [|destruct (String.eqb_spec input "left") as [->|_];
        [|destruct (String.eqb_spec input "right") as [->|_]]]];
    cbn [String.eqb Ascii.eqb Bool.eqb fst snd Legacy.Player.x
         Legacy.Player.y Legacy.Player.set_x Legacy.Player.set_y];
    split; apply Q.max_compat; try reflexivity;
    apply Q.min_compat; try reflexivity; ring.
Qed.

Lemma legacy_steps_walk (queue : list string) (p : Legacy.Player.t)
    (xy : Q * Q) :
  Legacy.Player.x p == fst xy -> Legacy.Player.y p == snd xy ->
  Legacy.Player.x (legacy_steps queue p) == fst (walk queue xy) /\
  Legacy.Player.y (legacy_steps queue p) == snd (walk queue xy).
Proof.
  unfold legacy_steps, walk. revert p xy.
  induction queue as [|input rest IH]; intros p xy Hx Hy; cbn [fold_left].
  - split; assumption.
  - destruct (legacy_apply_input_step input p) as [Ex Ey].
    apply IH; cbn [fst snd].
    + rewrite Ex. apply Q.max_compat; [reflexivity|].
      apply Q.min_compat; [reflexivity|]. now rewrite Hx.
    + rewrite Ey. apply Q.max_compat; [reflexivity|].
      apply Q.min_compat; [reflexivity|]. now rewrite Hy.
Qed.

(** Each player of the earlier server goes through its queue and the
    collision loop, once. *)
Lemma legacy_each_player_get (env : Env) (ps : Legacy.Players) (pl : Pool)
    (id : string) (p : Legacy.Player.t) :
  Dict.get id ps = Some p ->
  exists q, Dict.get id (fst (Legacy.each_player env ps pl)) = Some q /\
    Legacy.Player.x q = Legacy.Player.x (Legacy.process_inputs p) /\
    Legacy.Player.y q = Legacy.Player.y (Legacy.process_inputs p) /\
    Legacy.Player.inputs q = [] /\
    (Legacy.Player.score p <= Legacy.Player.score q)%Z /\
    Legacy.Player.id q = Legacy.Player.id p /\
    Legacy.Player.color q = Legacy.Player.color p.
Proof.
  revert pl. induction ps as [|[k p0] rest IH]; intro pl;
    cbn [Dict.get Legacy.each_player]; [discriminate|].
  pose proof (legacy_collect_frame env (List.length (COINS pl))
                (Legacy.process_inputs p0) pl) as (Hx & Hy & Hi).
  pose proof (legacy_collect_keeps env (List.length (COINS pl))
                (Legacy.process_inputs p0) pl) as (Hs & Hid & Hco).
  fold (collisions env (Legacy.process_inputs p0) pl)
    in Hx, Hy, Hi, Hs, Hid, Hco.
  destruct (collisions env (Legacy.process_inputs p0) pl) as [q pl'].
  specialize (IH pl').
  destruct (Legacy.each_player env rest pl') as [rest' pl''].
  cbn [fst Dict.get] in *.
  destruct (String.eqb id k); [|exact IH].
  intros [= ->]. exists q.
  unfold Legacy.process_inputs in *.
  rewrite legacy_drain_fold in *.
  destruct (legacy_steps_keep (Legacy.Player.inputs p) p) as [Ksc Kid].
  cbn [Legacy.Player.score Legacy.Player.id Legacy.Player.color
       Legacy.Player.inputs Legacy.Player.set_inputs] in *.
  repeat split; try assumption; try congruence.
  rewrite Hco. clear. unfold legacy_steps.
  generalize (Legacy.Player.inputs p) as queue. intro queue. revert p.
  induction queue as [|input rest IH]; intro p; cbn [fold_left];
    [reflexivity|].
  rewrite IH. unfold Legacy.apply_input.
  destruct (String.eqb input "up"), (String.eqb input "down"),
    (String.eqb input "left"), (String.eqb input "right"); reflexivity.
Qed.

(** X13. One tick of the earlier server takes every player through its
    whole queue: the player ends where its inputs, applied in the order of
    the queue, each followed by the boundary check, take it, with an empty
    queue, its id and colour, and a score that has not dropped; a player
    with [n] inputs waiting takes [n] steps in that tick.  Every player
    that was on the map is on the map afterwards, the ids are unchanged
    and there are as many coins as before. *)
Theorem legacy_tick_drains_every_queue (env : Env) (now : Z)
    (ps : Legacy.Players) (pl : Pool) :
  let ps' := fst (fst (Legacy.tick env now ps pl)) in
  let pl' := snd (fst (Legacy.tick env now ps pl)) in
  (forall id p, Dict.get id ps = Some p ->
     exists q, Dict.get id ps' = Some q /\
       Legacy.Player.x q ==
         fst (walk (Legacy.Player.inputs p)
                (Legacy.Player.x p, Legacy.Player.y p)) /\
       Legacy.Player.y q ==
         snd (walk (Legacy.Player.inputs p)
                (Legacy.Player.x p, Legacy.Player.y p)) /\
       Legacy.Player.inputs q = [] /\
       (Legacy.Player.score p <= Legacy.Player.score q)%Z /\
       Legacy.Player.id q = Legacy.Player.id p /\
       Legacy.Player.color q = Legacy.Player.color p) /\
  queues_empty ps' /\
  (legacy_on_map ps -> legacy_on_map ps') /\
  Dict.keys ps' = Dict.keys ps /\
  List.length (COINS pl') = List.length (COINS pl).
Proof.
  cbv zeta. unfold Legacy.tick.
  assert (Hget := legacy_each_player_get env ps pl).
  assert (Hrest :
    queues_empty (fst (Legacy.each_player env ps pl)) /\
    (legacy_on_map ps -> legacy_on_map (fst (Legacy.each_player env ps pl))) /\
    Dict.keys (fst (Legacy.each_player env ps pl)) = Dict.keys ps /\
    List.length (COINS (snd (Legacy.each_player env ps pl))) =
      List.length (COINS pl)).
  { clear Hget. unfold queues_empty, legacy_on_map, Dict.keys. revert pl.
    induction ps as [|[k p] rest IH]; intro pl; cbn [Legacy.each_player].
    - repeat split; constructor.
    - pose proof (legacy_collect_frame env (List.length (COINS pl))
                    (Legacy.process_inputs p) pl) as (Hx & Hy & Hi).
      pose proof (collisions_length env (Legacy.process_inputs p) pl) as Hl.
      fold (collisions env (Legacy.process_inputs p) pl) in Hx, Hy, Hi.
      destruct (collisions env (Legacy.process_inputs p) pl) as [p' pl'].
      destruct (IH pl') as (H1 & H2 & H3 & H4).
      destruct (Legacy.each_player env rest pl') as [rest' pl''].
      cbn [fst snd map] in *.
      repeat split.
      + constructor; [|exact H1]. cbn [snd]. rewrite Hi.
        apply drain_empties.
      + intro Hm. inversion Hm as [|? ? Hp Hrest]; subst.
        constructor; [|now apply H2]. cbn [snd] in *. rewrite Hx, Hy.
        unfold Legacy.process_inputs. rewrite legacy_drain_fold.
        cbn [Legacy.Player.x Legacy.Player.y Legacy.Player.set_inputs].
        now apply legacy_steps_on_map.
      + now rewrite H3.
      + congruence. }
  destruct (Legacy.each_player env ps pl) as [ps' pl'].
  cbn [fst snd] in *. split; [|exact Hrest].
  intros id p Hp.
  destruct (Hget id p Hp) as (q & Hq & Hx & Hy & Hi & Hs & Hid & Hco).
  exists q. split; [exact Hq|].
  unfold Legacy.process_inputs in Hx, Hy.
  rewrite legacy_drain_fold in Hx, Hy.
  cbn [Legacy.Player.x Legacy.Player.y Legacy.Player.set_inputs] in Hx, Hy.
  destruct (legacy_steps_walk (Legacy.Player.inputs p) p
              (Legacy.Player.x p, Legacy.Player.y p)) as [Wx Wy];
    try reflexivity.
  rewrite Hx, Hy. repeat split; assumption.
Qed.

Lemma legacy_tick_drains_every_queue_witness :
  legacy_on_map
    (fst (fst (Legacy.tick Sample.env 1000 [("p", Sample2.hasty)]
                 (initial_pool Sample.env)))).
Proof.
  apply (legacy_tick_drains_every_queue Sample.env 1000
           [("p", Sample2.hasty)] (initial_pool Sample.env)).
  repeat constructor; discriminate.
Defined.

(** Three steps up and one to the left, in one tick. *)
Lemma hasty_player_after_one_tick :
  map (fun kp => (Qred (Legacy.Player.x (snd kp)),
                  Qred (Legacy.Player.y (snd kp)),
                  Legacy.Player.inputs (snd kp)))
    (fst (fst (Legacy.tick Sample.env 1000 [("p", Sample2.hasty)]
                 (initial_pool Sample.env))))
  = [(395, 285, [])].
Proof. reflexivity. Qed.

(** What the [try] block of the earlier server does. *)
Lemma legacy_on_message_cases (playerId : string) (message : Message)
    (ps : Legacy.Players) :
  match Legacy.on_message playerId message ps with
  | None => True
  | Some ps' =>
      ps' = ps \/
      exists p k,
        Dict.get playerId ps = Some p /\ In k DIRECTIONS /\
        key_of message = Some (JStr k) /\
        ps' = Dict.set playerId
                (Legacy.Player.set_inputs
                   (Legacy.Player.inputs p ++ [k]) p) ps
  end.
Proof.
  unfold Legacy.on_message, key_of.
  destruct (JSON_parse message) as [data|]; [|exact I].
  destruct (prop data "type") as [type|]; [|exact I].
  destruct (is_string type "input"); [|now left].
  destruct (Dict.get playerId ps) as [p|]; [|now left].
  destruct (prop data "key") as [key|]; [|exact I].
  destruct (includes DIRECTIONS key) eqn:Hk; [|now left].
  right. destruct key as [[| | |k| |]|]; try discriminate Hk.
  exists p, k. repeat split.
  unfold includes, DIRECTIONS in Hk. cbn [existsb is_string] in Hk.
  repeat (apply orb_prop in Hk as [Hk|Hk];
          [apply String.eqb_eq in Hk; subst; cbn; tauto|]).
  discriminate Hk.
Qed.

(** X14. On the earlier server a message never moves anybody: it leaves
    [PLAYERS] as it was, or puts one direction name at the end of its
    sender's queue, whatever [action] it carries; nothing but the four
    direction names ever enters a queue. *)
Theorem legacy_message_only_queues (playerId : string) (message : Message)
    (ps ps' : Legacy.Players) :
  Legacy.on_message playerId message ps = Some ps' ->
  ps' = ps \/
  exists p k,
    Dict.get playerId ps = Some p /\ In k DIRECTIONS /\
    key_of message = Some (JStr k) /\
    ps' = Dict.set playerId
            (Legacy.Player.set_inputs (Legacy.Player.inputs p ++ [k]) p) ps.
Proof.
  intro E. pose proof (legacy_on_message_cases playerId message ps) as Hc.
  now rewrite E in Hc.
Qed.

Lemma legacy_message_only_queues_witness :
  Legacy.on_message "p" (Sample.input "up" "stop") [("p", Sample2.hasty)] =
    Some [("p", Sample2.hasty)] \/
  exists p k,
    Dict.get "p" [("p", Sample2.hasty)] = Some p /\ In k DIRECTIONS /\
    key_of (Sample.input "up" "stop") = Some (JStr k) /\
    Legacy.on_message "p" (Sample.input "up" "stop") [("p", Sample2.hasty)] =
      Some (Dict.set "p"
              (Legacy.Player.set_inputs (Legacy.Player.inputs p ++ [k]) p)
              [("p", Sample2.hasty)]).
Proof.
  destruct (legacy_message_only_queues "p" (Sample.input "up" "stop")
              [("p", Sample2.hasty)] _ eq_refl) as [H|(p & k & H1 & H2 & H3 & H4)].
  - left. now rewrite <- H.
  - right. exists p, k. repeat split; try assumption. now rewrite <- H4.
Defined.

Lemma legacy_up_step (p : Legacy.Player.t) :
  on_map (Legacy.Player.x p) (Legacy.Player.y p) ->
  Legacy.Player.y (Legacy.apply_input "up" p) ==
    Qmax 0 (Legacy.Player.y p - MOVEMENT_SPEED) /\
  Legacy.Player.x (Legacy.apply_input "up" p) == Legacy.Player.x p.
Proof.
  intros [[Hx0 Hx1] [Hy0 Hy1]].
  unfold Legacy.apply_input, MOVEMENT_SPEED, MAP_SIZE_width,
    MAP_SIZE_height in *.
  cbn [String.eqb Ascii.eqb Bool.eqb Legacy.Player.x Legacy.Player.y
       Legacy.Player.set_x Legacy.Player.set_y].
  split.
  - destruct (clamp_spec 600 (Legacy.Player.y p - 5) ltac:(discriminate))
      as [[Hv ->]|[[Hv ->]|[Hv ->]]];
      destruct (Q.max_spec 0 (Legacy.Player.y p - 5)) as [[? ->]|[? ->]];
      lra.
  - apply clamp_inside; assumption.
Qed.

Lemma legacy_up_steps (n : nat) (p : Legacy.Player.t) :
  on_map (Legacy.Player.x p) (Legacy.Player.y p) ->
  let q := legacy_steps (repeat "up" n) p in
  Legacy.Player.y q ==
    Qmax 0 (Legacy.Player.y p - MOVEMENT_SPEED * inject_Z (Z.of_nat n)) /\
  Legacy.Player.x q == Legacy.Player.x p.
Proof.
  unfold legacy_steps. revert p.
  induction n as [|n IH]; intros p Hp; cbn [repeat fold_left]; cbv zeta.
  - destruct Hp as [_ [Hy0 _]]. unfold MOVEMENT_SPEED. cbn [Z.of_nat].
    split; [|reflexivity].
    destruct (Q.max_spec 0 (Legacy.Player.y p - 5 * inject_Z 0))
      as [[H ->]|[H ->]]; unfold inject_Z in *; lra.
  - destruct (legacy_up_step p Hp) as [Hy Hx].
    destruct (IH (Legacy.apply_input "up" p)
                (legacy_apply_input_on_map "up" p)) as [IHy IHx].
    cbv zeta in IHy, IHx. rewrite IHy, IHx. split; [|exact Hx].
    rewrite Nat2Z.inj_succ, <- Z.add_1_r, inject_Z_plus.
    unfold MOVEMENT_SPEED in *.
    set (k := inject_Z (Z.of_nat n)) in *.
    set (y1 := Legacy.Player.y (Legacy.apply_input "up" p)) in *.
    assert (Hk : 0 <= k)
      by (subst k; rewrite <- (Zle_Qle 0); apply Nat2Z.is_nonneg).
    change (inject_Z 1) with 1.
    destruct (Q.max_spec 0 (Legacy.Player.y p - 5)) as [[H1 E1]|[H1 E1]];
      rewrite E1 in Hy;
      destruct (Q.max_spec 0 (y1 - 5 * k)) as [[H2 ->]|[H2 ->]];
      destruct (Q.max_spec 0 (Legacy.Player.y p - 5 * (k + 1)))
        as [[H3 ->]|[H3 ->]]; lra.
Qed.

(** X15. The earlier server has no speed limit: a player on the map with
    [n] inputs [up] waiting in its queue is taken up by [5 n] in one tick,
    as far as the upper wall, with its abscissa unchanged and its queue
    empty. *)
Theorem legacy_queue_has_no_speed_limit (env : Env) (now : Z)
    (ps : Legacy.Players) (pl : Pool) (id : string) (p : Legacy.Player.t)
    (n : nat) :
  Dict.get id ps = Some p ->
  Legacy.Player.inputs p = repeat "up" n ->
  on_map (Legacy.Player.x p) (Legacy.Player.y p) ->
  exists q,
    Dict.get id (fst (fst (Legacy.tick env now ps pl))) = Some q /\
    Legacy.Player.y q ==
      Qmax 0 (Legacy.Player.y p - 5 * inject_Z (Z.of_nat n)) /\
    Legacy.Player.x q == Legacy.Player.x p /\
    Legacy.Player.inputs q = [].
Proof.
  intros Hp Hin Hmap. unfold Legacy.tick.
  destruct (legacy_each_player_get env ps pl id p Hp)
    as (q & Hq & Hx & Hy & Hi & _).
  destruct (Legacy.each_player env ps pl) as [ps' pl']. cbn [fst] in *.
  exists q. split; [exact Hq|].
  unfold Legacy.process_inputs in Hx, Hy.
  rewrite legacy_drain_fold, Hin in Hx, Hy.
  cbn [Legacy.Player.x Legacy.Player.y Legacy.Player.set_inputs] in Hx, Hy.
  destruct (legacy_up_steps n p Hmap) as [Uy Ux]. cbv zeta in Uy, Ux.
  rewrite Hx, Hy. repeat split; assumption.
Qed.

Lemma legacy_queue_has_no_speed_limit_witness :
  exists q,
    Dict.get "p"
      (fst (fst (Legacy.tick Sample.env 1000 [("p", Sample2.climber)]
                   (initial_pool Sample.env)))) = Some q /\
    Legacy.Player.y q == 285 /\ Legacy.Player.x q == 400.
Proof.
  assert (Hm : on_map (Legacy.Player.x Sample2.climber)
                 (Legacy.Player.y Sample2.climber))
    by (repeat split; discriminate).
  destruct (legacy_queue_has_no_speed_limit Sample.env 1000
              [("p", Sample2.climber)] (initial_pool Sample.env) "p"
              Sample2.climber 3 eq_refl eq_refl Hm)
    as (q & Hq & Hy & Hx & _).
  exists q. split; [exact Hq|]. split.
  - rewrite Hy. reflexivity.
  - rewrite Hx. reflexivity.
Defined.

(** * Further properties of the client *)

(** ** The snapshot buffer *)

Lemma on_state_window (state : Client.Snapshot.t)
    (history : list Client.Snapshot.t) :
  Client.on_state state (newest 20 history) =
  newest 20 (history ++ [state]).
Proof.
  unfold Client.on_state, newest.
  rewrite !length_app, length_skipn. cbn [List.length].
  destruct (Nat.lt_ge_cases (List.length history) 20) as [Hlt|Hge].
  - replace (List.length history - 20)%nat with 0%nat by lia.
    replace (List.length history + 1 - 20)%nat with 0%nat by lia.
    cbn [skipn].
    destruct (Nat.ltb_spec 20 (List.length history - 0 + 1)); [lia|].
    reflexivity.
  - set (k := (List.length history - 20)%nat).
    replace (List.length history + 1 - 20)%nat with (S k) by (subst k; lia).
    destruct (Nat.ltb_spec 20 (List.length history - k + 1));
      [|subst k; lia].
    destruct (nth_error history k) as [c|] eqn:Hc;
      [|apply nth_error_None in Hc; subst k; lia].
    rewrite (skipn_cons k history c Hc). cbn [app tl].
    rewrite skipn_app.
    replace (S k - List.length history)%nat with 0%nat by (subst k; lia).
    reflexivity.
Qed.

Lemma play_window (acts : list Browser.Action) (pg : Browser.Page)
    (history : list Client.Snapshot.t) :
  Browser.stateBuffer pg = newest 20 history ->
  Browser.stateBuffer (fst (Browser.play pg acts)) =
    newest 20 (history ++ received acts).
Proof.
  revert pg history. induction acts as [|a acts IH]; intros pg history Hb;
    cbn [Browser.play received].
  - now rewrite app_nil_r.
  - assert (Hstep : Browser.stateBuffer (fst (Browser.act pg a)) =
                    newest 20 (history ++ received [a])).
    { destruct a as [k | k | [id | state |]];
        cbn [Browser.act received]; rewrite ?app_nil_r.
      - unfold Browser.keydown. destruct (Browser.held k pg); [exact Hb|].
        destruct (Browser.may_send _ _); exact Hb.
      - unfold Browser.keyup. destruct (negb (Browser.held k pg));
          [exact Hb|].
        destruct (Browser.may_send _ _); exact Hb.
      - exact Hb.
      - cbn [fst Browser.onmessage Browser.stateBuffer]. rewrite Hb.
        apply on_state_window.
      - exact Hb. }
    destruct (Browser.act pg a) as [pg1 o1]. cbn [fst] in Hstep.
    specialize (IH pg1 _ Hstep).
    destruct (Browser.play pg1 acts) as [pg2 o2]. cbn [fst] in *.
    rewrite IH, <- app_assoc. f_equal. f_equal.
    destruct a as [k | k | [id | state |]]; reflexivity.
Qed.

(** X16. Whatever the user types and the server sends, the buffer of the
    page holds the twenty snapshots received last, or all of them while
    they are fewer, in the order they arrived; it never holds more than
    twenty. *)
Theorem buffer_holds_newest_twenty (acts : list Browser.Action) :
  let buffer := Browser.stateBuffer (fst (Browser.play Browser.loaded acts)) in
  buffer = newest 20 (received acts) /\ (List.length buffer <= 20)%nat.
Proof.
  cbv zeta.
  pose proof (play_window acts Browser.loaded [] eq_refl) as H.
  cbn [app] in H. split; [exact H|].
  rewrite H. unfold newest. rewrite length_skipn. lia.
Qed.

(** ** Which snapshots the scan picks *)

(** The scan goes past every snapshot that is not later than the render
    time. *)
Lemma scan_past_old (target : Q) (l rest : list Client.Snapshot.t)
    (prev0 : option Client.Snapshot.t) :
  Forall (old target) l ->
  Client.scan target (l ++ rest) prev0 =
  Client.scan target rest
    (match rev l with [] => prev0 | s :: _ => Some s end).
Proof.
  revert prev0. induction l as [|s l IH]; intros prev0 Hold;
    cbn [app Client.scan rev]; [reflexivity|].
  inversion Hold as [|? ? Hs Hl]; subst.
  unfold old in Hs. apply Qle_bool_iff in Hs. rewrite Hs.
  rewrite (IH (Some s) Hl).
  destruct (rev l) as [|s' r]; reflexivity.
Qed.

(** Where the scan stops. *)
Lemma scan_stops (target : Q) (buffer : list Client.Snapshot.t)
    (prev0 pv : option Client.Snapshot.t) (next : Client.Snapshot.t) :
  Client.scan target buffer prev0 = (pv, Some next) ->
  exists l1 l2,
    buffer = (l1 ++ next :: l2)%list /\ Forall (old target) l1 /\
    fresh target next /\
    pv = match rev l1 with [] => prev0 | s :: _ => Some s end.
Proof.
  revert prev0. induction buffer as [|s rest IH]; intro prev0;
    cbn [Client.scan]; [discriminate|].
  destruct (Qle_bool (Client.Snapshot.timestamp s) target) eqn:E.
  - intro H. destruct (IH (Some s) H) as (l1 & l2 & -> & Hold & Hnew & ->).
    exists (s :: l1), l2. repeat split; try assumption.
    + constructor; [now apply Qle_bool_iff | exact Hold].
    + cbn [rev]. destruct (rev l1) as [|s' r]; reflexivity.
  - intros [= <- <-]. exists [], rest. repeat split; try constructor.
    unfold fresh. apply Qnot_le_lt. intro H. apply Qle_bool_iff in H.
    congruence.
Qed.

Lemma rev_snoc_head {A : Type} (l : list A) (a : A) :
  rev (l ++ [a]) = a :: rev l.
Proof. now rewrite rev_app_distr. Qed.

(** X17. The interpolating branch of [getCurrentState] is taken exactly
    when the buffer starts with snapshots that are not later than the
    render time and one that is later follows: [prev] is the last of the
    former, [next] comes right after it.  In a buffer ordered by
    timestamp, every snapshot after [next] is later too, so [prev] is the
    latest snapshot not later than the render time and [next] the
    earliest later one. *)
Theorem scan_picks_adjacent_snapshots (target : Q)
    (buffer : list Client.Snapshot.t) (prev next : Client.Snapshot.t) :
  (Client.scan target buffer None = (Some prev, Some next) <->
   exists l1 l2,
     buffer = (l1 ++ prev :: next :: l2)%list /\
     Forall (old target) l1 /\ old target prev /\ fresh target next) /\
  (Client.scan target buffer None = (Some prev, Some next) ->
   by_timestamp buffer ->
   forall l1 l2, buffer = (l1 ++ prev :: next :: l2)%list ->
     Forall (fresh target) l2).
Proof.
  split; [split|].
  - intro H. destruct (scan_stops _ _ _ _ _ H) as (l & l2 & -> & Hold & Hnew & Hpv).
    destruct (rev l) as [|s r] eqn:Hr; [discriminate|].
    injection Hpv as ->.
    assert (Hl : l = (rev r ++ [s])%list).
    { rewrite <- (rev_involutive l), Hr. reflexivity. }
    subst l. apply Forall_app in Hold as [Hold Hs].
    exists (rev r), l2. rewrite <- app_assoc. repeat split; try assumption.
    now inversion Hs.
  - intros (l1 & l2 & -> & Hold & Hp & Hn).
    replace (l1 ++ prev :: next :: l2)%list
      with ((l1 ++ [prev]) ++ next :: l2)%list
      by (now rewrite <- app_assoc).
    rewrite scan_past_old
      by (apply Forall_app; split; [exact Hold | now constructor]).
    rewrite rev_snoc_head. cbn [Client.scan].
    unfold fresh in Hn.
    destruct (Qle_bool (Client.Snapshot.timestamp next) target) eqn:E;
      [|reflexivity].
    apply Qle_bool_iff in E. exfalso. exact (Qlt_not_le _ _ Hn E).
  - intros H Hsorted l1 l2 ->.
    destruct (scan_stops _ _ _ _ _ H) as (_ & _ & _ & _ & Hn & _).
    unfold by_timestamp in Hsorted.
    replace (l1 ++ prev :: next :: l2)%list
      with ((l1 ++ [prev]) ++ next :: l2)%list in Hsorted
      by (now rewrite <- app_assoc).
    assert (Htail : StronglySorted
                      (fun a b => Client.Snapshot.timestamp a <=
                                  Client.Snapshot.timestamp b)
                      (next :: l2)).
    { revert Hsorted. generalize (l1 ++ [prev])%list as l.
      induction l as [|a l IH]; cbn [app]; intro Hs; [exact Hs|].
      apply IH. now apply StronglySorted_inv in Hs. }
    apply StronglySorted_inv in Htail as [_ Hall].
    eapply Forall_impl; [|exact Hall].
    intros s Hs. unfold fresh in *. cbn in Hs. lra.
Qed.

Lemma scan_picks_adjacent_snapshots_witness :
  Client.scan 1075 Sample2.three None =
    (Some Sample.later, Some Sample2.latest_one) /\
  Forall (fresh 1075) [].
Proof.
  assert (Hscan : Client.scan 1075 Sample2.three None =
                  (Some Sample.later, Some Sample2.latest_one)).
  { apply (scan_picks_adjacent_snapshots 1075 Sample2.three Sample.later
             Sample2.latest_one).
    exists [Sample.earlier], [].
    split; [reflexivity|]. split; [repeat constructor; discriminate|].
    split; [discriminate | reflexivity]. }
  split; [exact Hscan|].
  apply (proj2 (scan_picks_adjacent_snapshots 1075 Sample2.three Sample.later
                  Sample2.latest_one) Hscan) with (l1 := [Sample.earlier]).
  - repeat constructor; discriminate.
  - reflexivity.
Defined.

(** ** The fall-back *)

Lemma scan_all_old (target : Q) (buffer : list Client.Snapshot.t)
    (prev0 : option Client.Snapshot.t) :
  Forall (old target) buffer ->
  snd (Client.scan target buffer prev0) = None.
Proof.
  intro H. rewrite <- (app_nil_r buffer), (scan_past_old _ _ [] _ H).
  reflexivity.
Qed.

(** X18. When no snapshot of the buffer is later than the render time,
    and also when the very first one already is, [getCurrentState] returns
    the snapshot received last, as it is: nothing is interpolated.  The
    result is [undefined] exactly when the buffer is empty. *)
Theorem fallback_returns_latest (now : Q) (stateBuffer : list Client.Snapshot.t) :
  let target := now - Client.RENDER_DELAY in
  (Forall (old target) stateBuffer \/
   exists s rest, stateBuffer = s :: rest /\ fresh target s) ->
  Client.getCurrentState now stateBuffer =
    option_map Client.as_frame (Client.latest stateBuffer) /\
  (Client.getCurrentState now stateBuffer = None <-> stateBuffer = []).
Proof.
  cbv zeta. intro Hcase.
  assert (Hfall : Client.getCurrentState now stateBuffer =
                  option_map Client.as_frame (Client.latest stateBuffer)).
  { unfold Client.getCurrentState.
    destruct Hcase as [Hold|(s & rest & -> & Hs)].
    - pose proof (scan_all_old _ _ None Hold) as Hsnd.
      destruct (Client.scan (now - Client.RENDER_DELAY) stateBuffer None)
        as [[pv|] [nx|]]; cbn [snd] in Hsnd; try discriminate; reflexivity.
    - cbn [Client.scan]. unfold fresh in Hs.
      destruct (Qle_bool (Client.Snapshot.timestamp s)
                  (now - Client.RENDER_DELAY)) eqn:E; [|reflexivity].
      apply Qle_bool_iff in E. exfalso. exact (Qlt_not_le _ _ Hs E). }
  split; [exact Hfall|]. rewrite Hfall. unfold Client.latest. split.
  - destruct stateBuffer as [|s rest]; [reflexivity|].
    destruct (nth_error (s :: rest) (List.length (s :: rest) - 1)) eqn:E;
      [discriminate|].
    apply nth_error_None in E. cbn [List.length] in E. lia.
  - intros ->. reflexivity.
Qed.

Lemma fallback_returns_latest_witness :
  Client.getCurrentState 2000 Sample2.three =
    Some (Client.as_frame Sample2.latest_one) /\
  Client.getCurrentState 1000 Sample2.three =
    Some (Client.as_frame Sample2.latest_one).
Proof.
  split.
  - apply (fallback_returns_latest 2000 Sample2.three).
    left. repeat constructor; discriminate.
  - apply (fallback_returns_latest 1000 Sample2.three).
    right. exists Sample.earlier, [Sample.later; Sample2.latest_one].
    split; reflexivity.
Defined.

(** ** The interpolated frame *)

Lemma keys_map_values {A B : Type} (f : string * A -> B)
    (d : list (string * A)) :
  Dict.keys (map (fun kp => (fst kp, f kp)) d) = Dict.keys d.
Proof.
  unfold Dict.keys. rewrite map_map. apply map_ext. reflexivity.
Qed.

(** X19. The interpolated frame shows exactly the players of [next], in
    the order of [next]: a player that is only in [prev] is not drawn, a
    player that is only in [next] is drawn where [next] has it, and every
    player drawn has the score and the colour of [next].  The coins are
    those of [next]. *)
Theorem frame_follows_next (prev next : Client.Snapshot.t) (target : Q) :
  let frame := Client.interpolate prev next target in
  Dict.keys (Client.Frame.players frame) =
    Dict.keys (Client.Snapshot.players next) /\
  Client.Frame.coins frame = Client.Snapshot.coins next /\
  (forall id, Dict.get id (Client.Snapshot.players next) = None ->
     Dict.get id (Client.Frame.players frame) = None) /\
  (forall id pNext,
     Dict.get id (Client.Snapshot.players next) = Some pNext ->
     exists sp, Dict.get id (Client.Frame.players frame) = Some sp /\
       Client.Sprite.score sp = Client.Remote.score pNext /\
       Client.Sprite.color sp = Client.Remote.color pNext /\
       (Dict.get id (Client.Snapshot.players prev) = None ->
        sp = Client.snap pNext)).
Proof.
  cbv zeta. unfold Client.interpolate. cbn [Client.Frame.players
    Client.Frame.coins].
  split; [|split; [reflexivity|split]].
  - apply (keys_map_values
             (fun kp => Client.lerp
                          (Dict.get (fst kp) (Client.Snapshot.players prev))
                          (snd kp) (Client.factor prev next target))).
  - intros id Hnone.
    rewrite (get_map_values
               (fun k pN =>
                  Client.lerp (Dict.get k (Client.Snapshot.players prev)) pN
                    (Client.factor prev next target))).
    now rewrite Hnone.
  - intros id pNext Hnext.
    rewrite (get_map_values
               (fun k pN =>
                  Client.lerp (Dict.get k (Client.Snapshot.players prev)) pN
                    (Client.factor prev next target))).
    rewrite Hnext. cbn [option_map]. eexists. split; [reflexivity|].
    destruct (Dict.get id (Client.Snapshot.players prev)) as [pPrev|];
      cbn [Client.lerp Client.snap Client.Sprite.score Client.Sprite.color];
      repeat split; intro H; discriminate H.
Qed.

Lemma frame_follows_next_witness :
  Dict.get "q"
    (Client.Frame.players
       (Client.interpolate Sample.later Sample2.latest_one 1075)) =
    Some (Client.snap (Client.Remote.make "q" 400 300 0 "blue")).
Proof.
  destruct (frame_follows_next Sample.later Sample2.latest_one 1075)
    as (_ & _ & _ & H).
  destruct (H "q" _ eq_refl) as (sp & Hsp & _ & _ & Hsnap).
  rewrite Hsp. f_equal. apply Hsnap. reflexivity.
Defined.

(** X20. Between two snapshots the factor starts at [0] and ends at [1]
    and never decreases as the render time advances; at the timestamp of
    [prev] a player is drawn exactly where [prev] has it, at the timestamp
    of [next] exactly where [next] has it. *)
Theorem interpolation_runs_from_prev_to_next (prev next : Client.Snapshot.t)
    (t1 t2 : Q) (pPrev pNext : Client.Remote.t) :
  Client.Snapshot.timestamp prev < Client.Snapshot.timestamp next ->
  let at_prev :=
    Client.lerp (Some pPrev) pNext
      (Client.factor prev next (Client.Snapshot.timestamp prev)) in
  let at_next :=
    Client.lerp (Some pPrev) pNext
      (Client.factor prev next (Client.Snapshot.timestamp next)) in
  (t1 <= t2 -> Client.factor prev next t1 <= Client.factor prev next t2) /\
  (Client.Sprite.x at_prev == Client.Remote.x pPrev /\
   Client.Sprite.y at_prev == Client.Remote.y pPrev) /\
  (Client.Sprite.x at_next == Client.Remote.x pNext /\
   Client.Sprite.y at_next == Client.Remote.y pNext).
Proof.
  intro Hlt. cbv zeta. unfold Client.factor.
  set (tp := Client.Snapshot.timestamp prev) in *.
  set (tn := Client.Snapshot.timestamp next) in *.
  assert (Hd : 0 < tn - tp) by lra.
  assert (H0 : (tp - tp) / (tn - tp) == 0).
  { setoid_replace (tp - tp) with 0 by ring. unfold Qdiv. ring. }
  assert (H1 : (tn - tp) / (tn - tp) == 1).
  { apply Qmult_inv_r. lra. }
  split; [|split].
  - intro H12. unfold Qdiv. apply Qmult_le_compat_r; [lra|].
    apply Qinv_le_0_compat. lra.
  - cbn [Client.lerp Client.Sprite.x Client.Sprite.y]. rewrite H0.
    split; ring.
  - cbn [Client.lerp Client.Sprite.x Client.Sprite.y]. rewrite H1.
    split; ring.
Qed.

Lemma interpolation_runs_from_prev_to_next_witness :
  Client.factor Sample.earlier Sample.later 1010 <=
  Client.factor Sample.earlier Sample.later 1040.
Proof.
  apply (interpolation_runs_from_prev_to_next Sample.earlier Sample.later
           1010 1040 (Client.Remote.make "p" 100 300 0 "red")
           (Client.Remote.make "p" 110 300 0 "red")).
  - reflexivity.
  - discriminate.
Defined.

(** ** Drawing *)

Lemma latest_nonempty {A : Type} (s : A) (rest : list A) :
  nth_error (s :: rest) (List.length (s :: rest) - 1) <> None.
Proof.
  intro E. apply nth_error_None in E. cbn [List.length] in E. lia.
Qed.

(** X21. With two snapshots or more in the buffer [getCurrentState]
    always returns a frame, and [render] draws it: it clears the canvas,
    draws that frame and asks for the next one.  The test of the frame
    inside [render] never fails. *)
Theorem render_draws_current_state (width height : Q) (myId : option string)
    (now : Q) (stateBuffer : list Client.Snapshot.t) :
  (2 <= List.length stateBuffer)%nat ->
  exists frame,
    Client.getCurrentState now stateBuffer = Some frame /\
    Client.render width height myId now stateBuffer =
      (Client.clearRect 0 0 width height :: Client.draw myId frame
       ++ [Client.requestAnimationFrame])%list.
Proof.
  intro Hlen.
  assert (Hsome : exists frame,
            Client.getCurrentState now stateBuffer = Some frame).
  { unfold Client.getCurrentState.
    destruct (Client.scan (now - Client.RENDER_DELAY) stateBuffer None)
      as [[pv|] [nx|]]; try (eexists; reflexivity);
      unfold Client.latest;
      (destruct stateBuffer as [|s rest]; [cbn in Hlen; lia|]);
      (destruct (nth_error (s :: rest) (List.length (s :: rest) - 1)) eqn:E;
       [eexists; reflexivity | exfalso; exact (latest_nonempty s rest E)]). }
  destruct Hsome as [frame Hf]. exists frame. split; [exact Hf|].
  unfold Client.render. rewrite Hf.
  destruct (Nat.ltb_spec 1 (List.length stateBuffer)); [reflexivity | lia].
Qed.

Lemma render_draws_current_state_witness :
  exists frame,
    Client.getCurrentState 1125 [Sample.earlier; Sample.later] = Some frame /\
    Client.render 800 600 None 1125 [Sample.earlier; Sample.later] =
      (Client.clearRect 0 0 800 600 :: Client.draw None frame
       ++ [Client.requestAnimationFrame])%list.
Proof.
  apply (render_draws_current_state 800 600 None 1125
           [Sample.earlier; Sample.later]).
  cbn. lia.
Defined.

Lemma filter_flat_map {A B : Type} (f : A -> list B) (g : B -> bool)
    (l : list A) :
  filter g (flat_map f l) = flat_map (fun a => filter g (f a)) l.
Proof.
  induction l as [|a l IH]; cbn [flat_map]; [reflexivity|].
  now rewrite filter_app, IH.
Qed.

Lemma length_flat_map_const {A B : Type} (f : A -> list B) (n : nat)
    (l : list A) :
  (forall a, List.length (f a) = n) ->
  List.length (flat_map f l) = (n * List.length l)%nat.
Proof.
  intro Hf. induction l as [|a l IH]; cbn [flat_map List.length]; [lia|].
  rewrite length_app, Hf, IH. lia.
Qed.



(** ** The keyboard *)

Lemma mapKeyToCmd_direction (k cmd : string) :
  Client.mapKeyToCmd k = Some cmd -> In cmd DIRECTIONS.
Proof.
  unfold Client.mapKeyToCmd, DIRECTIONS.
  destruct (_ || _); [intros [= <-]; cbn; tauto|].
  destruct (_ || _); [intros [= <-]; cbn; tauto|].
  destruct (_ || _); [intros [= <-]; cbn; tauto|].
  destruct (_ || _); [intros [= <-]; cbn; tauto | discriminate].
Qed.

Lemma may_send_direction (k cmd : string) (pg : Browser.Page) :
  Browser.may_send (Client.mapKeyToCmd k) pg = Some cmd -> In cmd DIRECTIONS.
Proof.
  unfold Browser.may_send.
  destruct (Client.mapKeyToCmd k) as [c|] eqn:E; [|discriminate].
  destruct (Browser.myId pg) as [id|]; [|discriminate].
  destruct (String.eqb id ""); [discriminate|].
  intros [= <-]. exact (mapKeyToCmd_direction k c E).
Qed.

Lemma act_sends_intents (pg : Browser.Page) (a : Browser.Action) (m : JSON) :
  In m (snd (Browser.act pg a)) ->
  exists cmd action, is_intent m cmd action.
Proof.
  destruct a as [k | k | msg]; cbn [Browser.act].
  - unfold Browser.keydown. destruct (Browser.held k pg); [intros []|].
    match goal with |- context [Browser.may_send ?c ?p] =>
      destruct (Browser.may_send c p) as [cmd|] eqn:E end; [|intros []].
    intros [<-|[]]. exists cmd, "start". repeat split.
    + exact (may_send_direction _ _ _ E).
    + now left.
  - unfold Browser.keyup. destruct (negb (Browser.held k pg)); [intros []|].
    match goal with |- context [Browser.may_send ?c ?p] =>
      destruct (Browser.may_send c p) as [cmd|] eqn:E end; [|intros []].
    intros [<-|[]]. exists cmd, "stop". repeat split.
    + exact (may_send_direction _ _ _ E).
    + now right.
  - intros [].
Qed.

(** X23. Whatever the user types, every frame the page sends is an
    [input] message for one of the four directions with the action
    [start] or [stop]; the server takes each of them as an intent: it sets
    the flag of that direction for the sender, and neither drops the frame
    nor treats it as a single step. *)
Theorem page_speaks_the_protocol (pg : Browser.Page)
    (acts : list Browser.Action) (m : JSON) :
  In m (snd (Browser.play pg acts)) ->
  exists cmd action,
    is_intent m cmd action /\
    forall playerId ps p,
      Dict.get playerId ps = Some p ->
      Server.on_message playerId (Text m) ps =
        Some (Dict.set playerId
                (Player.set_pressed
                   (Pressed.set cmd (String.eqb action "start")
                      (Player.pressed p)) p)
                ps).
Proof.
  intro Hin.
  assert (Hint : exists cmd action, is_intent m cmd action).
  { revert pg Hin. induction acts as [|a acts IH]; intros pg;
      cbn [Browser.play]; [intros []|].
    pose proof (act_sends_intents pg a m) as Ha.
    destruct (Browser.act pg a) as [pg1 o1].
    specialize (IH pg1).
    destruct (Browser.play pg1 acts) as [pg2 o2]. cbn [snd] in *.
    intro Hin. apply in_app_iff in Hin as [Hin|Hin]; auto. }
  destruct Hint as (cmd & action & Hm). exists cmd, action.
  split; [exact Hm|].
  destruct Hm as (-> & Hcmd & Hact). intros playerId ps p Hp.
  now apply on_message_intent.
Qed.

Lemma page_speaks_the_protocol_witness :
  exists cmd action,
    is_intent (Client.input_message "up" "start") cmd action.
Proof.
  destruct (page_speaks_the_protocol Sample2.ready
              [Browser.KeyDown "w"; Browser.KeyUp "w"]
              (Client.input_message "up" "start"))
    as (cmd & action & H & _).
  - left. reflexivity.
  - exists cmd, action. exact H.
Defined.

Lemma held_after_set (k : string) (b : bool) (pg : Browser.Page) :
  Browser.held k
    (Browser.make (Browser.myId pg) (Browser.stateBuffer pg)
       (Dict.set k b (Browser.keys pg))) = b.
Proof.
  unfold Browser.held. cbn [Browser.keys]. now rewrite get_set_same.
Qed.

(** Runs the handlers of a page whose fields are known. *)
Ltac page_steps :=
  repeat first
    [ progress cbn [Browser.myId Browser.keys Browser.stateBuffer
                    fst snd negb app]
    | match goal with
      | H : match Dict.get ?k ?ks with Some _ => _ | None => _ end = _
        |- context [Dict.get ?k ?ks] => rewrite H
      | H : Client.mapKeyToCmd ?k = _
        |- context [Client.mapKeyToCmd ?k] => rewrite H
      | H : String.eqb ?id "" = _ |- context [String.eqb ?id ""] => rewrite H
      end
    | rewrite get_set_same
    | rewrite set_set ];
  try reflexivity.

Lemma keydown_holds (k : string) (pg : Browser.Page) :
  Browser.held k (fst (Browser.keydown k pg)) = true.
Proof.
  unfold Browser.keydown. destruct (Browser.held k pg) eqn:E; [exact E|].
  cbv zeta. destruct (Browser.may_send _ _); cbn [fst];
    apply held_after_set.
Qed.

(** X24. A key that is held sends one [start], however often the
    browser repeats [keydown]: the repeated event sends nothing and changes
    nothing.  For a page that knows its id, pressing and then releasing a
    mapped key that was not held sends the [start] and then the [stop] of
    its direction, and nothing else. *)
Theorem key_sends_one_start_and_one_stop (k : string) (pg : Browser.Page) :
  Browser.keydown k (fst (Browser.keydown k pg)) =
    (fst (Browser.keydown k pg), []) /\
  (forall cmd id,
     Browser.held k pg = false ->
     Client.mapKeyToCmd k = Some cmd ->
     Browser.myId pg = Some id -> id <> "" ->
     snd (Browser.play pg [Browser.KeyDown k; Browser.KeyDown k;
                           Browser.KeyUp k]) =
       [Client.input_message cmd "start"; Client.input_message cmd "stop"]).
Proof.
  split.
  - generalize (keydown_holds k pg).
    generalize (fst (Browser.keydown k pg)). intros pg1 H.
    unfold Browser.keydown. now rewrite H.
  - intros cmd id Hheld Hcmd Hid Hne.
    assert (Hempty : String.eqb id "" = false)
      by (now apply String.eqb_neq).
    destruct pg as [mid buf ks]. cbn [Browser.myId] in Hid. subst mid.
    unfold Browser.held in Hheld. cbn [Browser.keys] in Hheld.
    unfold Browser.play, Browser.act, Browser.keydown, Browser.keyup,
      Browser.held, Browser.may_send.
    page_steps.
Qed.

Lemma key_sends_one_start_and_one_stop_witness :
  snd (Browser.play Sample2.ready
         [Browser.KeyDown "ArrowLeft"; Browser.KeyDown "ArrowLeft";
          Browser.KeyUp "ArrowLeft"]) =
    [Client.input_message "left" "start"; Client.input_message "left" "stop"].
Proof.
  apply (key_sends_one_start_and_one_stop "ArrowLeft" Sample2.ready)
    with (id := "f"); try reflexivity.
  discriminate.
Defined.

Lemma act_keeps_no_id (pg : Browser.Page) (a : Browser.Action) :
  Browser.myId pg = None -> no_init [a] = true ->
  Browser.myId (fst (Browser.act pg a)) = None /\
  snd (Browser.act pg a) = [].
Proof.
  intros Hid Hno. destruct a as [k | k | [id | state |]];
    cbn [Browser.act]; try discriminate Hno.
  - unfold Browser.keydown. destruct (Browser.held k pg);
      [split; [exact Hid | reflexivity]|].
    cbv zeta. unfold Browser.may_send. cbn [Browser.myId]. rewrite Hid.
    destruct (Client.mapKeyToCmd k); split; cbn; auto.
  - unfold Browser.keyup. destruct (negb (Browser.held k pg));
      [split; [exact Hid | reflexivity]|].
    cbv zeta. unfold Browser.may_send. cbn [Browser.myId]. rewrite Hid.
    destruct (Client.mapKeyToCmd k); split; cbn; auto.
  - split; [exact Hid | reflexivity].
  - split; [exact Hid | reflexivity].
Qed.

(** X25. Until the page has received its id it sends nothing, whatever
    is typed; but it remembers the keys: a mapped key that goes down
    before the id arrives and up after it sends a [stop] that no [start]
    preceded. *)
Theorem no_intent_before_the_id (pg : Browser.Page)
    (acts : list Browser.Action) :
  Browser.myId pg = None ->
  (no_init acts = true -> snd (Browser.play pg acts) = []) /\
  (forall k cmd id,
     Browser.held k pg = false -> Client.mapKeyToCmd k = Some cmd ->
     id <> "" ->
     snd (Browser.play pg [Browser.KeyDown k;
                           Browser.Receive (Browser.Init id);
                           Browser.KeyUp k]) =
       [Client.input_message cmd "stop"]).
Proof.
  intro Hid. split.
  - revert pg Hid. induction acts as [|a acts IH]; intros pg Hid Hno;
      cbn [Browser.play]; [reflexivity|].
    assert (Ha : no_init [a] = true /\ no_init acts = true).
    { destruct a as [k | k | [id | state |]]; cbn [no_init] in *;
        try discriminate; split; auto. }
    destruct Ha as [Ha Hrest].
    destruct (act_keeps_no_id pg a Hid Ha) as [H1 H2].
    destruct (Browser.act pg a) as [pg1 o1]. cbn [fst snd] in *.
    specialize (IH pg1 H1 Hrest).
    destruct (Browser.play pg1 acts) as [pg2 o2]. cbn [snd] in *.
    now rewrite H2, IH.
  - intros k cmd id Hheld Hcmd Hne.
    assert (Hempty : String.eqb id "" = false)
      by (now apply String.eqb_neq).
    destruct pg as [mid buf ks]. cbn [Browser.myId] in Hid. subst mid.
    unfold Browser.held in Hheld. cbn [Browser.keys] in Hheld.
    unfold Browser.play, Browser.act, Browser.keydown, Browser.keyup,
      Browser.held, Browser.may_send, Browser.onmessage.
    page_steps.
Qed.

Lemma no_intent_before_the_id_witness :
  snd (Browser.play Browser.loaded
         [Browser.KeyDown "w"; Browser.KeyUp "w"; Browser.KeyDown "d"]) = [] /\
  snd (Browser.play Browser.loaded
         [Browser.KeyDown "w"; Browser.Receive (Browser.Init "f");
          Browser.KeyUp "w"]) = [Client.input_message "up" "stop"].
Proof.
  destruct (no_intent_before_the_id Browser.loaded
              [Browser.KeyDown "w"; Browser.KeyUp "w"; Browser.KeyDown "d"]
              eq_refl) as [H1 H2].
  split.
  - apply H1. reflexivity.
  - apply (H2 "w" "up" "f"); try reflexivity. discriminate.
Defined.

(** ** The same intent twice *)

(** X26. Handling an intent a second time changes nothing: after a
    [start] or a [stop] for a direction, the same message leaves the
    server exactly as the first one left it. *)
Theorem repeated_intent_changes_nothing (playerId d a : string)
    (ps : Server.Players) (p : Player.t) :
  In d DIRECTIONS -> a = "start" \/ a = "stop" ->
  Dict.get playerId ps = Some p ->
  exists ps1,
    Server.on_message playerId (Text (Client.input_message d a)) ps
      = Some ps1 /\
    Server.on_message playerId (Text (Client.input_message d a)) ps1
      = Some ps1.
Proof.
  intros Hd Ha Hp.
  pose proof (on_message_intent playerId d a ps p Hd Ha Hp) as H1.
  set (b := (a =? "start")%string) in *.
  set (p1 := Player.set_pressed (Pressed.set d b (Player.pressed p)) p) in *.
  exists (Dict.set playerId p1 ps). split; [exact H1|].
  rewrite (on_message_intent playerId d a (Dict.set playerId p1 ps) p1
             Hd Ha (get_set_same _ _ _)).
  rewrite set_set. fold b. subst p1.
  cbn [Player.pressed Player.set_pressed]. now rewrite set_set_pressed.
Qed.

Lemma repeated_intent_changes_nothing_witness :
  exists ps1,
    Server.on_message "f" (Sample.input "up" "start")
      (Server.PLAYERS Sample.lobby) = Some ps1 /\
    Server.on_message "f" (Sample.input "up" "start") ps1 = Some ps1.
Proof.
  apply (repeated_intent_changes_nothing "f" "up" "start"
           (Server.PLAYERS Sample.lobby) _
           (or_introl eq_refl) (or_introl eq_refl) eq_refl).
Defined.
